(** * Conlang Studio: the Gemini service layer

  A shallow embedding of [src/services/geminiService.ts]: the tolerant
  JSON extraction ([safeParseJSON]), the phonology normaliser
  ([safeParsePhonologyConfig]), and the exported operations that chunk a
  lexicon, call the remote model and merge its answers back
  ([repairLexicon], [evolveWords], [processCommandAI], ...).

  Texts are [string]s whose characters are the code units below 256;
  indices are [Z] with [-1] for "not found", as in the source.
[evolveWords] and [processCommandAI] are modelled a second time on a
heap of references ([Heap]), where sharing and mutation of the arrays
and entries of the caller can be told apart. *)

From Stdlib Require Import ZArith String Ascii Bool Lia DecimalString.
From stdpp Require Import base list.

Local Open Scope string_scope.
Local Open Scope Z_scope.
Local Open Scope list_scope.

Local Infix "+:+" := String.append (at level 60, right associativity).

(** ** Strings of the platform *)

Module Str.

Definition LF : string := String (ascii_of_nat 10) EmptyString.

Definition DQUOTE : ascii := ascii_of_nat 34.

(** The characters of the regular-expression class [\s], which are also
    the ones [String.prototype.trim] strips (TAB, LF, VT, FF, CR, SP and
    NBSP among the code units below 256). *)
Definition is_space (c : ascii) : bool :=
  let n := nat_of_ascii c in
  ((9 <=? n) && (n <=? 13) || (n =? 32) || (n =? 160))%nat.

(** The class [\w], which contains [\d]. *)
Definition is_word (c : ascii) : bool :=
  let n := nat_of_ascii c in
  ((48 <=? n) && (n <=? 57) || (65 <=? n) && (n <=? 90)
   || (97 <=? n) && (n <=? 122) || (n =? 95))%nat.

Definition len (s : string) : Z := Z.of_nat (String.length s).

Fixpoint trimStart (s : string) : string :=
  match s with
  | String c s' => if is_space c then trimStart s' else s
  | EmptyString => EmptyString
  end.

Fixpoint trimEnd (s : string) : string :=
  match s with
  | EmptyString => EmptyString
  | String c s' =>
      match trimEnd s' with
      | EmptyString => if is_space c then EmptyString else String c EmptyString
      | t => String c t
      end
  end.

Definition trim (s : string) : string := trimEnd (trimStart s).

Definition startsWith (s pat : string) : bool := String.prefix pat s.

(** [s.indexOf(pat)]: the least index at which [pat] occurs, or [-1]. *)
Fixpoint indexOf (s pat : string) : Z :=
  if String.prefix pat s then 0
  else match s with
       | EmptyString => -1
       | String _ s' => let i := indexOf s' pat in
                        if i =? -1 then -1 else i + 1
       end.

(** [s.lastIndexOf(pat)]: the greatest such index, or [-1]. *)
Fixpoint lastIndexOf (s pat : string) : Z :=
  match s with
  | EmptyString => if String.prefix pat s then 0 else -1
  | String _ s' =>
      let i := lastIndexOf s' pat in
      if i =? -1 then (if String.prefix pat s then 0 else -1) else i + 1
  end.

Definition clamp (s : string) (i : Z) : nat := Z.to_nat (Z.min (Z.max i 0) (len s)).

(** [s.substring(a, b)]: both ends are clamped to [0 .. length] and
    swapped when [a > b]. *)
Definition substring (s : string) (a b : Z) : string :=
  let a' := clamp s a in
  let b' := clamp s b in
  String.substring (Nat.min a' b') (Nat.max a' b' - Nat.min a' b') s.

(** [s.substring(a)] *)
Definition substringFrom (s : string) (a : Z) : string := substring s a (len s).

Fixpoint skip (p : ascii -> bool) (s : string) : string :=
  match s with
  | String c s' => if p c then skip p s' else s
  | EmptyString => EmptyString
  end.

Fixpoint join (sep : string) (l : list string) : string :=
  match l with
  | [] => ""
  | [x] => x
  | x :: l' => x +:+ sep +:+ join sep l'
  end.

(** [c] occurs in [s]. *)
Definition occurs (c : ascii) (s : string) : Prop := In c (list_ascii_of_string s).

End Str.

(** ** The two regular expressions of the parser *)

Module Regex.
Import Str.

Definition fence_open : string := "```json" +:+ LF.
Definition fence_close : string := LF +:+ "```".

(** [text.match(/```json\n([\s\S]*?)\n```/)]: capture group 1 of the
    leftmost match, the group being as short as possible. The opening
    marker that starts the leftmost match is the first one in the text,
    since a closing marker after a later opening marker also closes the
    first. *)
Definition match_fence (text : string) : option string :=
  let i := indexOf text fence_open in
  if i =? -1 then None
  else
    let rest := substringFrom text (i + len fence_open) in
    let j := indexOf rest fence_close in
    if j =? -1 then None else Some (substring rest 0 j).

(** The bracketed class of the second expression: a double quote, an
    apostrophe, [\w] or [\d]. *)
Definition is_key (c : ascii) : bool :=
  Ascii.eqb c DQUOTE || Ascii.eqb c "'" || is_word c.

(** A match of the second expression (an opening brace, [\s*], the key
    class lazily repeated, a colon, [[\s\S]*?], a closing brace)
    anchored at the head of [s]. [\s], the key class and the colon are
    pairwise disjoint, so the two runs
    are the maximal ones; the lazy tail stops at the first closing
    brace. *)
Definition loose_at (s : string) : option string :=
  match s with
  | String "{" s1 =>
      match skip is_key (skip is_space s1) with
      | String ":" s2 =>
          let j := indexOf s2 "}" in
          if j =? -1 then None
          else Some (substring s 0 (len s - len s2 + j + 1))
      | _ => None
      end
  | _ => None
  end.

(** [text.match(...)] for that expression: element 0 of the leftmost
    match. *)
Fixpoint match_loose (text : string) : option string :=
  match loose_at text with
  | Some m => Some m
  | None => match text with
            | EmptyString => None
            | String _ text' => match_loose text'
            end
  end.

End Regex.

(** ** Values of the platform *)

(** What a JavaScript expression of the service can evaluate to: the JSON
  values and [undefined]. A number is the decimal [m * 10^e], kept with
  no trailing zero in [m]; rounding to a double is not modelled. An
  object is the list of its own properties in creation order. *)
#[local] Set Warnings "-register-all".

Inductive value : Type :=
| VUndefined
| VNull
| VBool (b : bool)
| VNum (m e : Z)
| VStr (s : string)
| VArr (items : list value)
| VObj (fields : list (string * value)).

Module Js.
Import Str.

(** ToBoolean *)
Definition truthy (v : value) : bool :=
  match v with
  | VUndefined | VNull => false
  | VBool b => b
  | VNum m _ => negb (m =? 0)
  | VStr s => negb (String.eqb s EmptyString)
  | VArr _ | VObj _ => true
  end.

(** [a === b]. Objects and arrays compare by identity; every comparison
    of the service has an operand read from a freshly parsed response,
    which is identical to no other object. *)
Definition strict_eq (a b : value) : bool :=
  match a, b with
  | VUndefined, VUndefined | VNull, VNull => true
  | VBool x, VBool y => Bool.eqb x y
  | VNum m e, VNum m' e' => (m =? m') && (e =? e')
  | VStr x, VStr y => String.eqb x y
  | _, _ => false
  end.

Fixpoint lookup (k : string) (fields : list (string * value)) : option value :=
  match fields with
  | [] => None
  | (k', v) :: rest => if String.eqb k' k then Some v else lookup k rest
  end.

(** Define or overwrite an own property; an existing key keeps its place. *)
Fixpoint set (k : string) (v : value) (fields : list (string * value))
  : list (string * value) :=
  match fields with
  | [] => [(k, v)]
  | (k', v') :: rest =>
      if String.eqb k' k then (k, v) :: rest else (k', v') :: set k v rest
  end.

(** The object spread of [src] over [dst], as in [{...dst, ...src}]. *)
Definition spread_into (dst src : list (string * value)) : list (string * value) :=
  fold_left (fun acc kv => set (fst kv) (snd kv) acc) src dst.

Definition isArray (v : value) : bool :=
  match v with VArr _ => true | _ => false end.

Definition isString (v : value) : bool :=
  match v with VStr _ => true | _ => false end.

Definition digits (n : Z) : string := NilZero.string_of_int (Z.to_int n).

Fixpoint zeros (n : nat) : string :=
  match n with O => EmptyString | S n' => String "0" (zeros n') end.

(** Number::toString for the decimal [m * 10^e]. *)
Definition number_to_string (m e : Z) : string :=
  if m =? 0 then "0"
  else
    let d := digits (Z.abs m) in
    let k := len d in
    let n := k + e in
    let body :=
      if (k <=? n) && (n <=? 21) then d +:+ zeros (Z.to_nat (n - k))
      else if (0 <? n) && (n <=? 21) then
        substring d 0 n +:+ "." +:+ substringFrom d n
      else if (-6 <? n) && (n <=? 0) then
        "0." +:+ zeros (Z.to_nat (- n)) +:+ d
      else
        let x := n - 1 in
        let mant := if k =? 1 then d
                    else substring d 0 1 +:+ "." +:+ substringFrom d 1 in
        mant +:+ "e" +:+ (if x <? 0 then "-" else "+") +:+ digits (Z.abs x)
    in if m <? 0 then "-" +:+ body else body.

(** ToString *)
Fixpoint to_string (v : value) : string :=
  match v with
  | VUndefined => "undefined"
  | VNull => "null"
  | VBool true => "true"
  | VBool false => "false"
  | VNum m e => number_to_string m e
  | VStr s => s
  | VArr items =>
      join "," (map (fun x => match x with
                              | VUndefined | VNull => EmptyString
                              | _ => to_string x
                              end) items)
  | VObj _ => "[object Object]"
  end.

(** An element of [Array.prototype.join]. *)
Definition join_item (v : value) : string :=
  match v with
  | VUndefined | VNull => EmptyString
  | _ => to_string v
  end.

Definition str_of_nat (n : nat) : string := digits (Z.of_nat n).

(** Drop the trailing zeros of a mantissa. *)
Fixpoint normalize (fuel : nat) (m e : Z) : Z * Z :=
  match fuel with
  | O => (m, e)
  | S fuel' =>
      if m =? 0 then (0, 0)
      else if m mod 10 =? 0 then normalize fuel' (m / 10) (e + 1)
      else (m, e)
  end.

(** The number that is the integer [z]. *)
Definition of_Z (z : Z) : value :=
  let '(m, e) := normalize (String.length (digits (Z.abs z))) z 0 in VNum m e.

End Js.

(** ** JSON.parse and JSON.stringify *)

Module Json.
Import Str Js.

(** The white space of the JSON grammar: SP, TAB, LF, CR. *)
Definition is_ws (c : ascii) : bool :=
  let n := nat_of_ascii c in
  ((n =? 32) || (n =? 9) || (n =? 10) || (n =? 13))%nat.

Definition is_digit (c : ascii) : bool :=
  let n := nat_of_ascii c in ((48 <=? n) && (n <=? 57))%nat.

Definition hex_val (c : ascii) : option nat :=
  let n := nat_of_ascii c in
  if ((48 <=? n) && (n <=? 57))%nat then Some (n - 48)%nat
  else if ((65 <=? n) && (n <=? 70))%nat then Some (n - 55)%nat
  else if ((97 <=? n) && (n <=? 102))%nat then Some (n - 87)%nat
  else None.

(** The character an escape [\uXXXX] denotes; code units from 256 on
    are outside the alphabet of the model. *)
Definition unicode_escape (a b c d : ascii) : option ascii :=
  match hex_val a, hex_val b, hex_val c, hex_val d with
  | Some 0%nat, Some 0%nat, Some x, Some y => Some (ascii_of_nat (16 * x + y))
  | _, _, _, _ => None
  end.

Definition simple_escape (e : ascii) : option ascii :=
  if Ascii.eqb e DQUOTE then Some DQUOTE
  else if Ascii.eqb e "\" then Some "\"%char
  else if Ascii.eqb e "/" then Some "/"%char
  else if Ascii.eqb e "b" then Some (ascii_of_nat 8)
  else if Ascii.eqb e "f" then Some (ascii_of_nat 12)
  else if Ascii.eqb e "n" then Some (ascii_of_nat 10)
  else if Ascii.eqb e "r" then Some (ascii_of_nat 13)
  else if Ascii.eqb e "t" then Some (ascii_of_nat 9)
  else None.

(** The rest of a string literal, after its opening quote: the decoded
    string and what follows the closing quote. *)
Fixpoint parse_string (s : string) : option (string * string) :=
  match s with
  | EmptyString => None
  | String c s' =>
      if Ascii.eqb c DQUOTE then Some (EmptyString, s')
      else if Ascii.eqb c "\" then
        match s' with
        | String "u" (String h1 (String h2 (String h3 (String h4 r)))) =>
            match unicode_escape h1 h2 h3 h4, parse_string r with
            | Some d, Some (t, rest) => Some (String d t, rest)
            | _, _ => None
            end
        | String e r =>
            match simple_escape e, parse_string r with
            | Some d, Some (t, rest) => Some (String d t, rest)
            | _, _ => None
            end
        | EmptyString => None
        end
      else if (nat_of_ascii c <? 32)%nat then None
      else match parse_string s' with
           | Some (t, rest) => Some (String c t, rest)
           | None => None
           end
  end.

(** The longest run of digits at the head of [s], and the rest. *)
Fixpoint take_digits (s : string) : string * string :=
  match s with
  | String c s' =>
      if is_digit c then let '(d, r) := take_digits s' in (String c d, r)
      else (EmptyString, s)
  | EmptyString => (EmptyString, EmptyString)
  end.

Fixpoint Z_of_digits (acc : Z) (d : string) : Z :=
  match d with
  | EmptyString => acc
  | String c d' => Z_of_digits (10 * acc + Z.of_nat (nat_of_ascii c - 48)) d'
  end.

Definition parse_sign (s : string) : bool * string :=
  match s with
  | String c r => if Ascii.eqb c "-" then (true, r) else (false, s)
  | EmptyString => (false, s)
  end.

(** The integer part is one digit, or starts with a digit other than 0. *)
Definition int_ok (int : string) : bool :=
  match int with
  | EmptyString => false
  | String c (String _ _) => negb (Ascii.eqb c "0")
  | String _ EmptyString => true
  end.

(** The digits of the fraction, if there is one. *)
Definition parse_frac (s : string) : option (string * string) :=
  match s with
  | String c r =>
      if Ascii.eqb c "." then
        let '(f, r') := take_digits r in
        if String.eqb f EmptyString then None else Some (f, r')
      else Some (EmptyString, s)
  | EmptyString => Some (EmptyString, s)
  end.

Definition parse_exp_sign (s : string) : Z * string :=
  match s with
  | String c r =>
      if Ascii.eqb c "-" then (-1, r)
      else if Ascii.eqb c "+" then (1, r)
      else (1, s)
  | EmptyString => (1, s)
  end.

(** The exponent, if there is one. *)
Definition parse_exp (s : string) : option (Z * string) :=
  match s with
  | String c r =>
      if Ascii.eqb c "e" || Ascii.eqb c "E" then
        let '(sign, r1) := parse_exp_sign r in
        let '(x, r2) := take_digits r1 in
        if String.eqb x EmptyString then None
        else Some (sign * Z_of_digits 0 x, r2)
      else Some (0, s)
  | EmptyString => Some (0, s)
  end.

(** A number literal at the head of [s]. *)
Definition parse_number (s : string) : option (value * string) :=
  let '(neg, s1) := parse_sign s in
  let '(int, s2) := take_digits s1 in
  if negb (int_ok int) then None
  else
    match parse_frac s2 with
    | None => None
    | Some (frac, s3) =>
        match parse_exp s3 with
        | None => None
        | Some (ex, s4) =>
            let m := Z_of_digits 0 (int +:+ frac) in
            let '(m', e') := normalize (String.length (int +:+ frac))
                               (if neg then - m else m) (ex - len frac) in
            Some (VNum m' e', s4)
        end
    end.

Definition literal (word : string) (v : value) (s : string)
  : option (value * string) :=
  if String.prefix word s then Some (v, substringFrom s (len word)) else None.

(** Recursive descent over the JSON grammar. Every call but the first
    follows at least one consumed character or is the only call made on
    behalf of its caller, so [fuel] counts at most two calls for each
    character. *)
Fixpoint parse_value (fuel : nat) (s : string) : option (value * string) :=
  match fuel with
  | O => None
  | S fuel' =>
      match skip is_ws s with
      | EmptyString => None
      | String c r as s0 =>
          if Ascii.eqb c "{" then
            match skip is_ws r with
            | EmptyString => None
            | String d r' as r1 =>
                if Ascii.eqb d "}" then Some (VObj [], r')
                else parse_members fuel' r1 []
            end
          else if Ascii.eqb c "[" then
            match skip is_ws r with
            | EmptyString => None
            | String d r' as r1 =>
                if Ascii.eqb d "]" then Some (VArr [], r')
                else parse_elements fuel' r1 []
            end
          else if Ascii.eqb c DQUOTE then
            match parse_string r with
            | Some (t, rest) => Some (VStr t, rest)
            | None => None
            end
          else if Ascii.eqb c "t" then literal "true" (VBool true) s0
          else if Ascii.eqb c "f" then literal "false" (VBool false) s0
          else if Ascii.eqb c "n" then literal "null" VNull s0
          else parse_number s0
      end
  end
with parse_elements (fuel : nat) (s : string) (acc : list value)
  : option (value * string) :=
  match fuel with
  | O => None
  | S fuel' =>
      match parse_value fuel' s with
      | Some (v, r) =>
          match skip is_ws r with
          | EmptyString => None
          | String d r' =>
              if Ascii.eqb d "," then parse_elements fuel' r' (acc ++ [v])
              else if Ascii.eqb d "]" then Some (VArr (acc ++ [v]), r')
              else None
          end
      | None => None
      end
  end
with parse_members (fuel : nat) (s : string) (acc : list (string * value))
  : option (value * string) :=
  match fuel with
  | O => None
  | S fuel' =>
      match skip is_ws s with
      | EmptyString => None
      | String q r =>
          if Ascii.eqb q DQUOTE then
            match parse_string r with
            | Some (k, r1) =>
                match skip is_ws r1 with
                | EmptyString => None
                | String d r2 =>
                    if Ascii.eqb d ":" then
                      match parse_value fuel' r2 with
                      | Some (v, r3) =>
                          match skip is_ws r3 with
                          | EmptyString => None
                          | String d' r4 =>
                              if Ascii.eqb d' "," then parse_members fuel' r4 (set k v acc)
                              else if Ascii.eqb d' "}" then Some (VObj (set k v acc), r4)
                              else None
                          end
                      | None => None
                      end
                    else None
                end
            | None => None
            end
          else None
      end
  end.

(** [JSON.parse(text)]; [None] stands for the SyntaxError it throws. *)
Definition parse (text : string) : option value :=
  match parse_value (2 * String.length text + 2) text with
  | Some (v, rest) =>
      match skip is_ws rest with
      | EmptyString => Some v
      | _ => None
      end
  | None => None
  end.

Definition hex_digit (n : nat) : ascii :=
  if (n <? 10)%nat then ascii_of_nat (48 + n) else ascii_of_nat (87 + n).

(** QuoteJSONString, without the surrounding quotes. *)
Definition escape_char (c : ascii) : string :=
  let n := nat_of_ascii c in
  if Ascii.eqb c DQUOTE then String "\" (String DQUOTE EmptyString)
  else if Ascii.eqb c "\" then "\\"
  else if (n =? 8)%nat then "\b"
  else if (n =? 12)%nat then "\f"
  else if (n =? 10)%nat then "\n"
  else if (n =? 13)%nat then "\r"
  else if (n =? 9)%nat then "\t"
  else if (n <? 32)%nat then
    "\u00" +:+ String (hex_digit (n / 16)) (String (hex_digit (n mod 16)) EmptyString)
  else String c EmptyString.

Fixpoint escape (s : string) : string :=
  match s with
  | EmptyString => EmptyString
  | String c s' => escape_char c +:+ escape s'
  end.

Definition quote (s : string) : string :=
  String DQUOTE (escape s +:+ String DQUOTE EmptyString).

(** [JSON.stringify(v)]; [None] stands for its result [undefined]. *)
Fixpoint stringify (v : value) : option string :=
  match v with
  | VUndefined => None
  | VNull => Some "null"
  | VBool true => Some "true"
  | VBool false => Some "false"
  | VNum m e => Some (number_to_string m e)
  | VStr s => Some (quote s)
  | VArr items =>
      Some ("[" +:+ join "," (map (fun x => match stringify x with
                                             | Some t => t
                                             | None => "null"
                                             end) items) +:+ "]")
  | VObj fields =>
      Some ("{" +:+ join ","
              (flat_map (fun kv => match stringify (snd kv) with
                                   | Some t => [quote (fst kv) +:+ ":" +:+ t]
                                   | None => []
                                   end) fields) +:+ "}")
  end.

(** Writing aid: a JSON text with apostrophes in place of its double
    quotes. *)
Fixpoint dq (s : string) : string :=
  match s with
  | EmptyString => EmptyString
  | String c s' => String (if Ascii.eqb c "'" then DQUOTE else c) (dq s')
  end.

End Json.

(** ** Exceptions, the console and the remote model *)

Inductive exn : Type :=
| Error (message : string)
| SyntaxError (message : string)
| TypeError (message : string).

Definition exn_message (e : exn) : string :=
match e with Error m | SyntaxError m | TypeError m => m end.

Definition exn_name (e : exn) : string :=
match e with
| Error _ => "Error"
| SyntaxError _ => "SyntaxError"
| TypeError _ => "TypeError"
end.

(** [e.toString()] *)
Definition exn_to_string (e : exn) : string :=
if String.eqb (exn_message e) EmptyString then exn_name e
else exn_name e +:+ ": " +:+ exn_message e.

Inductive result (A : Type) : Type :=
| Ok (a : A)
| Throw (e : exn).
Arguments Ok {A} a.
Arguments Throw {A} e.

Record PhonologyConfig : Type := {
name : string;
description : string;
consonants : list value;
vowels : list value;
syllableStructure : string;
bannedCombinations : list value
}.

Inductive level : Type := LOG | WARN | ERROR.

Inductive arg : Type :=
| AStr (s : string)
| AExn (e : exn)
| ACfg (c : PhonologyConfig).

(** What an operation can observe and change outside its arguments: the
  lines written to the console and the prompts sent to the remote model,
  oldest first. *)
Record World : Type := {
console : list (level * list arg);
calls : list string
}.

(** What the service takes from its surroundings. The remote model answers
  a prompt with a text or fails; its answer may depend on the key of the
  client and on the prompts it has received before. The wording of the
  errors that the engine itself throws is the engine's. *)
Record Env : Type := {
stored_key : option string;
build_key : option string;
remote : string -> list string -> string -> result string;
syntax_error_text : string -> string;
type_error_text : string
}.

(** ** The monad of the service: state and exceptions *)

Definition ST (S A : Type) : Type := S -> S * result A.

Definition M : Type -> Type := ST World.

Definition ret {S A} (a : A) : ST S A := fun w => (w, Ok a).

Definition throw {S A} (e : exn) : ST S A := fun w => (w, Throw e).

Definition bind {S A B} (m : ST S A) (k : A -> ST S B) : ST S B :=
fun w => match m w with
         | (w', Ok a) => k a w'
         | (w', Throw e) => (w', Throw e)
         end.

(** [try { m } catch (e) { handler e }] *)
Definition try_catch {S A} (m : ST S A) (handler : exn -> ST S A) : ST S A :=
fun w => match m w with
         | (w', Ok a) => (w', Ok a)
         | (w', Throw e) => handler e w'
         end.

Definition lift {S A} (r : result A) : ST S A := fun w => (w, r).

Definition print (l : level) (args : list arg) : M unit :=
fun w => ({| console := console w ++ [(l, args)]; calls := calls w |}, Ok tt).

Notation "'do' x <- m ; k" := (bind m (fun x => k))
(at level 10, x name, m at level 100, k at level 200, only parsing).
Notation "'exec' m ; k" := (bind m (fun _ => k))
(at level 10, m at level 100, k at level 200, only parsing).

Definition bind_result {A B} (r : result A) (k : A -> result B) : result B :=
match r with Ok a => k a | Throw e => Throw e end.

Fixpoint map_result {A B} (f : A -> result B) (l : list A) : result (list B) :=
match l with
| [] => Ok []
| x :: l' => bind_result (f x) (fun y =>
             bind_result (map_result f l') (fun ys => Ok (y :: ys)))
end.

Definition empty_world : World := {| console := []; calls := [] |}.

(** The declarations of [../types] that the service relies on: the three
  constraint fields it reads and the text of a sound-change rule. A
  lexicon entry stays a [value], since the entries an operation returns
  are built by spreading parsed responses over the entries it was given. *)
Record ProjectConstraints : Type := {
bannedSequences : list string;
allowedGraphemes : string;
phonotacticStructure : string
}.

Record SoundChangeRule : Type := { rule : string }.

Record RepairResult : Type := {
success : bool;
repairs : list value;
message : option string
}.

Record CommandResult : Type := {
ok : bool;
modifiedCount : nat;
newLexicon : option (list value);
note : option string
}.

(** ** The service *)

Section Service.
Import Str Regex Js.

Variable env : Env.

(** [v.k] for the property names that the service reads, none of which
    is a property of a prototype: an own property or [undefined], and a
    TypeError on [null] and [undefined]. *)
Definition get (v : value) (k : string) : result value :=
  match v with
  | VUndefined | VNull => Throw (TypeError (type_error_text env))
  | VObj fields => Ok (default VUndefined (lookup k fields))
  | _ => Ok VUndefined
  end.

(** CopyDataProperties: the own enumerable properties a spread reads. *)
Definition own_props (v : value) : list (string * value) :=
  match v with
  | VObj fields => fields
  | VArr items => imap (fun i x => (str_of_nat i, x)) items
  | VStr s => imap (fun i c => (str_of_nat i, VStr (String c EmptyString)))
                (list_ascii_of_string s)
  | _ => []
  end.

(** The elements of an iterable, as an array spread reads them. *)
Definition iterate (v : value) : result (list value) :=
  match v with
  | VArr items => Ok items
  | VStr s => Ok (map (fun c => VStr (String c EmptyString)) (list_ascii_of_string s))
  | _ => Throw (TypeError (type_error_text env))
  end.

Definition JSON_parse (text : string) : result value :=
  match Json.parse text with
  | Some v => Ok v
  | None => Throw (SyntaxError (syntax_error_text env text))
  end.

Definition first_truthy (a b : option string) : string :=
  match a with
  | Some (String c s) => String c s
  | _ => match b with Some t => t | None => EmptyString end
  end.

Definition is_quote (c : ascii) : bool := Ascii.eqb c DQUOTE || Ascii.eqb c "'".

Fixpoint drop_last_quote (s : string) : string :=
  match s with
  | EmptyString => EmptyString
  | String c EmptyString => if is_quote c then EmptyString else s
  | String c s' => String c (drop_last_quote s')
  end.

(** [s.replace(re, '')] for the expression that matches one quote at the
    start and one at the end. *)
Definition strip_quotes (s : string) : string :=
  drop_last_quote
    match s with
    | String c s' => if is_quote c then s' else s
    | EmptyString => EmptyString
    end.

Definition getApiKey : string :=
  strip_quotes (trim (first_truthy (stored_key env) (build_key env))).

Definition isApiKeySet : bool := negb (String.eqb getApiKey EmptyString).

Definition setApiKey (key : string) : Env :=
  {| stored_key := Some key;
     build_key := build_key env;
     remote := remote env;
     syntax_error_text := syntax_error_text env;
     type_error_text := type_error_text env |}.

(** The client is given by the key it was built with. *)
Definition getGenAI : M string :=
  let key := getApiKey in
  if String.eqb key EmptyString then
    throw (Error "API Key not configured. Please set it in Settings.")
  else
    exec (if String.eqb key "PLACEHOLDER_API_KEY" then
            print WARN [AStr "WARNING: Using PLACEHOLDER_API_KEY. This will likely fail."]
          else
            print LOG [AStr ("Using API Key starting with: " +:+ substring key 0 4
                             +:+ "... (Length: " +:+ str_of_nat (String.length key) +:+ ")")]) ;
    ret (trim key).

(** [model.generateContent(prompt)] and the text of its response. *)
Definition generateContent (key prompt : string) : M string :=
  fun w => ({| console := console w; calls := calls w ++ [prompt] |},
            remote env key (calls w) prompt).

Definition starting : M unit :=
  print LOG [AStr ("Iniciando generaci" +:+ String (ascii_of_nat 243)
                     "n con el modelo gemma-3-27b-it...")].

(** [a || b] on strings *)
Definition or_else (a b : string) : string :=
  if String.eqb a EmptyString then b else a.

(** [items.slice(a, b)] for [0 <= a <= b] *)
Definition slice {A} (items : list A) (a b : nat) : list A :=
  take (b - a) (drop a items).

(** [for (let i = 0; i < items.length; i += size)] over
    [items.slice(i, i + size)], with the loop state [st] threaded through
    the body. The loop runs at most [length items] times. *)
Fixpoint for_chunks {W A St} (fuel size i : nat) (items : list A)
    (body : list A -> St -> ST W St) (st : St) : ST W St :=
  match fuel with
  | O => ret st
  | S fuel' =>
      if (i <? length items)%nat then
        do st' <- body (slice items i (i + size)) st ;
        for_chunks fuel' size (i + size) items body st'
      else ret st
  end.

(** [l.findIndex(p)] and [l.find(p)] for a callback that may throw. *)
Fixpoint findIndex {A} (p : A -> result bool) (l : list A) : result (option nat) :=
  match l with
  | [] => Ok None
  | x :: l' =>
      bind_result (p x) (fun b =>
        if b then Ok (Some O)
        else bind_result (findIndex p l') (fun r => Ok (option_map S r)))
  end.

Fixpoint find {A} (p : A -> result bool) (l : list A) : result (option A) :=
  match l with
  | [] => Ok None
  | x :: l' =>
      bind_result (p x) (fun b => if b then Ok (Some x) else find p l')
  end.

(** *** safeParseJSON *)

(** Steps 2 to 4 of the candidate selection. *)
Definition select_unfenced (text : string) : string :=
  let firstCurly := indexOf text "{" in
  let lastCurly := lastIndexOf text "}" in
  if negb (firstCurly =? -1) && negb (lastCurly =? -1) && (firstCurly <? lastCurly)
  then substring text firstCurly (lastCurly + 1)
  else match match_loose text with
       | Some (String c m) => String c m
       | _ => trim text
       end.

(** Step 1, then the others. *)
Definition select (text : string) : string :=
  match match_fence text with
  | Some (String c inner) => String c inner
  | _ => select_unfenced text
  end.

Definition no_start : exn :=
  Error "No valid JSON start found after aggressive cleaning.".

(** The clean-up that follows the selection. *)
Definition clean (jsonString : string) : result string :=
  let jsonString := trim jsonString in
  if negb (startsWith jsonString "{") && negb (startsWith jsonString "[") then
    let firstBracket := indexOf jsonString "[" in
    let firstBrace := indexOf jsonString "{" in
    if negb (firstBracket =? -1) && ((firstBrace =? -1) || (firstBracket <? firstBrace))
    then Ok (substringFrom jsonString firstBracket)
    else if negb (firstBrace =? -1) then Ok (substringFrom jsonString firstBrace)
    else Throw no_start
  else Ok jsonString.

Definition safeParseJSON (text : string) : M value :=
  try_catch
    (lift (bind_result (clean (select text)) JSON_parse))
    (fun e => exec print ERROR [AStr "JSON Parse Error. Raw content:"; AStr text] ;
              throw e).

(** *** safeParsePhonologyConfig *)

Definition string_or_empty (v : value) : string :=
  match v with VStr s => s | _ => EmptyString end.

Definition array_or_empty (v : value) : list value :=
  match v with VArr items => items | _ => [] end.

(** The object that the function builds from the parsed value. *)
Definition normalizePhonology (parsed : value) : result PhonologyConfig :=
  bind_result (get parsed "name") (fun n =>
  bind_result (get parsed "description") (fun d =>
  bind_result (get parsed "consonants") (fun c =>
  bind_result (get parsed "vowels") (fun v =>
  bind_result (get parsed "syllableStructure") (fun s =>
  bind_result (get parsed "bannedCombinations") (fun b =>
    Ok {| name := string_or_empty n;
          description := string_or_empty d;
          consonants := array_or_empty c;
          vowels := array_or_empty v;
          syllableStructure := string_or_empty s;
          bannedCombinations := array_or_empty b |})))))).

Definition safeParsePhonologyConfig (text : string) : M PhonologyConfig :=
  try_catch
    (do parsed <- safeParseJSON text ; lift (normalizePhonology parsed))
    (fun e => exec print ERROR [AStr "Phonology Config Parse Error. Raw content:"; AStr text] ;
              throw e).


(** *** repairLexicon *)

Definition CHUNK_SIZE_REPAIR : nat := 15.

Definition repair_rules (constraints : ProjectConstraints) : string :=
  LF +:+ "    CONSTRAINTS:" +:+ LF
  +:+ "    - Banned: " +:+ or_else (join ", " (bannedSequences constraints)) "None" +:+ LF
  +:+ "    - Graphemes (Regex): " +:+ or_else (allowedGraphemes constraints) "Any" +:+ LF
  +:+ "    - Structure: " +:+ or_else (phonotacticStructure constraints) "Free" +:+ LF
  +:+ "    ".

(** [e => ({ id: e.id, word: e.word, ipa: e.ipa })] *)
Definition triple (e : value) : result value :=
  bind_result (get e "id") (fun i =>
  bind_result (get e "word") (fun w =>
  bind_result (get e "ipa") (fun p =>
    Ok (VObj [("id", i); ("word", w); ("ipa", p)])))).

Definition repair_prompt (rules : string) (input : string) : string :=
  "You are a linguistic repair engineer. " +:+ LF +:+ LF
  +:+ "Task: Fix the following constructed words so they comply with the rules below. "
  +:+ LF +:+ "Rules:" +:+ LF +:+ rules +:+ LF
  +:+ "Keep the phonological soul of the word while fixing violations."
  +:+ LF +:+ LF +:+ "Input List (JSON):" +:+ LF +:+ input +:+ LF +:+ LF
  +:+ Json.dq "Output: Return a valid JSON array of objects with 'id', 'word', and 'ipa'.".

(** The body of the loop: one chunk. *)
Definition repair_chunk (key rules : string) (chunk allRepairs : list value)
  : M (list value) :=
  exec starting ;
  do triples <- lift (map_result triple chunk) ;
  do text <- generateContent key
               (repair_prompt rules (default "undefined" (Json.stringify (VArr triples)))) ;
  do repairedChunk <- safeParseJSON text ;
  do items <- lift (iterate repairedChunk) ;
  ret (allRepairs ++ items).

Definition repair_error_message (e : exn) : string :=
  "AI Repair Failed: " +:+ or_else (exn_message e) (exn_to_string e)
  +:+ ". Verifica tu API key en Settings.".

(** The [try] block. *)
Definition repair_body (invalidEntries : list value) (constraints : ProjectConstraints)
  : M RepairResult :=
  do key <- getGenAI ;
  do allRepairs <- for_chunks (length invalidEntries) CHUNK_SIZE_REPAIR 0
                     invalidEntries (repair_chunk key (repair_rules constraints)) [] ;
  ret {| success := true; repairs := allRepairs; message := None |}.

(** The [catch] block. *)
Definition repair_failed (e : exn) : M RepairResult :=
  exec print ERROR [AStr "Batch Repair Error:"; AExn e] ;
  ret {| success := false; repairs := [];
         message := Some (repair_error_message e) |}.

Definition repairLexicon (invalidEntries : list value) (constraints : ProjectConstraints)
  : M RepairResult :=
  if (length invalidEntries =? 0)%nat then
    ret {| success := true; repairs := []; message := None |}
  else try_catch (repair_body invalidEntries constraints) repair_failed.

(** [console.error(label, error?.message || error)] *)
Definition report (label : string) (e : exn) : M unit :=
  print ERROR [AStr label;
               if String.eqb (exn_message e) EmptyString then AExn e
               else AStr (exn_message e)].

(** *** suggestIPA *)

Definition suggest_body (word phonologyDescription : string) : M string :=
  do key <- getGenAI ;
  exec starting ;
  do text <- generateContent key
    (Json.dq "Given the following phonological rules/description: '"
     +:+ phonologyDescription
     +:+ Json.dq "', provide the most likely IPA transcription for the word '"
     +:+ word
     +:+ Json.dq "'. Return ONLY the IPA string, enclosed in forward slashes.") ;
  ret (trim text).

Definition suggest_failed (e : exn) : M string :=
  exec report "IPA Suggestion Error:" e ; ret "/error/".

Definition suggestIPA (word phonologyDescription : string) : M string :=
  try_catch (suggest_body word phonologyDescription) suggest_failed.

(** *** generateWords *)

Definition global_rules (projectRules : option ProjectConstraints) : string :=
  match projectRules with
  | None => EmptyString
  | Some r =>
      let banned :=
        if (0 <? length (bannedSequences r))%nat
        then "Banned sequences: " +:+ join ", " (bannedSequences r) +:+ "."
        else EmptyString in
      let allowed :=
        if String.eqb (allowedGraphemes r) EmptyString then EmptyString
        else "Allowed characters (Regex): [" +:+ allowedGraphemes r +:+ "]." in
      let structure :=
        if String.eqb (phonotacticStructure r) EmptyString then EmptyString
        else "Must match Regex Structure: " +:+ phonotacticStructure r in
      "STRICT RULES: " +:+ banned +:+ " " +:+ allowed +:+ " " +:+ structure
  end.

Definition no_words : exn :=
  Error ("No words could be generated. This might be due to overly restrictive "
         +:+ "constraints or an issue with the AI model. Please adjust your "
         +:+ "constraints and try again.").

Definition generate_body (count : Z) (constraints vibe : string)
    (projectRules : option ProjectConstraints) : M (list value) :=
  do key <- getGenAI ;
  let safeCount := Z.min count 15 in
  let globalRulesPrompt := global_rules projectRules in
  exec starting ;
  do text <- generateContent key
    ("Generate " +:+ to_string (of_Z safeCount)
     +:+ " unique constructed words. Vibe: " +:+ vibe +:+ ". "
     +:+ globalRulesPrompt
     +:+ Json.dq ". Return JSON array with 'word' and 'ipa'.") ;
  do generatedWords <- safeParseJSON text ;
  match generatedWords with
  | VArr (w :: ws) => ret (w :: ws)
  | _ => throw no_words
  end.

(** The error that the [catch] block throws in place of [e]. *)
Definition enriched (e : exn) : exn :=
  Error ("Error generating words: "
         +:+ or_else (exn_message e) "Verifica tu API key en Settings").

Definition generate_failed (e : exn) : M (list value) :=
  exec report "Generation Error:" e ; throw (enriched e).

Definition generateWords (count : Z) (constraints vibe : string)
    (projectRules : option ProjectConstraints) : M (list value) :=
  try_catch (generate_body count constraints vibe projectRules) generate_failed.

(** *** evolveWords *)

Definition CHUNK_SIZE_EVOLVE : nat := 10.

Definition evolve_prompt (rules : list SoundChangeRule) (words : list value) : string :=
  "Apply sound changes: " +:+ join LF (map rule rules)
  +:+ ". Words: " +:+ join ", " (map join_item words)
  +:+ Json.dq ". Return JSON array of objects with 'originalWord', 'newWord', 'newIPA', 'changeLog'.".

(** [w => w.word === res.originalWord] *)
Definition is_original (res w : value) : result bool :=
  bind_result (get w "word") (fun ww =>
  bind_result (get res "originalWord") (fun o =>
    Ok (strict_eq ww o))).

(** The properties of the object that replaces [current] for the record
    [res]. *)
Definition evolved_fields (current res : value) : result (list (string * value)) :=
  bind_result (get res "newWord") (fun newWord =>
  bind_result (get res "newIPA") (fun newIPA =>
  bind_result (get current "etymology") (fun etymology =>
  bind_result (get res "changeLog") (fun changeLog =>
    Ok (set "etymology"
          (VStr ((if truthy etymology then to_string etymology
                  else EmptyString)
                 +:+ "; " +:+ to_string changeLog))
          (set "ipa" newIPA
             (set "word" newWord (own_props current)))))))).

Definition evolved_entry (current res : value) : result value :=
  bind_result (evolved_fields current res) (fun fields => Ok (VObj fields)).

(** The callback of [results.forEach]. *)
Definition evolve_one (evolvedLexicon : list value) (res : value) : result (list value) :=
  bind_result (findIndex (is_original res) evolvedLexicon) (fun index =>
    match index with
    | Some i =>
        bind_result (evolved_entry (default VUndefined (evolvedLexicon !! i)) res)
          (fun entry => Ok (<[i := entry]> evolvedLexicon))
    | None => Ok evolvedLexicon
    end).

Fixpoint forEach {A St} (f : St -> A -> result St) (l : list A) (st : St) : result St :=
  match l with
  | [] => Ok st
  | x :: l' => bind_result (f st x) (forEach f l')
  end.

(** The body of the loop: one chunk. *)
Definition evolve_chunk (key : string) (rules : list SoundChangeRule)
    (chunk evolvedLexicon : list value) : M (list value) :=
  exec starting ;
  do ws <- lift (map_result (fun w => get w "word") chunk) ;
  do text <- generateContent key (evolve_prompt rules ws) ;
  do results <- safeParseJSON text ;
  match results with
  | VArr rs => lift (forEach evolve_one rs evolvedLexicon)
  | VUndefined | VNull | VBool _ | VNum _ _ | VStr _ | VObj _ =>
      throw (TypeError (type_error_text env))
  end.

(** The [try] block; [evolvedLexicon] starts as a copy of [words]. *)
Definition evolve_body (words : list value) (rules : list SoundChangeRule)
  : M (list value) :=
  let evolvedLexicon := words in
  do key <- getGenAI ;
  for_chunks (length words) CHUNK_SIZE_EVOLVE 0 words
    (evolve_chunk key rules) evolvedLexicon.

Definition evolve_failed (words : list value) (e : exn) : M (list value) :=
  exec report "Evolution Error:" e ; ret words.

Definition evolveWords (words : list value) (rules : list SoundChangeRule)
  : M (list value) :=
  if (length words =? 0)%nat || (length rules =? 0)%nat then ret words
  else try_catch (evolve_body words rules) (evolve_failed words).

(** *** processCommandAI *)

(** [m => m.id === entry.id] *)
Definition same_id (entry m : value) : result bool :=
  bind_result (get m "id") (fun mid =>
  bind_result (get entry "id") (fun eid =>
    Ok (strict_eq mid eid))).

(** The callback of [lexicon.map], for [mods] an array. *)
Definition apply_mods (mods : list value) (entry : value) : result value :=
  bind_result (find (same_id entry) mods)
    (fun found =>
       match found with
       | Some m =>
           if truthy m then Ok (VObj (spread_into (own_props entry) (own_props m)))
           else Ok entry
       | None => Ok entry
       end).

Definition command_prompt (instruction : string) (constraints : ProjectConstraints)
  : string :=
  Json.dq "Apply bulk changes to lexicon. Instruction: '" +:+ instruction
  +:+ Json.dq "'. Constraints: " +:+ allowedGraphemes constraints
  +:+ Json.dq ". Return JSON object with 'modifications' array containing objects with 'id' and changed fields.".

(** What follows the parse: the merge of the parsed response into the
    lexicon. With a lexicon that is not empty, a [mods] that is no array
    raises the TypeError of the missing [find] at the first entry. *)
Definition merge_mods (lexicon : list value) (resultData : value) : result CommandResult :=
  bind_result (get resultData "modifications") (fun m =>
    match (if truthy m then m else VArr []) with
    | VArr mods =>
        bind_result (map_result (apply_mods mods) lexicon) (fun entries =>
          Ok {| ok := true; modifiedCount := length mods;
                newLexicon := Some entries; note := None |})
    | VUndefined | VNull | VBool _ | VNum _ _ | VStr _ | VObj _ =>
        Throw (TypeError (type_error_text env))
    end).

Definition command_body (lexicon : list value) (instruction : string)
    (constraints : ProjectConstraints) : M CommandResult :=
  do key <- getGenAI ;
  exec starting ;
  do text <- generateContent key (command_prompt instruction constraints) ;
  do resultData <- safeParseJSON text ;
  lift (merge_mods lexicon resultData).

Definition command_failed (e : exn) : M CommandResult :=
  exec report "CommandAI Error:" e ;
  ret {| ok := false; modifiedCount := 0; newLexicon := None;
         note := Some (exn_message e) |}.

Definition processCommandAI (lexicon : list value) (instruction : string)
    (constraints : ProjectConstraints) : M CommandResult :=
  if (length lexicon =? 0)%nat then
    ret {| ok := false; modifiedCount := 0; newLexicon := None; note := None |}
  else try_catch (command_body lexicon instruction constraints) command_failed.

(** *** analyzeSyntax *)

(** [morphology] is [VUndefined] when the argument is left out. *)
Definition analyze_body (sentence grammarRules : string) (morphology : value)
  : M string :=
  do key <- getGenAI ;
  exec starting ;
  generateContent key
    (Json.dq "Analyze sentence '" +:+ sentence +:+ Json.dq "' using Grammar: "
     +:+ grammarRules +:+ ". Morphology: "
     +:+ default "undefined" (Json.stringify morphology)
     +:+ ". Provide gloss and AST.").

Definition analyze_failed (e : exn) : M string :=
  exec report "Syntax Analysis Error:" e ;
  ret "Error analyzing syntax. Verifica tu API key.".

Definition analyzeSyntax (sentence grammarRules : string) (morphology : value)
  : M string :=
  try_catch (analyze_body sentence grammarRules morphology) analyze_failed.

(** *** generatePhonology *)

Definition phonology_prompt (description : string) : string :=
  Json.dq "Create phonology from description: '" +:+ description
  +:+ Json.dq "'. Your response MUST be a JSON object that strictly adheres to the PhonologyConfig TypeScript interface, including all fields. If a field has no data, use an empty array for lists (e.g., `consonants`, `vowels`, `bannedCombinations`) or an empty string for strings (e.g., `name`, `description`, `syllableStructure`). DO NOT include any conversational text, markdown fences (e.g., ```json), or extra characters, just the raw JSON object. Example of a complete PhonologyConfig JSON object: {'name':'', 'description':'', 'consonants':[], 'vowels':[], 'syllableStructure':'', 'bannedCombinations':[]}".

Definition default_phonology : PhonologyConfig :=
  {| name := "Default Phonology";
     description := "Failed to generate phonology. Please check your API key and prompt.";
     consonants := [];
     vowels := [];
     syllableStructure := "CV";
     bannedCombinations := [] |}.

Definition phonology_body (description : string) : M PhonologyConfig :=
  do key <- getGenAI ;
  exec starting ;
  do textResponse <- generateContent key (phonology_prompt description) ;
  exec print LOG [AStr "Raw AI response for phonology:"; AStr textResponse] ;
  do parsedPhonology <- safeParsePhonologyConfig textResponse ;
  exec print LOG [AStr "Parsed phonology from AI:"; ACfg parsedPhonology] ;
  ret parsedPhonology.

Definition phonology_failed (e : exn) : M PhonologyConfig :=
  exec report "Phonology Generation Error:" e ;
  ret default_phonology.

Definition generatePhonology (description : string) : M PhonologyConfig :=
  try_catch (phonology_body description) phonology_failed.

End Service.

(** ** The same two operations on a heap

  evolveWords and processCommandAI with the arrays and the entries as
  references into a heap, to tell a new array from the array of the
  caller and a new object from an entry of the caller. A property value
  stays a [value]: the two operations never write inside one. *)

Module Heap.

Inductive cell : Type :=
| Arr (elems : list nat)
| Obj (fields : list (string * value)).

Abbreviation heap := (list cell).

Definition HM : Type -> Type := ST (World * heap).

(** The value at a reference to an entry. *)
Definition object_at (h : heap) (l : nat) : value :=
  match h !! l with
  | Some (Obj fields) => VObj fields
  | _ => VUndefined
  end.

(** The references that an array holds. *)
Definition elems_at (h : heap) (l : nat) : list nat :=
  match h !! l with
  | Some (Arr elems) => elems
  | _ => []
  end.

(** The lexicon that an array denotes. *)
Definition snapshot (h : heap) (l : nat) : list value :=
  map (object_at h) (elems_at h l).

Definition in_world {A} (m : M A) : HM A :=
  fun s => let '(w', r) := m (fst s) in ((w', snd s), r).

Definition read : HM heap := fun s => (s, Ok (snd s)).

(** A new cell, at the first free reference. *)
Definition alloc (c : cell) : HM nat :=
  fun s => ((fst s, snd s ++ [c]), Ok (length (snd s))).

(** [array[i] = l] *)
Definition store (array i l : nat) : HM unit :=
  fun s => ((fst s, <[array := Arr (<[i := l]> (elems_at (snd s) array))]> (snd s)), Ok tt).

Fixpoint forEachH {A} (f : A -> HM unit) (l : list A) : HM unit :=
  match l with
  | [] => ret tt
  | x :: l' => exec f x ; forEachH f l'
  end.

Fixpoint mapH {A B} (f : A -> HM B) (l : list A) : HM (list B) :=
  match l with
  | [] => ret []
  | x :: l' => do y <- f x ; do ys <- mapH f l' ; ret (y :: ys)
  end.

Record CommandResultH : Type := {
  okH : bool;
  modifiedCountH : nat;
  newLexiconH : option nat;
  noteH : option string
}.

Section Operations.

Variable env : Env.

(** The callback of [results.forEach], on the array [evolvedLexicon]. *)
Definition evolve_oneH (evolvedLexicon : nat) (res : value) : HM unit :=
  do h <- read ;
  let elems := elems_at h evolvedLexicon in
  do index <- lift (findIndex (fun l => is_original env res (object_at h l)) elems) ;
  match index with
  | Some i =>
      do fields <- lift (evolved_fields env (object_at h (default O (elems !! i))) res) ;
      do l <- alloc (Obj fields) ;
      store evolvedLexicon i l
  | None => ret tt
  end.

(** One chunk. The array that [slice] makes is not kept. *)
Definition evolve_chunkH (key : string) (rules : list SoundChangeRule)
    (evolvedLexicon : nat) (chunk : list nat) (st : unit) : HM unit :=
  exec in_world starting ;
  do h <- read ;
  do ws <- lift (map_result (fun l => get env (object_at h l) "word") chunk) ;
  do text <- in_world (generateContent env key (evolve_prompt rules ws)) ;
  do results <- in_world (safeParseJSON env text) ;
  match results with
  | VArr rs => forEachH (evolve_oneH evolvedLexicon) rs
  | VUndefined | VNull | VBool _ | VNum _ _ | VStr _ | VObj _ =>
      throw (TypeError (type_error_text env))
  end.

Definition evolve_bodyH (words : list nat) (rules : list SoundChangeRule)
    (evolvedLexicon : nat) : HM nat :=
  do key <- in_world (getGenAI env) ;
  exec for_chunks (length words) CHUNK_SIZE_EVOLVE 0 words
         (evolve_chunkH key rules evolvedLexicon) tt ;
  ret evolvedLexicon.

(** [words] is the reference of the array of the caller; the result is
    the reference of the array that is returned. *)
Definition evolveWordsH (words : nat) (rules : list SoundChangeRule) : HM nat :=
  do h <- read ;
  let elems := elems_at h words in
  if (length elems =? 0)%nat || (length rules =? 0)%nat then ret words
  else
    do evolvedLexicon <- alloc (Arr elems) ;
    try_catch (evolve_bodyH elems rules evolvedLexicon)
      (fun e => exec in_world (report "Evolution Error:" e) ; ret words).

(** The callback of [lexicon.map]: the reference of the entry, or of a
    new object. *)
Definition apply_modsH (mods : list value) (l : nat) : HM nat :=
  do h <- read ;
  let entry := object_at h l in
  do found <- lift (find (same_id env entry) mods) ;
  match found with
  | Some m =>
      if Js.truthy m
      then alloc (Obj (Js.spread_into (own_props entry) (own_props m)))
      else ret l
  | None => ret l
  end.

Definition merge_modsH (lexicon : list nat) (resultData : value) : HM CommandResultH :=
  do m <- lift (get env resultData "modifications") ;
  match (if Js.truthy m then m else VArr []) with
  | VArr mods =>
      do entries <- mapH (apply_modsH mods) lexicon ;
      do newLexicon <- alloc (Arr entries) ;
      ret {| okH := true; modifiedCountH := length mods;
             newLexiconH := Some newLexicon; noteH := None |}
  | VUndefined | VNull | VBool _ | VNum _ _ | VStr _ | VObj _ =>
      throw (TypeError (type_error_text env))
  end.

Definition command_bodyH (lexicon : list nat) (instruction : string)
    (constraints : ProjectConstraints) : HM CommandResultH :=
  do key <- in_world (getGenAI env) ;
  exec in_world starting ;
  do text <- in_world (generateContent env key (command_prompt instruction constraints)) ;
  do resultData <- in_world (safeParseJSON env text) ;
  merge_modsH lexicon resultData.

Definition processCommandAIH (lexicon : nat) (instruction : string)
    (constraints : ProjectConstraints) : HM CommandResultH :=
  do h <- read ;
  let elems := elems_at h lexicon in
  if (length elems =? 0)%nat then
    ret {| okH := false; modifiedCountH := 0; newLexiconH := None; noteH := None |}
  else
    try_catch (command_bodyH elems instruction constraints)
      (fun e =>
         exec in_world (report "CommandAI Error:" e) ;
         ret {| okH := false; modifiedCountH := 0; newLexiconH := None;
                noteH := Some (exn_message e) |}).

End Operations.

End Heap.

(** ** The words of the specification *)

Module Spec.
Import Str Regex.

(** Every character of [s] is white space. *)
Definition blank (s : string) : Prop := forall c, occurs c s -> is_space c = true.

(** [inner] is the content of the first fenced block of [text] that is
    tagged as JSON: the opening marker is the leftmost one, and the
    closing marker is the first one after it. *)
Definition fenced (text inner : string) : Prop :=
  exists pre post,
    text = pre +:+ fence_open +:+ inner +:+ fence_close +:+ post /\
    (forall p q, text = p +:+ fence_open +:+ q -> len pre <= len p) /\
    (forall p q, inner +:+ fence_close +:+ post = p +:+ fence_close +:+ q ->
                 len inner <= len p).

(** [mid] lies between the first opening brace of [text] and its last
    closing brace, the latter coming after the former. *)
Definition brace_pair (text mid : string) : Prop :=
  exists pre post,
    text = pre +:+ String "{" mid +:+ String "}" post /\
    ~ occurs "{" pre /\ ~ occurs "}" post.

(** The error kind that the specification calls MalformedResponse: no
    start of a JSON text was found, or the candidate did not parse. *)
Definition MalformedResponse (e : exn) : Prop :=
  e = Error "No valid JSON start found after aggressive cleaning."
  \/ exists m, e = SyntaxError m.

(** The error kind that the specification calls ConfigurationError. *)
Definition ConfigurationError : exn :=
  Error "API Key not configured. Please set it in Settings.".

(** [r] is what remains of [s] after some prefix. *)
Definition rest_of (r s : string) : Prop := exists b, s = b +:+ r.

(** The line feed. *)
Definition NL : ascii := ascii_of_nat 10.

(** The world after the diagnostic line of safeParseJSON. *)
Definition logged (text : string) (w : World) : World :=
  {| console := console w ++ [(ERROR, [AStr "JSON Parse Error. Raw content:"; AStr text])];
     calls := calls w |}.

(** The own property [k] of [v], or [undefined]. *)
Definition prop (v : value) (k : string) : value :=
  match v with
  | VObj fields => default VUndefined (Js.lookup k fields)
  | _ => VUndefined
  end.

(** [s] is [x] if [x] is a string and is empty otherwise. *)
Definition keeps_string (x : value) (s : string) : Prop :=
  (forall t, x = VStr t -> s = t) /\ ((forall t, x <> VStr t) -> s = EmptyString).

(** [l] is [x] if [x] is an array and is empty otherwise. *)
Definition keeps_array (x : value) (l : list value) : Prop :=
  (forall items, x = VArr items -> l = items) /\ ((forall items, x <> VArr items) -> l = []).

Definition empty_phonology : PhonologyConfig :=
  {| name := EmptyString; description := EmptyString; consonants := [];
     vowels := []; syllableStructure := EmptyString; bannedCombinations := [] |}.

(** The contract of 4.1 read literally: the candidates of the four
    heuristics in their order, each one cleaned and parsed, and the first
    one that parses is the result. *)
Definition candidates (text : string) : list string :=
  match match_fence text with Some inner => [inner] | None => [] end
  ++ (let i := indexOf text "{" in
      let j := lastIndexOf text "}" in
      if negb (i =? -1) && negb (j =? -1) && (i <? j)
      then [substring text i (j + 1)] else [])
  ++ match match_loose text with Some m => [m] | None => [] end
  ++ [trim text].

Definition attempt (candidate : string) : option value :=
  match clean candidate with
  | Ok s => Json.parse s
  | Throw _ => None
  end.

Fixpoint first_parseable (cs : list string) : option value :=
  match cs with
  | [] => None
  | c :: cs' => match attempt c with
                | Some v => Some v
                | None => first_parseable cs'
                end
  end.

Definition extractJSON_spec (text : string) : option value :=
  first_parseable (candidates text).

(** The contiguous chunks that the loop of [for_chunks] visits. *)
Fixpoint chunks_from {A} (fuel size i : nat) (items : list A) : list (list A) :=
  match fuel with
  | O => []
  | S fuel' =>
      if (i <? length items)%nat
      then slice items i (i + size) :: chunks_from fuel' size (i + size) items
      else []
  end.

Definition chunks {A} (size : nat) (items : list A) : list (list A) :=
  chunks_from (length items) size 0 items.

(** The loop body run over a list of chunks, one after the other. *)
Fixpoint run_chunks {W A St} (body : list A -> St -> ST W St)
    (cs : list (list A)) (st : St) : ST W St :=
  match cs with
  | [] => ret st
  | c :: cs' => do st' <- body c st ; run_chunks body cs' st'
  end.

(** The value that safeParseJSON extracts from a text, the console left
    aside. *)
Definition extract (env : Env) (text : string) : result value :=
  bind_result (clean (select text)) (JSON_parse env).

(** One round of the repair loop seen from outside: after the prompts
    [hist], the chunk is sent as the prompt [p] and the elements of the
    parsed answer are [a]. *)
Definition repair_round (env : Env) (key rules : string) (hist : list string)
    (chunk : list value) (p : string) (a : list value) : Prop :=
  exists triples text v,
    map_result (triple env) chunk = Ok triples
    /\ p = repair_prompt rules (default "undefined" (Json.stringify (VArr triples)))
    /\ remote env key hist p = Ok text
    /\ extract env text = Ok v
    /\ iterate env v = Ok a.

(** One round of the evolution loop: the answer is the array [rs]. *)
Definition evolve_round (env : Env) (key : string) (rules : list SoundChangeRule)
    (hist : list string) (chunk : list value) (p : string) (rs : list value) : Prop :=
  exists ws text,
    map_result (fun w => get env w "word") chunk = Ok ws
    /\ p = evolve_prompt rules ws
    /\ remote env key hist p = Ok text
    /\ extract env text = Ok (VArr rs).

(** Rounds in sequence: one prompt and one answer for each chunk, in the
    order of the chunks, each round seeing the prompts of the rounds
    before it. *)
Inductive rounds {A B} (round : list string -> A -> string -> B -> Prop)
  : list string -> list A -> list string -> list B -> Prop :=
| rounds_nil hist : rounds round hist [] [] []
| rounds_cons hist c cs p ps a answers :
    round hist c p a ->
    rounds round (hist ++ [p]) cs ps answers ->
    rounds round hist (c :: cs) (p :: ps) (a :: answers).

(** The chunk cannot be answered: its prompt can be built, and either the
    remote call fails or the text it returns does not parse. *)
Definition repair_fault (env : Env) (key rules : string) (hist : list string)
    (chunk : list value) (p : string) (e : exn) : Prop :=
  exists triples,
    map_result (triple env) chunk = Ok triples
    /\ p = repair_prompt rules (default "undefined" (Json.stringify (VArr triples)))
    /\ (remote env key hist p = Throw e
        \/ exists text, remote env key hist p = Ok text /\ extract env text = Throw e).

Definition evolve_fault (env : Env) (key : string) (rules : list SoundChangeRule)
    (hist : list string) (chunk : list value) (p : string) (e : exn) : Prop :=
  exists ws,
    map_result (fun w => get env w "word") chunk = Ok ws
    /\ p = evolve_prompt rules ws
    /\ (remote env key hist p = Throw e
        \/ exists text, remote env key hist p = Ok text /\ extract env text = Throw e).

(** Every element is an object, as the type of a lexicon has it. *)
Definition objects (l : list value) : Prop := Forall (fun v => exists f, v = VObj f) l.

(** The try block [m] throws [e] after sending [n] prompts. *)
Definition thrown {A} (m : M A) (w : World) (e : exn) (n : nat) : Prop :=
  exists w1, m w = (w1, Throw e) /\ length (calls w1) = (length (calls w) + n)%nat.

(** What each operation makes of the error [e] raised inside its try
    block, [n] being the number of prompts that were sent: a value of
    its return type for all of them but generateWords, which throws the
    enriched error. *)
Definition converted (env : Env) (w : World) (e : exn) (n : nat) : Prop :=
  (forall entries constraints,
      entries <> [] -> objects entries ->
      exists w',
        repairLexicon env entries constraints w
        = (w', Ok {| success := false; repairs := [];
                     message := Some (repair_error_message e) |})
        /\ length (calls w') = (length (calls w) + n)%nat)
  /\ (forall word phonologyDescription,
        exists w',
          suggestIPA env word phonologyDescription w = (w', Ok "/error/")
          /\ length (calls w') = (length (calls w) + n)%nat)
  /\ (forall count constraints vibe projectRules,
        exists w',
          generateWords env count constraints vibe projectRules w
          = (w', Throw (enriched e))
          /\ length (calls w') = (length (calls w) + n)%nat)
  /\ (forall words rules,
        words <> [] -> rules <> [] -> objects words ->
        exists w',
          evolveWords env words rules w = (w', Ok words)
          /\ length (calls w') = (length (calls w) + n)%nat)
  /\ (forall lexicon instruction constraints,
        lexicon <> [] ->
        exists w',
          processCommandAI env lexicon instruction constraints w
          = (w', Ok {| ok := false; modifiedCount := 0; newLexicon := None;
                       note := Some (exn_message e) |})
          /\ length (calls w') = (length (calls w) + n)%nat)
  /\ (forall sentence grammarRules morphology,
        exists w',
          analyzeSyntax env sentence grammarRules morphology w
          = (w', Ok "Error analyzing syntax. Verifica tu API key.")
          /\ length (calls w') = (length (calls w) + n)%nat)
  /\ (forall description,
        exists w',
          generatePhonology env description w = (w', Ok default_phonology)
          /\ length (calls w') = (length (calls w) + n)%nat).

(** The merge rule of 4.3 for evolution, read literally: a record is
    matched to the entries of the caller by their original word text,
    the first record that names the word of an entry replaces it, and an
    entry that no record names passes through. *)
Definition merge_by_original_word (env : Env) (words records : list value)
  : result (list value) :=
  map_result
    (fun entry =>
       bind_result (find (fun res => is_original env res entry) records)
         (fun found =>
            match found with
            | Some res => evolved_entry env entry res
            | None => Ok entry
            end))
    words.

(** [m] keeps the property [I] of the state, whatever it returns. *)
Definition preserves {S A} (I : S -> Prop) (m : ST S A) : Prop :=
  forall s s' r, I s -> m s = (s', r) -> I s'.

(** A reference of the result is the reference of the caller at the
    same place, or one that did not exist in the heap [h0]. *)
Definition kept_or_new (h0 : Heap.heap) (old new : nat) : Prop :=
  new = old \/ (length h0 <= new)%nat.

(** The state of a call of evolveWords on the heap [h0]: the cells of
    [h0] are as they were, and the working copy, a cell that [h0] does
    not have, holds at each place the entry of the caller or a new
    object. *)
Definition working_copy (h0 : Heap.heap) (elems : list nat) (evolved : nat)
    (s : World * Heap.heap) : Prop :=
  h0 `prefix_of` snd s
  /\ (length h0 <= evolved)%nat
  /\ exists current, snd s !! evolved = Some (Heap.Arr current)
                     /\ Forall2 (kept_or_new h0) elems current.

(** The lexicon [lex] that evolveWords has reached on values, as the
    heap [h] holds it in the working copy: the entries of the array are
    cells of the heap and denote the entries of [lex]. *)
Definition denotes (h0 : Heap.heap) (evolved : nat) (lex : list value) (h : Heap.heap) : Prop :=
  h0 `prefix_of` h
  /\ (length h0 <= evolved)%nat
  /\ exists current, h !! evolved = Some (Heap.Arr current)
                     /\ Forall (fun l => (l < length h)%nat) current
                     /\ map (Heap.object_at h) current = lex.

(** The result of processCommandAI that a result on the heap denotes. *)
Definition command_result_at (h : Heap.heap) (r : Heap.CommandResultH) : CommandResult :=
  {| ok := Heap.okH r;
     modifiedCount := Heap.modifiedCountH r;
     newLexicon := option_map (Heap.snapshot h) (Heap.newLexiconH r);
     note := Heap.noteH r |}.

(** What section 5 says of evolveWords, at one call: it returns, and
    the array it returns is one that the heap of the caller did not
    have. *)
Definition returns_new_collection (env : Env) (words : nat)
    (rules : list SoundChangeRule) (w : World) (h : Heap.heap) : Prop :=
  exists s' r, Heap.evolveWordsH env words rules (w, h) = (s', Ok r) /\ h !! r = None.

End Spec.

(** ** Inputs of the examples *)

Module Demo.
Import Str Regex Js.

Definition fence (t : string) : string := fence_open +:+ t +:+ fence_close.

(** An environment with a key, whose remote model is [answer]. *)
Definition env_of (answer : list string -> string -> result string) : Env :=
  {| stored_key := Some "AIzaSyExample";
     build_key := None;
     remote := fun _ => answer;
     syntax_error_text := fun _ => "Unexpected token";
     type_error_text := "not iterable" |}.

(** A remote model that always answers [t]. *)
Definition env_saying (t : string) : Env := env_of (fun _ _ => Ok t).

(** No key anywhere. *)
Definition env_no_key : Env :=
  {| stored_key := None;
     build_key := Some "  ";
     remote := fun _ _ _ => Ok "unreachable";
     syntax_error_text := fun _ => "Unexpected token";
     type_error_text := "not iterable" |}.

Definition prose : string := "I am sorry, I cannot help with that.".

Definition junk_then_object : string :=
  fence "not json" +:+ LF +:+ Json.dq "{'a':1}".

Definition empty_fence_then_object : string :=
  fence EmptyString +:+ " " +:+ Json.dq "{'a':1}".

Definition fenced_array : string :=
  "Here you go:" +:+ LF +:+ fence (Json.dq "[{'a':1},{'b':2}]") +:+ LF +:+ "Done.".

Definition bare_object : string := Json.dq " {'name':'Elvish','vowels':['a','e']} ".

Definition entry (n : nat) : value :=
  VObj [("id", VStr ("w" +:+ str_of_nat n));
        ("word", VStr ("ka" +:+ str_of_nat n));
        ("ipa", VStr ("ka" +:+ str_of_nat n));
        ("etymology", VStr "root")].

Definition lexicon (n : nat) : list value := map entry (seq 0 n).

Definition constraints0 : ProjectConstraints :=
  {| bannedSequences := ["kk"]; allowedGraphemes := "a-z";
     phonotacticStructure := EmptyString |}.

(** What the prompt of a repair round carries between its two markers:
    the JSON text of the chunk. *)
Definition input_list (prompt : string) : string :=
  let a := indexOf prompt ("Input List (JSON):" +:+ LF) in
  let b := indexOf prompt (LF +:+ LF +:+ "Output:") in
  substring prompt (a + 19) b.


(** A remote model that echoes the list it is sent, as bare JSON. *)
Definition echo_bare : Env := env_of (fun _ p => Ok (input_list p)).

(** A remote model whose call of index [n] fails with [e]. *)
Definition failing_at (n : nat) (e : exn) (answer : string -> string) : Env :=
  env_of (fun hist p => if (length hist =? n)%nat then Throw e else Ok (answer p)).

Definition network_down : exn := Error "fetch failed".

Definition rules0 : list SoundChangeRule := [{| rule := "a > e / _#" |}].

(** The remote fails at its second call and echoes otherwise. *)
Definition second_call_fails : Env :=
  failing_at 1 network_down (fun p => fence (input_list p)).

(** The remote fails at its second call and answers [one_record]
    otherwise. *)
Definition second_call_fails_evolving : Env :=
  failing_at 1 network_down
    (fun _ => fence (Json.dq "[{'originalWord':'ka0','newWord':'ke0','newIPA':'ke0','changeLog':'a>e'}]")).

Definition default_json : string :=
  Json.dq "{'name':'Default Phonology','description':'Failed to generate phonology. Please check your API key and prompt.','consonants':[],'vowels':[],'syllableStructure':'CV','bannedCombinations':[]}".

(** The remote always fails. *)
Definition remote_down : Env := env_of (fun _ _ => Throw network_down).

(** Two words in a chain shift: a becomes b, b becomes c. *)
Definition chain_words : list value :=
  [VObj [("id", VStr "1"); ("word", VStr "a"); ("ipa", VStr "a")];
   VObj [("id", VStr "2"); ("word", VStr "b"); ("ipa", VStr "b")]].

Definition chain_records : list value :=
  [VObj [("originalWord", VStr "a"); ("newWord", VStr "b");
         ("newIPA", VStr "b"); ("changeLog", VStr "a>b")];
   VObj [("originalWord", VStr "b"); ("newWord", VStr "c");
         ("newIPA", VStr "c"); ("changeLog", VStr "b>c")]].

Definition chain_answer : string :=
  fence (Json.dq "[{'originalWord':'a','newWord':'b','newIPA':'b','changeLog':'a>b'},{'originalWord':'b','newWord':'c','newIPA':'c','changeLog':'b>c'}]").

Definition foo_bar : list value :=
  [VObj [("id", VStr "a"); ("word", VStr "foo")];
   VObj [("id", VStr "b"); ("word", VStr "bar")]].

(** A heap with two entries and the array of the caller, at reference 2. *)
Definition heap0 : Heap.heap :=
  [Heap.Obj [("id", VStr "1"); ("word", VStr "a"); ("ipa", VStr "a")];
   Heap.Obj [("id", VStr "2"); ("word", VStr "b"); ("ipa", VStr "b")];
   Heap.Arr [0; 1]%nat].

Definition triples_of (env : Env) (chunk : list value) : list value :=
  match map_result (triple env) chunk with Ok t => t | Throw _ => [] end.

(** The prompt of the repair round of [chunk]. *)
Definition repair_prompt_of (env : Env) (constraints : ProjectConstraints)
    (chunk : list value) : string :=
  repair_prompt (repair_rules constraints)
    (default "undefined" (Json.stringify (VArr (triples_of env chunk)))).

(** The prompt of the evolution round of [chunk]. *)
Definition evolve_prompt_of (env : Env) (rules : list SoundChangeRule)
    (chunk : list value) : string :=
  evolve_prompt rules
    match map_result (fun w => get env w "word") chunk with
    | Ok ws => ws
    | Throw _ => []
    end.

Definition one_record_parsed : list value :=
  [VObj [("originalWord", VStr "ka0"); ("newWord", VStr "ke0");
         ("newIPA", VStr "ke0"); ("changeLog", VStr "a>e")]].

End Demo.


(** ** Words for the properties of the operations *)

Module Props.
Import Str Regex Js Spec.

(** [c] may stand at an end of a key that getApiKey leaves as it is. *)
Definition edge (c : ascii) : Prop := is_space c = false /\ is_quote c = false.

(** A key with no white space and no quote at either end. *)
Definition plain_key (k : string) : Prop :=
  (exists c, k = String c EmptyString /\ edge c)
  \/ (exists c m d, k = String c (m +:+ String d EmptyString) /\ edge c /\ edge d).

(** The world after the two diagnostic lines of a failed
    safeParsePhonologyConfig. *)
Definition logged_twice (text : string) (w : World) : World :=
  {| console := console w
                ++ [(ERROR, [AStr "JSON Parse Error. Raw content:"; AStr text]);
                    (ERROR, [AStr "Phonology Config Parse Error. Raw content:"; AStr text])];
     calls := calls w |}.

(** The prompt of suggestIPA. *)
Definition suggest_prompt (word phonologyDescription : string) : string :=
  Json.dq "Given the following phonological rules/description: '"
  +:+ phonologyDescription
  +:+ Json.dq "', provide the most likely IPA transcription for the word '"
  +:+ word
  +:+ Json.dq "'. Return ONLY the IPA string, enclosed in forward slashes.".

(** The prompt of analyzeSyntax. *)
Definition analyze_prompt (sentence grammarRules : string) (morphology : value) : string :=
  Json.dq "Analyze sentence '" +:+ sentence +:+ Json.dq "' using Grammar: "
  +:+ grammarRules +:+ ". Morphology: "
  +:+ default "undefined" (Json.stringify morphology)
  +:+ ". Provide gloss and AST.".

(** The prompt of generateWords for a count that is already capped. *)
Definition generate_prompt (safeCount : Z) (vibe : string)
    (projectRules : option ProjectConstraints) : string :=
  "Generate " +:+ to_string (of_Z safeCount)
  +:+ " unique constructed words. Vibe: " +:+ vibe +:+ ". "
  +:+ global_rules projectRules
  +:+ Json.dq ". Return JSON array with 'word' and 'ipa'.".

(** From the world [w] no operation sends a prompt, whatever its
    input. *)
Definition sends_nothing (env : Env) (w : World) : Prop :=
  (forall entries constraints w' r,
      repairLexicon env entries constraints w = (w', r) -> calls w' = calls w)
  /\ (forall word phonologyDescription w' r,
        suggestIPA env word phonologyDescription w = (w', r) -> calls w' = calls w)
  /\ (forall count constraints vibe projectRules w' r,
        generateWords env count constraints vibe projectRules w = (w', r) ->
        calls w' = calls w)
  /\ (forall words rules w' r,
        evolveWords env words rules w = (w', r) -> calls w' = calls w)
  /\ (forall lexicon instruction constraints w' r,
        processCommandAI env lexicon instruction constraints w = (w', r) ->
        calls w' = calls w)
  /\ (forall sentence grammarRules morphology w' r,
        analyzeSyntax env sentence grammarRules morphology w = (w', r) ->
        calls w' = calls w)
  /\ (forall description w' r,
        generatePhonology env description w = (w', r) -> calls w' = calls w).

(** The three operations that test for an empty input return at once on
    it: the world is as it was, so nothing was written, nothing was
    sent and getGenAI was not reached. *)
Definition empty_input_is_a_no_op (env : Env) (w : World) : Prop :=
  (forall constraints,
      repairLexicon env [] constraints w
      = (w, Ok {| success := true; repairs := []; message := None |}))
  /\ (forall words rules,
        words = [] \/ rules = [] -> evolveWords env words rules w = (w, Ok words))
  /\ (forall instruction constraints,
        processCommandAI env [] instruction constraints w
        = (w, Ok {| ok := false; modifiedCount := 0; newLexicon := None; note := None |})).

(** What each operation makes of an error that its try block throws,
    whatever the error and wherever in the block it is thrown: a value
    of its return type for all but generateWords, which throws the
    enriched error. The catch block sends nothing. *)
Definition caught (env : Env) (w : World) : Prop :=
  (forall entries constraints w1 e,
      entries <> [] ->
      repair_body env entries constraints w = (w1, Throw e) ->
      exists w',
        repairLexicon env entries constraints w
        = (w', Ok {| success := false; repairs := [];
                     message := Some (repair_error_message e) |})
        /\ calls w' = calls w1)
  /\ (forall word phonologyDescription w1 e,
        suggest_body env word phonologyDescription w = (w1, Throw e) ->
        exists w',
          suggestIPA env word phonologyDescription w = (w', Ok "/error/")
          /\ calls w' = calls w1)
  /\ (forall count constraints vibe projectRules w1 e,
        generate_body env count constraints vibe projectRules w = (w1, Throw e) ->
        exists w',
          generateWords env count constraints vibe projectRules w
          = (w', Throw (enriched e))
          /\ calls w' = calls w1)
  /\ (forall words rules w1 e,
        words <> [] -> rules <> [] ->
        evolve_body env words rules w = (w1, Throw e) ->
        exists w',
          evolveWords env words rules w = (w', Ok words) /\ calls w' = calls w1)
  /\ (forall lexicon instruction constraints w1 e,
        lexicon <> [] ->
        command_body env lexicon instruction constraints w = (w1, Throw e) ->
        exists w',
          processCommandAI env lexicon instruction constraints w
          = (w', Ok {| ok := false; modifiedCount := 0; newLexicon := None;
                       note := Some (exn_message e) |})
          /\ calls w' = calls w1)
  /\ (forall sentence grammarRules morphology w1 e,
        analyze_body env sentence grammarRules morphology w = (w1, Throw e) ->
        exists w',
          analyzeSyntax env sentence grammarRules morphology w
          = (w', Ok "Error analyzing syntax. Verifica tu API key.")
          /\ calls w' = calls w1)
  /\ (forall description w1 e,
        phonology_body env description w = (w1, Throw e) ->
        exists w',
          generatePhonology env description w = (w', Ok default_phonology)
          /\ calls w' = calls w1).

(** What each operation returns from [w] when no key is configured,
    on every input that gets past its test for an empty one: its typed
    failure for the ConfigurationError, with nothing sent. *)
Definition unconfigured (env : Env) (w : World) : Prop :=
  (forall entries constraints,
      entries <> [] ->
      exists w',
        repairLexicon env entries constraints w
        = (w', Ok {| success := false; repairs := [];
                     message := Some (repair_error_message ConfigurationError) |})
        /\ calls w' = calls w)
  /\ (forall word phonologyDescription,
        exists w',
          suggestIPA env word phonologyDescription w = (w', Ok "/error/")
          /\ calls w' = calls w)
  /\ (forall count constraints vibe projectRules,
        exists w',
          generateWords env count constraints vibe projectRules w
          = (w', Throw (enriched ConfigurationError))
          /\ calls w' = calls w)
  /\ (forall words rules,
        words <> [] -> rules <> [] ->
        exists w',
          evolveWords env words rules w = (w', Ok words) /\ calls w' = calls w)
  /\ (forall lexicon instruction constraints,
        lexicon <> [] ->
        exists w',
          processCommandAI env lexicon instruction constraints w
          = (w', Ok {| ok := false; modifiedCount := 0; newLexicon := None;
                       note := Some (exn_message ConfigurationError) |})
          /\ calls w' = calls w)
  /\ (forall sentence grammarRules morphology,
        exists w',
          analyzeSyntax env sentence grammarRules morphology w
          = (w', Ok "Error analyzing syntax. Verifica tu API key.")
          /\ calls w' = calls w)
  /\ (forall description,
        exists w',
          generatePhonology env description w = (w', Ok default_phonology)
          /\ calls w' = calls w).

(** What each operation returns when the remote call for its prompt,
    the first one for an operation that works in chunks, fails with
    [e]: its typed failure, after that one prompt. Only the call that
    is made is assumed to fail. *)
Definition transport_converted (env : Env) (w : World) (e : exn) : Prop :=
  let key := trim (getApiKey env) in
  (forall entries constraints triples,
      entries <> [] ->
      map_result (triple env) (take CHUNK_SIZE_REPAIR entries) = Ok triples ->
      let p := repair_prompt (repair_rules constraints)
                 (default "undefined" (Json.stringify (VArr triples))) in
      remote env key (calls w) p = Throw e ->
      exists w',
        repairLexicon env entries constraints w
        = (w', Ok {| success := false; repairs := [];
                     message := Some (repair_error_message e) |})
        /\ calls w' = calls w ++ [p])
  /\ (forall word phonologyDescription,
        let p := suggest_prompt word phonologyDescription in
        remote env key (calls w) p = Throw e ->
        exists w',
          suggestIPA env word phonologyDescription w = (w', Ok "/error/")
          /\ calls w' = calls w ++ [p])
  /\ (forall count constraints vibe projectRules,
        let p := generate_prompt (Z.min count 15) vibe projectRules in
        remote env key (calls w) p = Throw e ->
        exists w',
          generateWords env count constraints vibe projectRules w
          = (w', Throw (enriched e))
          /\ calls w' = calls w ++ [p])
  /\ (forall words rules ws,
        words <> [] -> rules <> [] ->
        map_result (fun x => get env x "word") (take CHUNK_SIZE_EVOLVE words) = Ok ws ->
        let p := evolve_prompt rules ws in
        remote env key (calls w) p = Throw e ->
        exists w',
          evolveWords env words rules w = (w', Ok words)
          /\ calls w' = calls w ++ [p])
  /\ (forall lexicon instruction constraints,
        lexicon <> [] ->
        let p := command_prompt instruction constraints in
        remote env key (calls w) p = Throw e ->
        exists w',
          processCommandAI env lexicon instruction constraints w
          = (w', Ok {| ok := false; modifiedCount := 0; newLexicon := None;
                       note := Some (exn_message e) |})
          /\ calls w' = calls w ++ [p])
  /\ (forall sentence grammarRules morphology,
        let p := analyze_prompt sentence grammarRules morphology in
        remote env key (calls w) p = Throw e ->
        exists w',
          analyzeSyntax env sentence grammarRules morphology w
          = (w', Ok "Error analyzing syntax. Verifica tu API key.")
          /\ calls w' = calls w ++ [p])
  /\ (forall description,
        let p := phonology_prompt description in
        remote env key (calls w) p = Throw e ->
        exists w',
          generatePhonology env description w = (w', Ok default_phonology)
          /\ calls w' = calls w ++ [p]).

(** [entry.etymology || ''], as a text. *)
Definition etymology_text (v : value) : string :=
  let e := prop v "etymology" in
  if truthy e then to_string e else EmptyString.

(** [new] is the entry [old] of the caller, or an object that has every
    own property of [old] but for its word, its transcription and its
    etymology. *)
Definition evolved_from (old new : value) : Prop :=
  new = old
  \/ exists fields,
       new = VObj fields
       /\ forall k, k <> "word" -> k <> "ipa" -> k <> "etymology" ->
                    lookup k fields = lookup k (own_props old).

(** The etymology of [new] starts with the etymology of [old]. *)
Definition extends_etymology (old new : value) : Prop :=
  exists suffix, etymology_text new = etymology_text old +:+ suffix.

(** No object inside [v] has two properties of the same name, as in
    every value that JSON.parse returns. *)
Fixpoint unique_keys (v : value) : Prop :=
  match v with
  | VArr items => fold_right (fun x acc => unique_keys x /\ acc) True items
  | VObj fields =>
      NoDup (map fst fields)
      /\ fold_right (fun kv acc => unique_keys (snd kv) /\ acc) True fields
  | _ => True
  end.

(** [new] is the entry [old] of the caller, or an object with the
    identifier of [old] in which no own property of [old] is missing. *)
Definition merged_from (old new : value) : Prop :=
  new = old
  \/ exists fields,
       new = VObj fields
       /\ prop new "id" = prop old "id"
       /\ forall k v, lookup k (own_props old) = Some v -> exists v', lookup k fields = Some v'.

(** The records of a parsed response: [resultData.modifications || []]
    when that is an array. *)
Definition modifications_of (resultData : value) : option (list value) :=
  let m := prop resultData "modifications" in
  match (if truthy m then m else VArr []) with
  | VArr mods => Some mods
  | _ => None
  end.

End Props.

(** ** The earlier version of the service

  The repository holds an earlier version of the same file, in which
  the key is read from the environment with no test, safeParseJSON only
  strips the fence markers, generateWords returns an empty list on a
  failure and generatePhonology throws a fixed error. *)

Module Earlier.
Import Str Js.

(** [s.replace(re, "")] for a global expression that is the literal
    [pat], which is not empty: the matches are found from left to right
    and do not overlap. [skipped] counts the characters of a match that
    are still to be dropped. *)
Fixpoint remove_from (pat : string) (skipped : nat) (s : string) : string :=
  match s with
  | EmptyString => EmptyString
  | String c s' =>
      match skipped with
      | S k => remove_from pat k s'
      | O =>
          if String.prefix pat s then remove_from pat (String.length pat - 1) s'
          else String c (remove_from pat 0 s')
      end
  end.

Definition remove_all (pat s : string) : string := remove_from pat 0 s.

Section Service.

Variable env : Env.

(** [process.env.GEMINI_API_KEY || ""], the key of the build. *)
Definition env_key : string := default EmptyString (build_key env).

Definition isApiKeySet : bool := negb (String.eqb env_key EmptyString).

Definition cleaned (text : string) : string :=
  trim (remove_all "```" (remove_all "```json" text)).

Definition safeParseJSON (text : string) : M value :=
  try_catch (lift (JSON_parse env (cleaned text)))
    (fun e => exec print ERROR [AStr "JSON Parse Error. Raw content:"; AStr text] ; throw e).

Definition generate_prompt (safeCount : Z) (vibe : string)
    (projectRules : option ProjectConstraints) : string :=
  "Generate " +:+ to_string (of_Z safeCount)
  +:+ " unique constructed words. Vibe: " +:+ vibe +:+ ". "
  +:+ global_rules projectRules
  +:+ Json.dq ". Return JSON array with 'word' and 'ipa'.".

(** The value that is returned is the parsed answer, whatever it is. *)
Definition generateWords (count : Z) (constraints vibe : string)
    (projectRules : option ProjectConstraints) : M value :=
  try_catch
    (let safeCount := Z.min count 50 in
     do text <- generateContent env env_key (generate_prompt safeCount vibe projectRules) ;
     safeParseJSON text)
    (fun e => exec print ERROR [AStr "Generation Error:"; AExn e] ; ret (VArr [])).

Definition phonology_prompt (description : string) : string :=
  Json.dq "Create phonology from description: '" +:+ description
  +:+ Json.dq "'. Return JSON complying with the app"
  +:+ "'s PhonologyConfig schema.".

Definition generatePhonology (description : string) : M value :=
  try_catch
    (do text <- generateContent env env_key (phonology_prompt description) ;
     safeParseJSON text)
    (fun e => exec print ERROR [AStr "Phonology Generation Error:"; AExn e] ;
              throw (Error "Failed to generate phonology.")).

End Service.

End Earlier.

(** * Facts about the strings of the platform *)

Module StrFacts.
Import Str.

Lemma app_assoc (a b c : string) : (a +:+ b) +:+ c = a +:+ b +:+ c.
Proof. induction a as [|x a IH]; simpl; [reflexivity | now rewrite IH]. Qed.

Lemma app_nil_r (a : string) : a +:+ EmptyString = a.
Proof. induction a as [|x a IH]; simpl; [reflexivity | now rewrite IH]. Qed.

Lemma length_app (a b : string) :
  String.length (a +:+ b) = (String.length a + String.length b)%nat.
Proof. induction a as [|x a IH]; simpl; [reflexivity | now rewrite IH]. Qed.

Lemma len_app (a b : string) : len (a +:+ b) = len a + len b.
Proof. unfold len. rewrite length_app. lia. Qed.

Lemma len_nonneg (a : string) : 0 <= len a.
Proof. unfold len. lia. Qed.

Lemma len_cons (c : ascii) (a : string) : len (String c a) = len a + 1.
Proof. unfold len. simpl. lia. Qed.

Lemma len_zero (a : string) : len a = 0 -> a = EmptyString.
Proof. destruct a as [|c a]; [reflexivity | rewrite len_cons; pose proof (len_nonneg a); lia]. Qed.

Lemma app_inv_head (p a b : string) : p +:+ a = p +:+ b -> a = b.
Proof. induction p as [|x p IH]; simpl; intros H; [exact H | injection H; auto]. Qed.

(** Two splittings of one string, the first cut being leftmost. *)
Lemma app_split (p a q b : string) :
  p +:+ a = q +:+ b -> len p <= len q ->
  exists m, q = p +:+ m /\ a = m +:+ b.
Proof.
  revert q. induction p as [|x p IH]; simpl; intros q H Hl.
  - exists q. split; [reflexivity | exact H].
  - destruct q as [|y q]; [rewrite len_cons in Hl; pose proof (len_nonneg p);
                            change (len EmptyString) with 0 in Hl; lia |].
    simpl in H. injection H as -> H. rewrite !len_cons in Hl.
    destruct (IH q H) as [m [-> ->]]; [lia |]. exists m. split; reflexivity.
Qed.

Lemma prefix_iff (p s : string) :
  String.prefix p s = true <-> exists q, s = p +:+ q.
Proof.
  revert s. induction p as [|x p IH]; intros s.
  - destruct s; simpl; split; eauto.
  - destruct s as [|y s]; simpl.
    + split; [discriminate | intros [q Hq]; discriminate].
    + destruct (ascii_dec x y) as [->|Hne].
      * rewrite IH. split; intros [q Hq]; exists q; [now rewrite Hq | now injection Hq].
      * split; [discriminate | intros [q Hq]; congruence].
Qed.

Lemma prefix_app (p q : string) : String.prefix p (p +:+ q) = true.
Proof. apply prefix_iff. eauto. Qed.

Lemma prefix_char (c d : ascii) (s : string) :
  String.prefix (String c EmptyString) (String d s) = Ascii.eqb c d.
Proof.
  simpl. destruct (ascii_dec c d) as [->|Hne].
  - rewrite Ascii.eqb_refl. now destruct s.
  - symmetry. now apply Ascii.eqb_neq.
Qed.

(** *** occurs *)

Lemma occurs_nil (c : ascii) : ~ occurs c EmptyString.
Proof. intros []. Qed.

Lemma occurs_cons (c d : ascii) (s : string) :
  occurs c (String d s) <-> d = c \/ occurs c s.
Proof. reflexivity. Qed.

Lemma occurs_app (c : ascii) (a b : string) :
  occurs c (a +:+ b) <-> occurs c a \/ occurs c b.
Proof.
  induction a as [|x a IH]; simpl.
  - split; [auto | intros [[]|H]; exact H].
  - rewrite !occurs_cons, IH. tauto.
Qed.

(** *** String.substring and the two substring methods *)

Lemma substring_zero_all (s t : string) :
  String.substring 0 (String.length s) (s +:+ t) = s.
Proof. induction s as [|x s IH]; simpl; [now destruct t | now rewrite IH]. Qed.

Lemma substring_skip (p s : string) (m : nat) :
  String.substring (String.length p) m (p +:+ s) = String.substring 0 m s.
Proof. induction p as [|x p IH]; simpl; [reflexivity | exact IH]. Qed.

Lemma substring_middle (p m q : string) :
  String.substring (String.length p) (String.length m) (p +:+ m +:+ q) = m.
Proof. rewrite substring_skip. apply substring_zero_all. Qed.

Lemma occurs_substring (c : ascii) (n m : nat) (s : string) :
  occurs c (String.substring n m s) -> occurs c s.
Proof.
  revert n m. induction s as [|x s IH]; intros n m.
  - destruct n, m; simpl; auto.
  - destruct n as [|n].
    + destruct m as [|m]; simpl; [intros [] |].
      rewrite !occurs_cons. intros [H|H]; [auto | right; eapply IH; exact H].
    + simpl. rewrite occurs_cons. intros H. right. eapply IH; exact H.
Qed.

Lemma clamp_len (s : string) (i : Z) :
  0 <= i <= len s -> clamp s i = Z.to_nat i.
Proof. intros H. unfold clamp. f_equal. lia. Qed.

Lemma substring_app (p m q : string) :
  substring (p +:+ m +:+ q) (len p) (len p + len m) = m.
Proof.
  unfold substring.
  pose proof (len_nonneg p). pose proof (len_nonneg m). pose proof (len_nonneg q).
  rewrite !clamp_len by (rewrite !len_app; lia).
  replace (Nat.min (Z.to_nat (len p)) (Z.to_nat (len p + len m)))
    with (String.length p) by (unfold len; lia).
  replace (Nat.max (Z.to_nat (len p)) (Z.to_nat (len p + len m)) - String.length p)%nat
    with (String.length m) by (unfold len; lia).
  apply substring_middle.
Qed.

Lemma substring_prefix (m q : string) : substring (m +:+ q) 0 (len m) = m.
Proof.
  change (substring (EmptyString +:+ m +:+ q) (len EmptyString) (len EmptyString + len m) = m).
  apply substring_app.
Qed.

Lemma substringFrom_app (p q : string) : substringFrom (p +:+ q) (len p) = q.
Proof.
  unfold substringFrom.
  replace (len (p +:+ q)) with (len p + len q) by (now rewrite len_app).
  rewrite <- (app_nil_r q) at 1. rewrite substring_app. reflexivity.
Qed.

Lemma occurs_substring' (c : ascii) (s : string) (a b : Z) :
  occurs c (substring s a b) -> occurs c s.
Proof. apply occurs_substring. Qed.

Lemma occurs_substringFrom (c : ascii) (s : string) (a : Z) :
  occurs c (substringFrom s a) -> occurs c s.
Proof. apply occurs_substring. Qed.

End StrFacts.

(** * Facts about searching and trimming *)

Module SearchFacts.
Import Str StrFacts Spec.

Lemma indexOf_eq (s pat : string) :
  indexOf s pat =
    if String.prefix pat s then 0
    else match s with
         | EmptyString => -1
         | String _ s' => let i := indexOf s' pat in
                          if i =? -1 then -1 else i + 1
         end.
Proof. destruct s; reflexivity. Qed.

Lemma indexOf_ge (s pat : string) : -1 <= indexOf s pat.
Proof.
  induction s as [|x s IH]; rewrite indexOf_eq;
    destruct (String.prefix pat _); try lia.
  cbv zeta. destruct (Z.eqb_spec (indexOf s pat) (-1)); lia.
Qed.

(** An occurrence bounds the index from above. *)
Lemma indexOf_occ (pat p q : string) :
  0 <= indexOf (p +:+ pat +:+ q) pat <= len p.
Proof.
  induction p as [|x p IH].
  - simpl. rewrite indexOf_eq, prefix_app. change (len EmptyString) with 0. lia.
  - rewrite len_cons. change (String x p +:+ pat +:+ q) with (String x (p +:+ pat +:+ q)).
    rewrite indexOf_eq. destruct (String.prefix pat _); [pose proof (len_nonneg p); lia |].
    cbv zeta. destruct (Z.eqb_spec (indexOf (p +:+ pat +:+ q) pat) (-1)); lia.
Qed.

(** The index, when there is one, is the place of an occurrence. *)
Lemma indexOf_found (s pat : string) :
  indexOf s pat <> -1 ->
  exists p q, s = p +:+ pat +:+ q /\ len p = indexOf s pat.
Proof.
  induction s as [|x s IH]; rewrite indexOf_eq.
  - destruct (String.prefix pat EmptyString) eqn:E; [| congruence].
    intros _. apply prefix_iff in E as [q Hq]. exists EmptyString, q. auto.
  - destruct (String.prefix pat (String x s)) eqn:E.
    + intros _. apply prefix_iff in E as [q Hq]. exists EmptyString, q. auto.
    + cbv zeta. destruct (Z.eqb_spec (indexOf s pat) (-1)) as [|Hn]; [congruence |].
      intros _. destruct (IH Hn) as [p [q [-> Hp]]].
      exists (String x p), q. rewrite len_cons. split; [reflexivity | lia].
Qed.

Lemma indexOf_first (pat p q : string) :
  (forall p' q', p +:+ pat +:+ q = p' +:+ pat +:+ q' -> len p <= len p') ->
  indexOf (p +:+ pat +:+ q) pat = len p.
Proof.
  intros Hmin. pose proof (indexOf_occ pat p q) as Hocc.
  destruct (indexOf_found (p +:+ pat +:+ q) pat) as [p' [q' [E Hp']]]; [lia |].
  specialize (Hmin _ _ E). lia.
Qed.

Lemma indexOf_none (s pat : string) :
  indexOf s pat = -1 -> forall p q, s <> p +:+ pat +:+ q.
Proof.
  intros H p q ->. pose proof (indexOf_occ pat p q). lia.
Qed.

Lemma indexOf_char_none (c : ascii) (s : string) :
  ~ occurs c s -> indexOf s (String c EmptyString) = -1.
Proof.
  intros Hno. destruct (Z.eq_dec (indexOf s (String c EmptyString)) (-1)) as [|Hn]; [assumption |].
  destruct (indexOf_found _ _ Hn) as [p [q [-> _]]].
  exfalso. apply Hno. apply occurs_app. right. simpl. now left.
Qed.

Lemma indexOf_char_occurs (c : ascii) (s : string) :
  indexOf s (String c EmptyString) <> -1 -> occurs c s.
Proof.
  intros Hn. destruct (indexOf_found _ _ Hn) as [p [q [-> _]]].
  apply occurs_app. right. simpl. now left.
Qed.

Lemma indexOf_char_first (c : ascii) (p q : string) :
  ~ occurs c p -> indexOf (p +:+ String c q) (String c EmptyString) = len p.
Proof.
  intros Hno. change (String c q) with (String c EmptyString +:+ q).
  apply indexOf_first. intros p' q' E.
  destruct (Z_le_gt_dec (len p) (len p')) as [|Hgt]; [assumption |].
  exfalso. symmetry in E. apply app_split in E as [m [-> Hm]]; [| lia].
  destruct m as [|y m].
  - rewrite app_nil_r in Hgt. lia.
  - simpl in Hm. injection Hm as <- _. apply Hno, occurs_app. right. simpl. now left.
Qed.

Lemma lastIndexOf_ge (s pat : string) : -1 <= lastIndexOf s pat.
Proof.
  induction s as [|x s IH]; cbn [lastIndexOf]; cbv zeta.
  - destruct (String.prefix pat EmptyString); lia.
  - destruct (Z.eqb_spec (lastIndexOf s pat) (-1)); [| lia].
    destruct (String.prefix pat (String x s)); lia.
Qed.

Lemma lastIndexOf_found (s pat : string) :
  lastIndexOf s pat <> -1 ->
  exists p q, s = p +:+ pat +:+ q /\ len p = lastIndexOf s pat.
Proof.
  induction s as [|x s IH]; cbn [lastIndexOf].
  - destruct (String.prefix pat EmptyString) eqn:E; [| congruence].
    intros _. apply prefix_iff in E as [q Hq]. exists EmptyString, q. auto.
  - cbv zeta. destruct (Z.eqb_spec (lastIndexOf s pat) (-1)) as [|Hn].
    + destruct (String.prefix pat (String x s)) eqn:E; [| congruence].
      intros _. apply prefix_iff in E as [q Hq]. exists EmptyString, q. auto.
    + intros _. destruct (IH Hn) as [p [q [-> Hp]]].
      exists (String x p), q. rewrite len_cons. split; [reflexivity | lia].
Qed.

(** An occurrence bounds the last index from below. *)
Lemma lastIndexOf_occ (pat p q : string) :
  len p <= lastIndexOf (p +:+ pat +:+ q) pat.
Proof.
  induction p as [|x p IH].
  - change (len EmptyString) with 0. simpl (EmptyString +:+ _).
    destruct (pat +:+ q) as [|y r] eqn:E; cbn [lastIndexOf].
    + destruct pat; [simpl; lia | discriminate].
    + cbv zeta. destruct (Z.eqb_spec (lastIndexOf r pat) (-1)).
      * rewrite <- E, prefix_app. lia.
      * pose proof (lastIndexOf_ge r pat). lia.
  - rewrite len_cons. change (String x p +:+ pat +:+ q) with (String x (p +:+ pat +:+ q)).
    cbn [lastIndexOf]. cbv zeta.
    destruct (Z.eqb_spec (lastIndexOf (p +:+ pat +:+ q) pat) (-1));
      pose proof (len_nonneg p); lia.
Qed.

Lemma lastIndexOf_char_none (c : ascii) (s : string) :
  ~ occurs c s -> lastIndexOf s (String c EmptyString) = -1.
Proof.
  intros Hno.
  destruct (Z.eq_dec (lastIndexOf s (String c EmptyString)) (-1)) as [|Hn]; [assumption |].
  destruct (lastIndexOf_found _ _ Hn) as [p [q [-> _]]].
  exfalso. apply Hno. apply occurs_app. right. simpl. now left.
Qed.

Lemma lastIndexOf_char_last (c : ascii) (p q : string) :
  ~ occurs c q -> lastIndexOf (p +:+ String c q) (String c EmptyString) = len p.
Proof.
  intros Hno. induction p as [|x p IH].
  - simpl (EmptyString +:+ _). cbn [lastIndexOf]. cbv zeta.
    rewrite (lastIndexOf_char_none c q Hno). simpl (-1 =? -1).
    rewrite prefix_char, Ascii.eqb_refl. reflexivity.
  - change (String x p +:+ String c q) with (String x (p +:+ String c q)).
    cbn [lastIndexOf]. cbv zeta. rewrite IH, len_cons.
    pose proof (len_nonneg p).
    destruct (Z.eqb_spec (len p) (-1)); lia.
Qed.

(** *** trim *)



Lemma blank_nil : blank EmptyString.
Proof. intros c []. Qed.

Lemma blank_cons (c : ascii) (s : string) :
  is_space c = true -> blank s -> blank (String c s).
Proof. intros Hc Hs d [<-|H]; auto. Qed.

Lemma blank_no (c : ascii) (s : string) :
  is_space c = false -> blank s -> ~ occurs c s.
Proof. intros Hc Hs H. apply Hs in H. congruence. Qed.

Lemma trimStart_split (s : string) :
  exists a, s = a +:+ trimStart s /\ blank a.
Proof.
  induction s as [|x s [a [Ha Hb]]]; simpl.
  - exists EmptyString. split; [reflexivity | apply blank_nil].
  - destruct (is_space x) eqn:E.
    + exists (String x a). split; [simpl; now rewrite <- Ha | now apply blank_cons].
    + exists EmptyString. split; [reflexivity | apply blank_nil].
Qed.

Lemma trimEnd_split (s : string) :
  exists b, s = trimEnd s +:+ b /\ blank b.
Proof.
  induction s as [|x s [b [Hb Hbl]]]; simpl.
  - exists EmptyString. split; [reflexivity | apply blank_nil].
  - destruct (trimEnd s) as [|y t] eqn:E.
    + destruct (is_space x) eqn:Ex.
      * exists (String x b). simpl in Hb. subst s.
        split; [reflexivity | now apply blank_cons].
      * exists b. simpl in *. now subst s.
    + exists b. simpl in *. now rewrite <- Hb.
Qed.

Lemma trim_split (s : string) :
  exists a b, s = a +:+ trim s +:+ b /\ blank a /\ blank b.
Proof.
  destruct (trimStart_split s) as [a [Ha Hab]].
  destruct (trimEnd_split (trimStart s)) as [b [Hb Hbb]].
  exists a, b. unfold trim. now rewrite <- Hb.
Qed.

Lemma occurs_trim (c : ascii) (s : string) : occurs c (trim s) -> occurs c s.
Proof.
  intros H. destruct (trim_split s) as [a [b [E _]]]. rewrite E.
  rewrite !occurs_app. tauto.
Qed.

Lemma trimEnd_last (s : string) (d : ascii) :
  is_space d = false -> trimEnd (s +:+ String d EmptyString) = s +:+ String d EmptyString.
Proof.
  intros Hd. induction s as [|x s IH]; simpl.
  - now rewrite Hd.
  - rewrite IH. destruct (s +:+ String d EmptyString) eqn:E; [| reflexivity].
    destruct s; discriminate.
Qed.

(** A text with no blank at either end is its own trimmed form. *)
Lemma trim_fixed (c d : ascii) (m : string) :
  is_space c = false -> is_space d = false ->
  trim (String c (m +:+ String d EmptyString)) = String c (m +:+ String d EmptyString).
Proof.
  intros Hc Hd. unfold trim. simpl trimStart. rewrite Hc.
  change (String c (m +:+ String d EmptyString)) with (String c m +:+ String d EmptyString).
  now apply trimEnd_last.
Qed.

Lemma skip_split (p : ascii -> bool) (s : string) : exists a, s = a +:+ skip p s.
Proof.
  induction s as [|x s [a Ha]]; simpl.
  - now exists EmptyString.
  - destruct (p x); [exists (String x a); simpl; now rewrite <- Ha | now exists EmptyString].
Qed.

End SearchFacts.

(** * The candidate selection of safeParseJSON *)

Module SelectFacts.
Import Str Regex StrFacts SearchFacts Spec.

Lemma occurs_split (c : ascii) (s : string) :
  occurs c s -> exists a b, s = a +:+ String c b.
Proof.
  induction s as [|x s IH]; [intros [] |].
  intros [->|H].
  - now exists EmptyString, s.
  - destruct (IH H) as [a [b ->]]. now exists (String x a), b.
Qed.

(** The regular expression of the fence computes [fenced]. *)
Lemma match_fence_complete (text inner : string) :
  fenced text inner -> match_fence text = Some inner.
Proof.
  intros [pre [post [E [Hleft Hshort]]]]. unfold match_fence.
  assert (Hi : indexOf text fence_open = len pre).
  { rewrite E. apply indexOf_first. intros p q Hpq. apply (Hleft p q). now rewrite E. }
  rewrite Hi. pose proof (len_nonneg pre).
  destruct (Z.eqb_spec (len pre) (-1)); [lia |].
  assert (Hr : substringFrom text (len pre + len fence_open)
               = inner +:+ fence_close +:+ post).
  { rewrite E, <- app_assoc, <- len_app. apply substringFrom_app. }
  rewrite Hr.
  assert (Hj : indexOf (inner +:+ fence_close +:+ post) fence_close = len inner)
    by now apply indexOf_first.
  rewrite Hj. pose proof (len_nonneg inner).
  destruct (Z.eqb_spec (len inner) (-1)); [lia |].
  now rewrite substring_prefix.
Qed.

Lemma match_fence_sound (text inner : string) :
  match_fence text = Some inner -> fenced text inner.
Proof.
  unfold match_fence.
  destruct (Z.eqb_spec (indexOf text fence_open) (-1)) as [|Hi]; [discriminate |].
  destruct (indexOf_found _ _ Hi) as [pre [rest [E Hpre]]].
  rewrite <- Hpre.
  assert (Hr : substringFrom text (len pre + len fence_open) = rest).
  { rewrite E, <- app_assoc, <- len_app. apply substringFrom_app. }
  rewrite Hr.
  destruct (Z.eqb_spec (indexOf rest fence_close) (-1)) as [|Hj]; [discriminate |].
  destruct (indexOf_found _ _ Hj) as [a [post [E' Ha]]].
  rewrite <- Ha, E', substring_prefix. intros [= <-].
  exists pre, post. split; [rewrite E, E'; reflexivity |]. split.
  - intros p q Hpq. rewrite Hpre, Hpq. apply indexOf_occ.
  - intros p q Hpq. rewrite Ha, E', Hpq. apply indexOf_occ.
Qed.

Lemma brace_pair_indices (pre mid post : string) :
  ~ occurs "{" pre -> ~ occurs "}" post ->
  let text := pre +:+ String "{" mid +:+ String "}" post in
  indexOf text "{" = len pre /\
  lastIndexOf text "}" = len pre + 1 + len mid.
Proof.
  intros Hpre Hpost text. split.
  - now apply indexOf_char_first.
  - unfold text.
    change (String "{" mid +:+ String "}" post) with (String "{" (mid +:+ String "}" post)).
    replace (pre +:+ String "{" (mid +:+ String "}" post))
      with ((pre +:+ String "{" mid) +:+ String "}" post)
      by (rewrite app_assoc; reflexivity).
    rewrite lastIndexOf_char_last by assumption.
    rewrite len_app, len_cons. lia.
Qed.

(** Step 2 takes the text from the first opening brace to the last
    closing brace. *)
Lemma select_unfenced_braces (text mid : string) :
  brace_pair text mid -> select_unfenced text = String "{" (mid +:+ "}").
Proof.
  intros [pre [post [E [Hpre Hpost]]]]. unfold select_unfenced.
  destruct (brace_pair_indices pre mid post Hpre Hpost) as [Hi Hj].
  rewrite <- E in Hi, Hj. rewrite Hi, Hj.
  pose proof (len_nonneg pre). pose proof (len_nonneg mid).
  destruct (Z.eqb_spec (len pre) (-1)); [lia |].
  destruct (Z.eqb_spec (len pre + 1 + len mid) (-1)); [lia |].
  destruct (Z.ltb_spec (len pre) (len pre + 1 + len mid)); [| lia].
  simpl negb. simpl andb. cbv iota.
  rewrite E.
  replace (String "{" mid +:+ String "}" post)
    with (String "{" (mid +:+ "}") +:+ post)
    by (simpl; rewrite app_assoc; reflexivity).
  replace (len pre + 1 + len mid + 1) with (len pre + len (String "{" (mid +:+ "}")))
    by (rewrite len_cons, len_app; change (len "}") with 1; lia).
  apply substring_app.
Qed.

(** The test of step 2 holds only of a text with a brace pair. *)
Lemma braces_found (text : string) :
  indexOf text "{" <> -1 -> lastIndexOf text "}" <> -1 ->
  indexOf text "{" < lastIndexOf text "}" ->
  exists mid, brace_pair text mid.
Proof.
  intros Hi Hj Hlt.
  destruct (indexOf_found _ _ Hi) as [p [q [E Hp]]].
  destruct (lastIndexOf_found _ _ Hj) as [p' [q' [E' Hp']]].
  assert (Hno : ~ occurs "{" p).
  { intros H. apply occurs_split in H as [a [b ->]].
    pose proof (indexOf_occ "{" a (b +:+ "{" +:+ q)) as Hb.
    replace (a +:+ "{" +:+ b +:+ "{" +:+ q) with text in Hb
      by (rewrite E; simpl; rewrite !app_assoc; reflexivity).
    rewrite len_app, len_cons in Hp. pose proof (len_nonneg b). lia. }
  assert (Hno' : ~ occurs "}" q').
  { intros H. apply occurs_split in H as [a [b ->]].
    pose proof (lastIndexOf_occ "}" (p' +:+ "}" +:+ a) b) as Hb.
    replace ((p' +:+ "}" +:+ a) +:+ "}" +:+ b) with text in Hb
      by (rewrite E'; simpl; rewrite !app_assoc; reflexivity).
    rewrite !len_app in Hb. change (len "}") with 1 in Hb.
    pose proof (len_nonneg a). lia. }
  assert (Hs : p +:+ "{" +:+ q = p' +:+ "}" +:+ q') by congruence.
  apply app_split in Hs as [m [-> Hm]]; [| lia].
  destruct m as [|y mid].
  - rewrite app_nil_r in Hp'. lia.
  - simpl in Hm. injection Hm as <- ->.
    exists mid, p, q'. split; [| split; assumption].
    rewrite E'. simpl. rewrite app_assoc. reflexivity.
Qed.

Lemma loose_at_inv (s m : string) :
  loose_at s = Some m ->
  exists s1 s2,
    s = String "{" s1 /\
    skip is_key (skip is_space s1) = String ":" s2 /\
    indexOf s2 "}" <> -1 /\
    m = substring s 0 (len s - len s2 + indexOf s2 "}" + 1).
Proof.
  unfold loose_at. destruct s as [|c s1]; [discriminate |].
  destruct (Ascii.eqb_spec c "{") as [->|Hne].
  2:{ destruct c as [[] [] [] [] [] [] [] []]; try discriminate. now contradiction Hne. }
  destruct (skip is_key (skip is_space s1)) as [|d s2] eqn:Es; [discriminate |].
  destruct (Ascii.eqb_spec d ":") as [->|Hne].
  2:{ destruct d as [[] [] [] [] [] [] [] []]; try discriminate. now contradiction Hne. }
  destruct (Z.eqb_spec (indexOf s2 "}") (-1)) as [|Hj]; [discriminate |].
  intros [= <-]. exists s1, s2. auto.
Qed.

Lemma loose_at_shape (s m : string) :
  loose_at s = Some m -> exists a b, s = String "{" a +:+ String "}" b.
Proof.
  intros H. apply loose_at_inv in H as [s1 [s2 [-> [Es [Hj _]]]]].
  destruct (skip_split is_space s1) as [x Hx].
  destruct (skip_split is_key (skip is_space s1)) as [y Hy].
  destruct (indexOf_found _ _ Hj) as [a [b [E _]]].
  exists (x +:+ y +:+ String ":" a), b.
  rewrite Hx, Hy, Es, E. simpl. rewrite !app_assoc. simpl. reflexivity.
Qed.

Lemma match_loose_shape (text m : string) :
  match_loose text = Some m ->
  exists p a b, text = p +:+ String "{" a +:+ String "}" b.
Proof.
  induction text as [|c text IH]; cbn [match_loose].
  - destruct (loose_at EmptyString) eqn:E; [| discriminate].
    intros _. apply loose_at_shape in E as [a [b E]]. discriminate.
  - destruct (loose_at (String c text)) eqn:E.
    + intros _. apply loose_at_shape in E as [a [b E]].
      exists EmptyString, a, b. exact E.
    + intros H. destruct (IH H) as [p [a [b ->]]].
      now exists (String c p), a, b.
Qed.

(** Step 3 is dead: where the loose expression matches, step 2 has
    already taken the text. *)
Lemma match_loose_dead (text m : string) :
  match_loose text = Some m ->
  indexOf text "{" <> -1 /\ lastIndexOf text "}" <> -1 /\
  indexOf text "{" < lastIndexOf text "}".
Proof.
  intros H. apply match_loose_shape in H as [p [a [b ->]]].
  pose proof (indexOf_occ "{" p (a +:+ String "}" b)) as Hi.
  pose proof (lastIndexOf_occ "}" (p +:+ String "{" a) b) as Hj.
  replace ((p +:+ String "{" a) +:+ "}" +:+ b) with (p +:+ String "{" a +:+ String "}" b) in Hj
    by (rewrite app_assoc; reflexivity).
  change (p +:+ "{" +:+ a +:+ String "}" b) with (p +:+ String "{" a +:+ String "}" b) in Hi.
  rewrite len_app, len_cons in Hj.
  pose proof (len_nonneg p). pose proof (len_nonneg a). lia.
Qed.

Lemma select_unfenced_plain (text : string) :
  (forall mid, ~ brace_pair text mid) ->
  match_loose text = None /\ select_unfenced text = trim text.
Proof.
  intros Hno.
  assert (Hc : negb (indexOf text "{" =? -1) && negb (lastIndexOf text "}" =? -1)
               && (indexOf text "{" <? lastIndexOf text "}") = false).
  { destruct (Z.eqb_spec (indexOf text "{") (-1)) as [|Hi]; [reflexivity |].
    destruct (Z.eqb_spec (lastIndexOf text "}") (-1)) as [|Hj]; [reflexivity |].
    destruct (Z.ltb_spec (indexOf text "{") (lastIndexOf text "}")) as [Hlt|]; [| reflexivity].
    destruct (braces_found text Hi Hj Hlt) as [mid Hm]. now elim (Hno mid). }
  assert (Hl : match_loose text = None).
  { destruct (match_loose text) as [m|] eqn:E; [| reflexivity].
    apply match_loose_dead in E as [Hi [Hj Hlt]].
    destruct (Z.eqb_spec (indexOf text "{") (-1)); [contradiction |].
    destruct (Z.eqb_spec (lastIndexOf text "}") (-1)); [contradiction |].
    destruct (Z.ltb_spec (indexOf text "{") (lastIndexOf text "}")); [discriminate | lia]. }
  split; [exact Hl |]. unfold select_unfenced. now rewrite Hc, Hl.
Qed.

Lemma occurs_loose_at (c : ascii) (s m : string) :
  loose_at s = Some m -> occurs c m -> occurs c s.
Proof.
  intros H. apply loose_at_inv in H as [s1 [s2 [_ [_ [_ ->]]]]].
  apply occurs_substring'.
Qed.

Lemma occurs_match_loose (c : ascii) (text m : string) :
  match_loose text = Some m -> occurs c m -> occurs c text.
Proof.
  induction text as [|x text IH]; cbn [match_loose].
  - destruct (loose_at EmptyString) eqn:E; [| discriminate].
    intros [= <-]. now apply occurs_loose_at.
  - destruct (loose_at (String x text)) eqn:E.
    + intros [= <-]. now apply occurs_loose_at.
    + intros H Hc. right. now apply IH.
Qed.

(** Whatever the step, the candidate is made of characters of the text. *)
Lemma occurs_select (c : ascii) (text : string) :
  occurs c (select text) -> occurs c text.
Proof.
  assert (Hu : occurs c (select_unfenced text) -> occurs c text).
  { unfold select_unfenced.
    destruct (_ && _ && _); [apply occurs_substring' |].
    destruct (match_loose text) as [[|x m]|] eqn:E; try apply occurs_trim.
    now apply occurs_match_loose. }
  unfold select. destruct (match_fence text) as [[|x inner]|] eqn:E; try exact Hu.
  apply match_fence_sound in E as [pre [post [-> _]]].
  intros H. apply occurs_app. right. apply occurs_app. right.
  apply occurs_app. now left.
Qed.

End SelectFacts.

(** * safeParseJSON *)

Module ParseFacts.
Import Str Regex Js StrFacts SearchFacts SelectFacts Spec.

Lemma startsWith_char (c : ascii) (s : string) :
  startsWith s (String c EmptyString) = true -> exists r, s = String c r.
Proof. unfold startsWith. rewrite prefix_iff. intros [q ->]. now exists q. Qed.

Lemma clean_no_start (s : string) :
  ~ occurs "{" s -> ~ occurs "[" s -> clean s = Throw no_start.
Proof.
  intros Hb Hk. unfold clean.
  assert (Hb' : ~ occurs "{" (trim s)) by (intros H; now apply Hb, occurs_trim).
  assert (Hk' : ~ occurs "[" (trim s)) by (intros H; now apply Hk, occurs_trim).
  destruct (startsWith (trim s) "{") eqn:E1.
  { apply startsWith_char in E1 as [r Hr]. exfalso. apply Hb'. rewrite Hr. now left. }
  destruct (startsWith (trim s) "[") eqn:E2.
  { apply startsWith_char in E2 as [r Hr]. exfalso. apply Hk'. rewrite Hr. now left. }
  cbn [negb andb]. rewrite (indexOf_char_none "[" _ Hk'), (indexOf_char_none "{" _ Hb').
  reflexivity.
Qed.

Lemma substringFrom_index (s pat : string) :
  indexOf s pat <> -1 -> exists q, substringFrom s (indexOf s pat) = pat +:+ q.
Proof.
  intros H. destruct (indexOf_found _ _ H) as [p [q [E Hp]]].
  exists q. rewrite <- Hp. rewrite E at 1. apply substringFrom_app.
Qed.

(** What the clean-up lets through starts a JSON object or array. *)
Lemma clean_start (s s' : string) :
  clean s = Ok s' ->
  (exists r, s' = String "{" r) \/ (exists r, s' = String "[" r).
Proof.
  unfold clean.
  destruct (startsWith (trim s) "{") eqn:E1.
  { intros [= <-]. left. now apply startsWith_char. }
  destruct (startsWith (trim s) "[") eqn:E2.
  { intros [= <-]. right. now apply startsWith_char. }
  cbn [negb andb].
  destruct (Z.eqb_spec (indexOf (trim s) "[") (-1)) as [|Hk]; cbn [negb andb].
  - destruct (Z.eqb_spec (indexOf (trim s) "{") (-1)) as [|Hb]; [discriminate |].
    cbn [negb]. intros [= <-]. left.
    destruct (substringFrom_index _ _ Hb) as [q ->]. now exists q.
  - destruct ((indexOf (trim s) "{" =? -1) || (indexOf (trim s) "[" <? indexOf (trim s) "{")).
    + intros [= <-]. right. destruct (substringFrom_index _ _ Hk) as [q ->]. now exists q.
    + destruct (Z.eqb_spec (indexOf (trim s) "{") (-1)) as [|Hb]; [discriminate |].
      cbn [negb]. intros [= <-]. left.
      destruct (substringFrom_index _ _ Hb) as [q ->]. now exists q.
Qed.

(** A text from a brace to a brace passes the clean-up unchanged. *)
Lemma clean_braces (m : string) :
  clean (String "{" (m +:+ "}")) = Ok (String "{" (m +:+ "}")).
Proof.
  unfold clean. rewrite trim_fixed by reflexivity.
  unfold startsWith. rewrite !prefix_char. reflexivity.
Qed.

(** One candidate is cleaned and parsed; a failure is logged and thrown
    again. *)
Lemma safeParseJSON_run (env : Env) (text : string) (w : World) :
  safeParseJSON env text w =
    match bind_result (clean (select text)) (JSON_parse env) with
    | Ok v => (w, Ok v)
    | Throw e => (logged text w, Throw e)
    end.
Proof.
  unfold safeParseJSON, try_catch, lift.
  destruct (bind_result (clean (select text)) (JSON_parse env)); reflexivity.
Qed.

Lemma safeParseJSON_calls (env : Env) (text : string) (w w' : World) (r : result value) :
  safeParseJSON env text w = (w', r) -> calls w' = calls w.
Proof.
  rewrite safeParseJSON_run.
  destruct (bind_result _ _); intros [= <- _]; reflexivity.
Qed.

(** *** What JSON.parse returns *)

Lemma parse_members_obj (n : nat) (s : string) (acc : list (string * value))
    (v : value) (r : string) :
  Json.parse_members n s acc = Some (v, r) -> exists f, v = VObj f.
Proof.
  revert s acc. induction n as [|n IH]; intros s acc; [discriminate |].
  cbn [Json.parse_members].
  destruct (skip Json.is_ws s) as [|q r0]; [discriminate |].
  destruct (Ascii.eqb q DQUOTE); [| discriminate].
  destruct (Json.parse_string r0) as [[k r1]|]; [| discriminate].
  destruct (skip Json.is_ws r1) as [|d r2]; [discriminate |].
  destruct (Ascii.eqb d ":"); [| discriminate].
  destruct (Json.parse_value n r2) as [[v' r3]|]; [| discriminate].
  destruct (skip Json.is_ws r3) as [|d' r4]; [discriminate |].
  destruct (Ascii.eqb d' ","); [apply IH |].
  destruct (Ascii.eqb d' "}"); [| discriminate].
  intros [= <- _]. eauto.
Qed.

Lemma parse_elements_arr (n : nat) (s : string) (acc : list value)
    (v : value) (r : string) :
  Json.parse_elements n s acc = Some (v, r) -> exists l, v = VArr l.
Proof.
  revert s acc. induction n as [|n IH]; intros s acc; [discriminate |].
  cbn [Json.parse_elements].
  destruct (Json.parse_value n s) as [[v' r1]|]; [| discriminate].
  destruct (skip Json.is_ws r1) as [|d r2]; [discriminate |].
  destruct (Ascii.eqb d ","); [apply IH |].
  destruct (Ascii.eqb d "]"); [| discriminate].
  intros [= <- _]. eauto.
Qed.

Lemma parse_brace (r : string) (v : value) :
  Json.parse (String "{" r) = Some v -> exists f, v = VObj f.
Proof.
  unfold Json.parse.
  destruct (Json.parse_value _ _) as [[v' rest]|] eqn:E; [| discriminate].
  destruct (skip Json.is_ws rest); [| discriminate]. intros [= <-].
  revert E. generalize (2 * String.length (String "{" r) + 2)%nat. intros [|n]; [discriminate |].
  cbn [Json.parse_value]. change (skip Json.is_ws (String "{" r)) with (String "{" r).
  cbv iota. change (Ascii.eqb "{" "{") with true. cbv iota.
  destruct (skip Json.is_ws r) as [|d r']; [discriminate |].
  destruct (Ascii.eqb d "}"); [intros [= <- _]; eauto |].
  apply parse_members_obj.
Qed.

Lemma parse_bracket (r : string) (v : value) :
  Json.parse (String "[" r) = Some v -> exists l, v = VArr l.
Proof.
  unfold Json.parse.
  destruct (Json.parse_value _ _) as [[v' rest]|] eqn:E; [| discriminate].
  destruct (skip Json.is_ws rest); [| discriminate]. intros [= <-].
  revert E. generalize (2 * String.length (String "[" r) + 2)%nat. intros [|n]; [discriminate |].
  cbn [Json.parse_value]. change (skip Json.is_ws (String "[" r)) with (String "[" r).
  cbv iota. change (Ascii.eqb "[" "{") with false. change (Ascii.eqb "[" "[") with true.
  cbv iota.
  destruct (skip Json.is_ws r) as [|d r']; [discriminate |].
  destruct (Ascii.eqb d "]"); [intros [= <- _]; eauto |].
  apply parse_elements_arr.
Qed.

(** safeParseJSON returns an object or an array, never a scalar. *)
Lemma safeParseJSON_container (env : Env) (text : string) (w w' : World) (v : value) :
  safeParseJSON env text w = (w', Ok v) ->
  (exists f, v = VObj f) \/ (exists l, v = VArr l).
Proof.
  rewrite safeParseJSON_run.
  destruct (clean (select text)) as [s|e] eqn:Ec; cbn [bind_result]; [| discriminate].
  unfold JSON_parse. destruct (Json.parse s) as [v'|] eqn:Ep; [| discriminate].
  intros [= _ <-].
  destruct (clean_start _ _ Ec) as [[r ->]|[r ->]].
  - left. eapply parse_brace; eauto.
  - right. eapply parse_bracket; eauto.
Qed.

End ParseFacts.

(** * What the JSON parser consumes *)

Module ConsumeFacts.
Import Str Js StrFacts SearchFacts Spec.

Lemma rest_refl (s : string) : rest_of s s.
Proof. now exists EmptyString. Qed.

Lemma rest_trans (a b c : string) : rest_of a b -> rest_of b c -> rest_of a c.
Proof. intros [x ->] [y ->]. exists (y +:+ x). now rewrite app_assoc. Qed.

Lemma rest_cons (c : ascii) (r s : string) : rest_of r s -> rest_of r (String c s).
Proof. intros [b ->]. now exists (String c b). Qed.

Lemma rest_tail (c : ascii) (s : string) : rest_of s (String c s).
Proof. apply rest_cons, rest_refl. Qed.

Lemma rest_skip (p : ascii -> bool) (s : string) : rest_of (skip p s) s.
Proof. apply skip_split. Qed.

Lemma rest_skip_cons (p : ascii -> bool) (s r : string) (c : ascii) :
  skip p s = String c r -> rest_of r s.
Proof.
  intros E. eapply rest_trans; [apply rest_tail | rewrite <- E; apply rest_skip].
Qed.

Create HintDb rest.
#[local] Hint Resolve rest_refl rest_cons rest_tail rest_skip : rest.

Lemma parse_string_rest (s t r : string) :
  Json.parse_string s = Some (t, r) -> rest_of r s.
Proof.
  remember (String.length s) as n eqn:Hn. revert s t r Hn.
  induction n as [n IH] using lt_wf_ind. intros s t r Hn.
  destruct s as [|c s']; [discriminate |]. cbn [Json.parse_string].
  destruct (Ascii.eqb c DQUOTE); [intros [= _ <-]; auto with rest |].
  destruct (Ascii.eqb c "\").
  - destruct s' as [|e s1]; [discriminate |].
    assert (Hs : forall t' r', Json.parse_string s1 = Some (t', r') -> rest_of r' s1).
    { intros t' r'. apply (IH (String.length s1)); [subst n; simpl; lia | reflexivity]. }
    assert (Hsimple :
              match Json.simple_escape e, Json.parse_string s1 with
              | Some d, Some (t0, rest) => Some (String d t0, rest)
              | _, _ => None
              end = Some (t, r) -> rest_of r (String c (String e s1))).
    { destruct (Json.simple_escape e); [| discriminate].
      destruct (Json.parse_string s1) as [[t0 rest]|] eqn:E; [| discriminate].
      intros [= _ <-]. apply rest_cons, rest_cons. eapply Hs; eauto. }
    destruct (Ascii.eqb_spec e "u") as [->|Hne].
    2:{ destruct e as [[] [] [] [] [] [] [] []]; try exact Hsimple.
        now contradiction Hne. }
    destruct s1 as [|h1 [|h2 [|h3 [|h4 s5]]]]; try exact Hsimple.
    destruct (Json.unicode_escape h1 h2 h3 h4); [| discriminate].
    destruct (Json.parse_string s5) as [[t0 rest]|] eqn:E; [| discriminate].
    intros [= _ <-]. do 6 apply rest_cons.
    apply (IH (String.length s5)) with (t := t0); [subst n; simpl; lia | reflexivity | exact E].
  - destruct (nat_of_ascii c <? 32)%nat; [discriminate |].
    destruct (Json.parse_string s') as [[t0 rest]|] eqn:E; [| discriminate].
    intros [= _ <-]. apply rest_cons.
    apply (IH (String.length s')) with (t := t0); [subst n; simpl; lia | reflexivity | exact E].
Qed.

Lemma take_digits_rest (s d r : string) :
  Json.take_digits s = (d, r) -> rest_of r s.
Proof.
  revert d r. induction s as [|c s IH]; intros d r; simpl.
  - intros [= _ <-]. apply rest_refl.
  - destruct (Json.is_digit c); [| intros [= _ <-]; apply rest_refl].
    destruct (Json.take_digits s) as [d' r'] eqn:E. intros [= _ <-].
    apply rest_cons. eapply IH; reflexivity.
Qed.

Lemma literal_rest (word : string) (v v' : value) (s r : string) :
  Json.literal word v s = Some (v', r) -> rest_of r s.
Proof.
  unfold Json.literal. destruct (String.prefix word s) eqn:E; [| discriminate].
  apply prefix_iff in E as [q ->]. rewrite substringFrom_app.
  intros [= _ <-]. now exists word.
Qed.

Lemma parse_sign_rest (s r : string) (b : bool) :
  Json.parse_sign s = (b, r) -> rest_of r s.
Proof.
  unfold Json.parse_sign. destruct s as [|c s']; [intros [= _ <-]; auto with rest |].
  destruct (Ascii.eqb c "-"); intros [= _ <-]; auto with rest.
Qed.

Lemma parse_frac_rest (s f r : string) :
  Json.parse_frac s = Some (f, r) -> rest_of r s.
Proof.
  unfold Json.parse_frac. destruct s as [|c s']; [intros [= _ <-]; auto with rest |].
  destruct (Ascii.eqb c "."); [| intros [= _ <-]; auto with rest].
  destruct (Json.take_digits s') as [d r'] eqn:E.
  destruct (String.eqb d EmptyString); [discriminate |].
  intros [= _ <-]. apply rest_cons. eapply take_digits_rest; eauto.
Qed.

Lemma parse_exp_sign_rest (s r : string) (z : Z) :
  Json.parse_exp_sign s = (z, r) -> rest_of r s.
Proof.
  unfold Json.parse_exp_sign. destruct s as [|c s']; [intros [= _ <-]; auto with rest |].
  destruct (Ascii.eqb c "-"); [intros [= _ <-]; auto with rest |].
  destruct (Ascii.eqb c "+"); intros [= _ <-]; auto with rest.
Qed.

Lemma parse_exp_rest (s r : string) (z : Z) :
  Json.parse_exp s = Some (z, r) -> rest_of r s.
Proof.
  unfold Json.parse_exp. destruct s as [|c s']; [intros [= _ <-]; auto with rest |].
  destruct (Ascii.eqb c "e" || Ascii.eqb c "E"); [| intros [= _ <-]; auto with rest].
  destruct (Json.parse_exp_sign s') as [sg r1] eqn:E1.
  destruct (Json.take_digits r1) as [x r2] eqn:E2.
  destruct (String.eqb x EmptyString); [discriminate |].
  intros [= _ <-]. apply rest_cons.
  eapply rest_trans; [eapply take_digits_rest | eapply parse_exp_sign_rest]; eauto.
Qed.

Lemma parse_number_rest (s : string) (v : value) (r : string) :
  Json.parse_number s = Some (v, r) -> rest_of r s.
Proof.
  unfold Json.parse_number.
  destruct (Json.parse_sign s) as [neg s1] eqn:E1.
  destruct (Json.take_digits s1) as [int s2] eqn:E2.
  destruct (negb (Json.int_ok int)); [discriminate |].
  destruct (Json.parse_frac s2) as [[frac s3]|] eqn:E3; [| discriminate].
  destruct (Json.parse_exp s3) as [[ex s4]|] eqn:E4; [| discriminate].
  destruct (normalize _ _ _) as [m' e']. intros [= _ <-].
  eapply rest_trans; [eapply parse_exp_rest; eauto |].
  eapply rest_trans; [eapply parse_frac_rest; eauto |].
  eapply rest_trans; [eapply take_digits_rest; eauto |].
  eapply parse_sign_rest; eauto.
Qed.

(** Each of the three parsers returns what remains of its input; an
    object ends with its closing brace. *)
Lemma parse_rest (n : nat) :
  (forall s v r, Json.parse_value n s = Some (v, r) -> rest_of r s)
  /\ (forall s acc v r, Json.parse_elements n s acc = Some (v, r) -> rest_of r s)
  /\ (forall s acc v r, Json.parse_members n s acc = Some (v, r) ->
                        exists b, s = b +:+ String "}" r).
Proof.
  induction n as [|n [IHv [IHe IHm]]]; [repeat split; discriminate |].
  split; [| split].
  - intros s v r. cbn [Json.parse_value].
    destruct (skip Json.is_ws s) as [|c r0] eqn:Es; [discriminate |].
    assert (Hs : rest_of (String c r0) s) by (rewrite <- Es; apply rest_skip).
    assert (Hr0 : rest_of r0 s) by (eapply rest_trans; [apply rest_tail | exact Hs]).
    destruct (Ascii.eqb c "{").
    { destruct (skip Json.is_ws r0) as [|d r'] eqn:E0; [discriminate |].
      assert (H1 : rest_of (String d r') r0) by (rewrite <- E0; apply rest_skip).
      destruct (Ascii.eqb d "}").
      - intros [= _ <-]. eapply rest_trans; [eapply rest_skip_cons; eauto | exact Hr0].
      - intros H. apply IHm in H as [b Hb].
        eapply rest_trans; [| exact Hr0].
        eapply rest_trans; [| exact H1].
        exists (b +:+ "}"). rewrite Hb, app_assoc. reflexivity. }
    destruct (Ascii.eqb c "[").
    { destruct (skip Json.is_ws r0) as [|d r'] eqn:E0; [discriminate |].
      assert (H1 : rest_of (String d r') r0) by (rewrite <- E0; apply rest_skip).
      destruct (Ascii.eqb d "]").
      - intros [= _ <-]. eapply rest_trans; [eapply rest_skip_cons; eauto | exact Hr0].
      - intros H. apply IHe in H.
        eapply rest_trans; [exact H |].
        eapply rest_trans; [exact H1 | exact Hr0]. }
    destruct (Ascii.eqb c DQUOTE).
    { destruct (Json.parse_string r0) as [[t rest]|] eqn:E0; [| discriminate].
      intros [= _ <-]. eapply rest_trans; [eapply parse_string_rest; eauto | exact Hr0]. }
    destruct (Ascii.eqb c "t");
      [intros H; eapply rest_trans; [eapply literal_rest; eauto | exact Hs] |].
    destruct (Ascii.eqb c "f");
      [intros H; eapply rest_trans; [eapply literal_rest; eauto | exact Hs] |].
    destruct (Ascii.eqb c "n");
      [intros H; eapply rest_trans; [eapply literal_rest; eauto | exact Hs] |].
    intros H; eapply rest_trans; [eapply parse_number_rest; eauto | exact Hs].
  - intros s acc v r. cbn [Json.parse_elements].
    destruct (Json.parse_value n s) as [[v' r1]|] eqn:E1; [| discriminate].
    apply IHv in E1.
    destruct (skip Json.is_ws r1) as [|d r2] eqn:E2; [discriminate |].
    assert (H2 : rest_of r2 s)
      by (eapply rest_trans; [eapply rest_skip_cons; eauto | exact E1]).
    destruct (Ascii.eqb d ",");
      [intros H; apply IHe in H; eapply rest_trans; eauto |].
    destruct (Ascii.eqb d "]"); [| discriminate].
    now intros [= _ <-].
  - intros s acc v r. cbn [Json.parse_members].
    destruct (skip Json.is_ws s) as [|q r0] eqn:Es; [discriminate |].
    assert (Hr0 : rest_of r0 s) by (eapply rest_skip_cons; eauto).
    destruct (Ascii.eqb q DQUOTE); [| discriminate].
    destruct (Json.parse_string r0) as [[k r1]|] eqn:E1; [| discriminate].
    apply parse_string_rest in E1.
    destruct (skip Json.is_ws r1) as [|d r2] eqn:E2; [discriminate |].
    apply rest_skip_cons in E2.
    destruct (Ascii.eqb d ":"); [| discriminate].
    destruct (Json.parse_value n r2) as [[v' r3]|] eqn:E3; [| discriminate].
    apply IHv in E3.
    destruct (skip Json.is_ws r3) as [|d' r4] eqn:E4; [discriminate |].
    assert (H3 : rest_of r3 s) by eauto using rest_trans.
    destruct (Ascii.eqb d' ",").
    { intros H. apply IHm in H as [b ->].
      assert (H4 : rest_of (b +:+ String "}" r) s)
        by (eapply rest_trans; [eapply rest_skip_cons; eauto | exact H3]).
      destruct H4 as [x ->]. exists (x +:+ b). now rewrite app_assoc. }
    destruct (Ascii.eqb_spec d' "}") as [->|]; [| discriminate].
    intros [= _ <-].
    assert (H4 : rest_of (String "}" r4) s)
      by (eapply rest_trans; [rewrite <- E4; apply rest_skip | exact H3]).
    exact H4.
Qed.

Lemma blank_ws (s : string) : skip Json.is_ws s = EmptyString -> blank s.
Proof.
  induction s as [|c s IH]; simpl; [intros _; apply blank_nil |].
  destruct (Json.is_ws c) eqn:E; [| discriminate].
  intros H. apply blank_cons; [| auto].
  unfold Json.is_ws in E. unfold is_space.
  destruct (Nat.eqb_spec (nat_of_ascii c) 32) as [->|]; [reflexivity |].
  destruct (Nat.eqb_spec (nat_of_ascii c) 9) as [->|]; [reflexivity |].
  destruct (Nat.eqb_spec (nat_of_ascii c) 10) as [->|]; [reflexivity |].
  destruct (Nat.eqb_spec (nat_of_ascii c) 13) as [->|]; [reflexivity | discriminate].
Qed.

(** A JSON text that starts with a brace is an object text followed by
    white space only. *)
Lemma parse_brace_shape (r : string) (v : value) :
  Json.parse (String "{" r) = Some v ->
  exists body ws, r = body +:+ String "}" ws /\ blank ws.
Proof.
  unfold Json.parse.
  destruct (Json.parse_value _ _) as [[v' rest]|] eqn:E; [| discriminate].
  destruct (skip Json.is_ws rest) eqn:Ews; [| discriminate]. intros _.
  apply blank_ws in Ews.
  revert E. generalize (2 * String.length (String "{" r) + 2)%nat. intros [|n]; [discriminate |].
  cbn [Json.parse_value]. change (skip Json.is_ws (String "{" r)) with (String "{" r).
  cbv iota. change (Ascii.eqb "{" "{") with true. cbv iota.
  destruct (skip Json.is_ws r) as [|d r'] eqn:Er; [discriminate |].
  assert (Hr : rest_of (String d r') r) by (rewrite <- Er; apply rest_skip).
  destruct (Ascii.eqb_spec d "}") as [->|].
  - intros [= _ <-]. destruct Hr as [b ->]. eauto.
  - intros H. apply (parse_rest n) in H as [b Hb]. rewrite Hb in Hr.
    destruct Hr as [x ->]. exists (x +:+ b), rest. now rewrite app_assoc.
Qed.

End ConsumeFacts.

(** * The fuel of the JSON parser *)

Module FuelFacts.
Import Str Js Spec StrFacts ConsumeFacts.

Lemma rest_length (r s : string) : rest_of r s -> (String.length r <= String.length s)%nat.
Proof. intros [b ->]. rewrite length_app. lia. Qed.

Lemma skip_length (p : ascii -> bool) (s r : string) (c : ascii) :
  skip p s = String c r -> (String.length r < String.length s)%nat.
Proof.
  intros E. pose proof (rest_length _ _ (rest_skip p s)) as H. rewrite E in H.
  cbn [String.length] in H. lia.
Qed.

(** Beyond twice the length of the text the fuel does not matter. *)
Lemma parse_fuel (f : nat) :
  (forall s f', (2 * String.length s + 1 <= f)%nat -> (2 * String.length s + 1 <= f')%nat ->
                Json.parse_value f s = Json.parse_value f' s)
  /\ (forall s acc f',
         (2 * String.length s + 2 <= f)%nat -> (2 * String.length s + 2 <= f')%nat ->
         Json.parse_elements f s acc = Json.parse_elements f' s acc)
  /\ (forall s acc f',
         (2 * String.length s + 2 <= f)%nat -> (2 * String.length s + 2 <= f')%nat ->
         Json.parse_members f s acc = Json.parse_members f' s acc).
Proof.
  induction f as [|f [IHv [IHe IHm]]]; [repeat split; intros; lia |].
  split; [| split].
  - intros s [|f'] Hf Hf'; [lia |]. cbn [Json.parse_value].
    destruct (skip Json.is_ws s) as [|c r] eqn:E1; [reflexivity |].
    apply skip_length in E1.
    destruct (Ascii.eqb c "{").
    { destruct (skip Json.is_ws r) as [|d r'] eqn:E2; [reflexivity |].
      pose proof (skip_length _ _ _ _ E2) as H2.
      destruct (Ascii.eqb d "}"); [reflexivity |].
      apply IHm; cbn [String.length]; lia. }
    destruct (Ascii.eqb c "[").
    { destruct (skip Json.is_ws r) as [|d r'] eqn:E2; [reflexivity |].
      pose proof (skip_length _ _ _ _ E2) as H2.
      destruct (Ascii.eqb d "]"); [reflexivity |].
      apply IHe; cbn [String.length]; lia. }
    reflexivity.
  - intros s acc [|f'] Hf Hf'; [lia |]. cbn [Json.parse_elements].
    rewrite (IHv s f') by lia.
    destruct (Json.parse_value f' s) as [[v r]|] eqn:Ev; [| reflexivity].
    apply (proj1 (parse_rest f')) in Ev. apply rest_length in Ev.
    destruct (skip Json.is_ws r) as [|d r'] eqn:E2; [reflexivity |].
    apply skip_length in E2.
    destruct (Ascii.eqb d ","); [| reflexivity].
    apply IHe; lia.
  - intros s acc [|f'] Hf Hf'; [lia |]. cbn [Json.parse_members].
    destruct (skip Json.is_ws s) as [|q r] eqn:E1; [reflexivity |].
    apply skip_length in E1.
    destruct (Ascii.eqb q DQUOTE); [| reflexivity].
    destruct (Json.parse_string r) as [[k r1]|] eqn:Ek; [| reflexivity].
    apply parse_string_rest, rest_length in Ek.
    destruct (skip Json.is_ws r1) as [|d r2] eqn:E2; [reflexivity |].
    apply skip_length in E2.
    destruct (Ascii.eqb d ":"); [| reflexivity].
    rewrite (IHv r2 f') by lia.
    destruct (Json.parse_value f' r2) as [[v r3]|] eqn:Ev; [| reflexivity].
    apply (proj1 (parse_rest f')) in Ev. apply rest_length in Ev.
    destruct (skip Json.is_ws r3) as [|d' r4] eqn:E3; [reflexivity |].
    apply skip_length in E3.
    destruct (Ascii.eqb d' ","); [| reflexivity].
    apply IHm; lia.
Qed.

(** The fuel of [Json.parse] is enough: with any more the result is the
    same. *)
Theorem parse_fuel_adequate (text : string) (f : nat) :
  (2 * String.length text + 2 <= f)%nat ->
  Json.parse_value f text = Json.parse_value (2 * String.length text + 2) text.
Proof. intros Hf. apply (proj1 (parse_fuel f)); lia. Qed.

End FuelFacts.

(** * Bare JSON texts and serialised values *)

Module BareFacts.
Import Str Regex Js StrFacts SearchFacts SelectFacts ParseFacts ConsumeFacts Spec.

Lemma trimEnd_blank (ws : string) : blank ws -> trimEnd ws = EmptyString.
Proof.
  induction ws as [|c ws IH]; [reflexivity |]. intros H. simpl.
  rewrite IH by (intros d Hd; apply H; now right).
  rewrite (H c) by now left. reflexivity.
Qed.

Lemma trimEnd_blank_tail (a ws : string) : blank ws -> trimEnd (a +:+ ws) = trimEnd a.
Proof.
  intros H. induction a as [|c a IH]; simpl; [now apply trimEnd_blank | now rewrite IH].
Qed.

Lemma trimEnd_idem (s : string) : trimEnd (trimEnd s) = trimEnd s.
Proof.
  induction s as [|c s IH]; [reflexivity |]. simpl.
  destruct (trimEnd s) as [|d t] eqn:E.
  - destruct (is_space c) eqn:Ec; [reflexivity |]. simpl. now rewrite Ec.
  - change (trimEnd (String c (String d t)))
      with (match trimEnd (String d t) with
            | EmptyString => if is_space c then EmptyString else String c EmptyString
            | String x y => String c (String x y)
            end).
    now rewrite IH.
Qed.

Lemma trimStart_head (c : ascii) (s : string) :
  is_space c = false -> trimStart (String c s) = String c s.
Proof. intros H. simpl. now rewrite H. Qed.

Lemma trimStart_nonblank (s : string) :
  trimStart s = EmptyString \/ exists c r, trimStart s = String c r /\ is_space c = false.
Proof.
  induction s as [|c s IH]; simpl; [now left |].
  destruct (is_space c) eqn:E; [exact IH | right; eauto].
Qed.

Lemma trimEnd_head (c : ascii) (s : string) :
  is_space c = false -> exists r, trimEnd (String c s) = String c r.
Proof.
  intros H. simpl. destruct (trimEnd s); [rewrite H |]; eauto.
Qed.

Lemma trim_idem (s : string) : trim (trim s) = trim s.
Proof.
  unfold trim. destruct (trimStart_nonblank s) as [->|[c [r [-> Hc]]]]; [reflexivity |].
  destruct (trimEnd_head c r Hc) as [r' E]. rewrite E.
  rewrite trimStart_head by assumption. rewrite <- E. apply trimEnd_idem.
Qed.

(** A trimmed text that parses from an opening brace ends with the
    closing brace of that object. *)
Lemma trimmed_object_shape (text r : string) (v : value) :
  trim text = String "{" r -> Json.parse (trim text) = Some v ->
  exists body, trim text = String "{" (body +:+ "}").
Proof.
  intros E Hp. rewrite E in Hp.
  destruct (parse_brace_shape r v Hp) as [body [ws [-> Hws]]].
  exists body.
  assert (Ht : trimEnd (trim text) = trim text) by (unfold trim; apply trimEnd_idem).
  rewrite <- Ht, E.
  replace (String "{" (body +:+ String "}" ws)) with (String "{" (body +:+ "}") +:+ ws)
    by (simpl; rewrite app_assoc; reflexivity).
  rewrite trimEnd_blank_tail by assumption.
  change (String "{" (body +:+ "}")) with (String "{" body +:+ "}").
  now apply trimEnd_last.
Qed.

Lemma brace_pair_trim (text body : string) :
  trim text = String "{" (body +:+ "}") -> brace_pair text body.
Proof.
  intros E. destruct (trim_split text) as [a [b [Ht [Ha Hb]]]].
  exists a, b. split.
  - rewrite Ht at 1. rewrite E. simpl. rewrite app_assoc. reflexivity.
  - split; apply blank_no; auto.
Qed.

(** *** The characters of a serialised value *)

Lemma free_app (a b : string) : ~ occurs NL a -> ~ occurs NL b -> ~ occurs NL (a +:+ b).
Proof. rewrite occurs_app. tauto. Qed.

Lemma free_cons (c : ascii) (s : string) :
  c <> NL -> ~ occurs NL s -> ~ occurs NL (String c s).
Proof. intros Hc Hs [H|H]; auto. Qed.

Lemma free_uint (d : Decimal.uint) : ~ occurs NL (NilEmpty.string_of_uint d).
Proof. induction d; simpl; try (apply free_cons; [discriminate | assumption]). intros []. Qed.

Lemma free_digits (z : Z) : ~ occurs NL (digits z).
Proof.
  unfold digits, NilZero.string_of_int, NilZero.string_of_uint.
  destruct (Z.to_int z) as [d|d]; [| apply free_cons; [discriminate |]];
    destruct d; try apply (free_uint (_ _)); apply free_cons; try discriminate; intros [].
Qed.

Lemma free_zeros (n : nat) : ~ occurs NL (zeros n).
Proof. induction n; simpl; [intros [] | apply free_cons; [discriminate | assumption]]. Qed.

Lemma free_sub (s : string) (a b : Z) : ~ occurs NL s -> ~ occurs NL (substring s a b).
Proof. intros H Hs. apply H. eapply occurs_substring'. exact Hs. Qed.

Lemma free_number (m e : Z) : ~ occurs NL (number_to_string m e).
Proof.
  unfold number_to_string. pose proof (free_digits (Z.abs m)) as Hd.
  assert (Hs : forall a b, ~ occurs NL (substring (digits (Z.abs m)) a b))
    by (intros; now apply free_sub).
  assert (Hf : forall a, ~ occurs NL (substringFrom (digits (Z.abs m)) a))
    by (intros; now apply free_sub).
  repeat match goal with
         | |- ~ occurs NL (if ?c then _ else _) => destruct c
         | |- ~ occurs NL (_ +:+ _) => apply free_app
         | |- ~ occurs NL (String _ _) => apply free_cons; [discriminate |]
         | |- ~ occurs NL EmptyString => intros []
         | |- ~ occurs NL (let _ := _ in _) => cbv zeta
         | |- _ => first [apply free_digits | apply free_zeros | apply Hs | apply Hf]
         end.
Qed.

Lemma free_escape_char (c : ascii) : ~ occurs NL (Json.escape_char c).
Proof.
  destruct c as [[] [] [] [] [] [] [] []]; vm_compute; intuition discriminate.
Qed.

Lemma free_escape (s : string) : ~ occurs NL (Json.escape s).
Proof.
  induction s as [|c s IH]; cbn [Json.escape]; [intros [] |].
  apply free_app; [apply free_escape_char | exact IH].
Qed.

Lemma free_quote (s : string) : ~ occurs NL (Json.quote s).
Proof.
  unfold Json.quote. apply free_cons; [discriminate |].
  apply free_app; [apply free_escape |]. apply free_cons; [discriminate | intros []].
Qed.

Lemma free_join (sep : string) (l : list string) :
  ~ occurs NL sep -> Forall (fun s => ~ occurs NL s) l -> ~ occurs NL (join sep l).
Proof.
  intros Hsep H. induction H as [|x l Hx Hl IH]; cbn [join]; [intros [] |].
  destruct l as [|y l]; [exact Hx |].
  apply free_app; [exact Hx |]. apply free_app; [exact Hsep | exact IH].
Qed.

Lemma free_comma : ~ occurs NL ",".
Proof. apply free_cons; [discriminate | intros []]. Qed.

(** No line feed is written by JSON.stringify. *)
Lemma free_stringify : forall (v : value) (t : string),
    Json.stringify v = Some t -> ~ occurs NL t.
Proof.
  fix IH 1. intros v t. destruct v as [| |b|m e|s|items|fields]; cbn [Json.stringify].
  - discriminate.
  - intros [= <-]. vm_compute. intuition discriminate.
  - destruct b; intros [= <-]; vm_compute; intuition discriminate.
  - intros [= <-]. apply free_number.
  - intros [= <-]. apply free_quote.
  - intros [= <-]. apply free_cons; [discriminate |].
    apply free_app; [| apply free_cons; [discriminate | intros []]].
    apply free_join; [apply free_comma |].
    induction items as [|x items IHi]; cbn [map]; constructor; [| exact IHi].
    destruct (Json.stringify x) as [tx|] eqn:E; [exact (IH x tx E) |].
    vm_compute. intuition discriminate.
  - intros [= <-]. apply free_cons; [discriminate |].
    apply free_app; [| apply free_cons; [discriminate | intros []]].
    apply free_join; [apply free_comma |].
    induction fields as [|[k x] fields IHf]; cbn [flat_map]; [constructor |].
    cbn [fst snd].
    destruct (Json.stringify x) as [tx|] eqn:E; [| exact IHf].
    cbn [app]. constructor; [| exact IHf].
    apply free_cons; [discriminate |].
    apply free_app;
      [apply free_app; [apply free_escape | apply free_cons; [discriminate | intros []]] |].
    apply free_cons; [discriminate |]. exact (IH x tx E).
Qed.

Lemma match_fence_free (t : string) : ~ occurs NL t -> match_fence t = None.
Proof.
  intros H. unfold match_fence.
  destruct (Z.eqb_spec (indexOf t fence_open) (-1)) as [|Hi]; [reflexivity |].
  destruct (indexOf_found _ _ Hi) as [p [q [-> _]]].
  exfalso. apply H. rewrite !occurs_app. right. left.
  vm_compute. tauto.
Qed.

Lemma stringify_object_shape (fields : list (string * value)) (t : string) :
  Json.stringify (VObj fields) = Some t -> exists body, t = String "{" (body +:+ "}").
Proof. cbn [Json.stringify]. intros [= <-]. eauto. Qed.

End BareFacts.

(** * The chunked loop *)

Module ChunkFacts.
Import Spec.

Lemma for_chunks_run {W A St} (fuel size i : nat) (items : list A)
    (body : list A -> St -> ST W St) (st : St) (w : W) :
  for_chunks fuel size i items body st w
  = run_chunks body (chunks_from fuel size i items) st w.
Proof.
  revert i st w. induction fuel as [|fuel IH]; intros i st w; [reflexivity |].
  cbn [for_chunks chunks_from]. destruct (i <? length items)%nat; [| reflexivity].
  cbn [run_chunks]. unfold bind. destruct (body _ st w) as [w' [st'|e]]; [apply IH | reflexivity].
Qed.

Lemma run_chunks_app {W A St} (body : list A -> St -> ST W St)
    (a b : list (list A)) (st : St) (w : W) :
  run_chunks body (a ++ b) st w
  = match run_chunks body a st w with
    | (w1, Ok st1) => run_chunks body b st1 w1
    | (w1, Throw e) => (w1, Throw e)
    end.
Proof.
  revert st w. induction a as [|c a IH]; intros st w; [reflexivity |].
  cbn [app run_chunks]. unfold bind. destruct (body c st w) as [w' [st'|e]]; [apply IH | reflexivity].
Qed.

(** The chunks are the slices at the multiples of the size. *)
Lemma chunks_from_lookup {A} (fuel size i k : nat) (items : list A) (c : list A) :
  chunks_from fuel size i items !! k = Some c ->
  (i + k * size < length items)%nat /\ c = take size (drop (i + k * size) items).
Proof.
  revert i k. induction fuel as [|fuel IH]; intros i k; [discriminate |].
  cbn [chunks_from]. destruct (Nat.ltb_spec i (length items)); [| discriminate].
  destruct k as [|k]; cbn [lookup list_lookup].
  - intros [= <-]. rewrite Nat.add_0_r. split; [assumption |].
    unfold slice. f_equal. lia.
  - intros H'. apply IH in H' as [Hlt ->].
    replace (i + size + k * size)%nat with (i + S k * size)%nat in * by lia. auto.
Qed.

Lemma chunks_from_concat {A} (fuel size i : nat) (items : list A) :
  (0 < size)%nat -> (length items <= fuel + i)%nat ->
  concat (chunks_from fuel size i items) = drop i items.
Proof.
  intros Hs. revert i. induction fuel as [|fuel IH]; intros i Hf.
  - cbn. symmetry. apply drop_ge. lia.
  - cbn [chunks_from]. destruct (Nat.ltb_spec i (length items)).
    + cbn [concat]. rewrite IH by lia. unfold slice.
      replace (i + size - i)%nat with size by lia.
      rewrite <- drop_drop. apply take_drop.
    + cbn. symmetry. apply drop_ge. lia.
Qed.

Lemma chunks_from_length {A} (fuel size i : nat) (items : list A) :
  (0 < size)%nat -> (length items <= fuel + i)%nat ->
  length (chunks_from fuel size i items) = ((length items - i + size - 1) / size)%nat.
Proof.
  intros Hs. revert i. induction fuel as [|fuel IH]; intros i Hf.
  - cbn. symmetry. apply Nat.div_small. lia.
  - cbn [chunks_from]. destruct (Nat.ltb_spec i (length items)).
    + cbn [length]. rewrite IH by lia.
      destruct (Nat.le_gt_cases (i + size) (length items)).
      * replace (length items - i + size - 1)%nat
          with (length items - (i + size) + size - 1 + 1 * size)%nat by lia.
        rewrite Nat.div_add by lia. lia.
      * replace (length items - (i + size) + size - 1)%nat with (size - 1)%nat by lia.
        rewrite (Nat.div_small (size - 1)) by lia.
        apply (Nat.div_unique _ _ 1 (length items - i - 1)); lia.
    + cbn. symmetry. apply Nat.div_small. lia.
Qed.

(** The chunks partition the sequence: they are contiguous, their
    concatenation is the sequence, the chunk of index [k] starts at
    [k * size] and has [size] elements or, if it is the last, what
    remains; there are as many as the quotient rounded up. *)
Lemma chunks_partition {A} (size : nat) (items : list A) :
  (0 < size)%nat ->
  concat (chunks size items) = items
  /\ length (chunks size items) = ((length items + size - 1) / size)%nat
  /\ (forall k c, chunks size items !! k = Some c ->
                  c = take size (drop (k * size) items)
                  /\ length c = Nat.min size (length items - k * size)
                  /\ (0 < length c)%nat).
Proof.
  intros Hs. unfold chunks. split; [| split].
  - rewrite chunks_from_concat by lia. reflexivity.
  - rewrite chunks_from_length by lia. f_equal. lia.
  - intros k c H. apply chunks_from_lookup in H as [Hlt ->]. cbn in *.
    split; [reflexivity |]. rewrite length_take, length_drop. lia.
Qed.

End ChunkFacts.

(** * The rounds of the two loops *)

Module LoopFacts.
Import Str Js ParseFacts ChunkFacts Spec.

Lemma safeParseJSON_extract (env : Env) (text : string) (w : World) :
  safeParseJSON env text w =
    match extract env text with
    | Ok v => (w, Ok v)
    | Throw e => (logged text w, Throw e)
    end.
Proof. apply safeParseJSON_run. Qed.

Lemma getGenAI_no_key (env : Env) (w : World) :
  getApiKey env = EmptyString -> getGenAI env w = (w, Throw ConfigurationError).
Proof. intros H. unfold getGenAI. now rewrite H. Qed.

Lemma getGenAI_key (env : Env) (w : World) :
  getApiKey env <> EmptyString ->
  exists w0, getGenAI env w = (w0, Ok (trim (getApiKey env))) /\ calls w0 = calls w.
Proof.
  intros H. unfold getGenAI.
  destruct (String.eqb_spec (getApiKey env) EmptyString); [contradiction |].
  unfold bind, print, ret. destruct (String.eqb (getApiKey env) "PLACEHOLDER_API_KEY"); eauto.
Qed.

Lemma getGenAI_calls (env : Env) (w w' : World) (r : result string) :
  getGenAI env w = (w', r) -> calls w' = calls w.
Proof.
  destruct (String.eqb_spec (getApiKey env) EmptyString) as [E|E].
  - rewrite getGenAI_no_key by assumption. now intros [= <- _].
  - destruct (getGenAI_key env w E) as [w0 [-> Hc]]. now intros [= <- _].
Qed.


Lemma repair_chunk_round (env : Env) (key rules : string) (chunk acc : list value)
    (w : World) (p : string) (a : list value) :
  repair_round env key rules (calls w) chunk p a ->
  exists w', repair_chunk env key rules chunk acc w = (w', Ok (acc ++ a))
             /\ calls w' = calls w ++ [p].
Proof.
  intros [triples [text [v [Et [-> [Er [Ex Ei]]]]]]].
  unfold repair_chunk, bind, starting, print, lift, generateContent, ret. cbv beta iota. cbn [calls console].
  rewrite Et, Er, safeParseJSON_extract, Ex, Ei. eauto.
Qed.

(** A round sends at most one prompt, whatever its outcome. *)
Lemma repair_chunk_calls (env : Env) (key rules : string) (chunk acc : list value)
    (w w' : World) (r : result (list value)) :
  repair_chunk env key rules chunk acc w = (w', r) ->
  calls w' = calls w \/ exists p, calls w' = calls w ++ [p].
Proof.
  unfold repair_chunk, bind, starting, print, lift, generateContent, ret. cbv beta iota. cbn [calls console].
  destruct (map_result (triple env) chunk) as [triples|e]; [| intros [= <- _]; now left].
  destruct (remote env key (calls w) _) as [text|e]; [| intros [= <- _]; right; cbn; eauto].
  rewrite safeParseJSON_extract.
  destruct (extract env text) as [v|e]; [| intros [= <- _]; right; cbn; eauto].
  destruct (iterate env v) as [a|e]; intros [= <- _]; right; cbn; eauto.
Qed.


Lemma repair_run_rounds (env : Env) (key rules : string) (cs : list (list value)) :
  forall (acc : list value) (w : World) (ps : list string) (answers : list (list value)),
    rounds (repair_round env key rules) (calls w) cs ps answers ->
    exists w', run_chunks (repair_chunk env key rules) cs acc w
               = (w', Ok (acc ++ concat answers))
               /\ calls w' = calls w ++ ps.
Proof.
  induction cs as [|c cs IH]; intros acc w ps answers H; inversion H; subst; cbn [run_chunks].
  - exists w. cbn. rewrite !app_nil_r. auto.
  - destruct (repair_chunk_round env key rules c acc w p a) as [w1 [E Hc]]; [assumption |].
    unfold bind. rewrite E.
    destruct (IH (acc ++ a) w1 ps0 answers0) as [w' [E' Hc']]; [now rewrite Hc |].
    exists w'. rewrite E', Hc', Hc. cbn [concat]. rewrite <- !app_assoc. auto.
Qed.


(** The round of index [k] sees exactly the prompts of the rounds before
    it. *)
Lemma rounds_lookup {A B} (round : list string -> A -> string -> B -> Prop)
    (hist : list string) (cs : list A) (ps : list string) (answers : list B) :
  rounds round hist cs ps answers ->
  forall k c, cs !! k = Some c ->
    exists p a, ps !! k = Some p /\ answers !! k = Some a
                /\ round (hist ++ take k ps) c p a.
Proof.
  induction 1 as [|hist c0 cs p0 ps a0 answers Hr Hrs IH]; intros k c; [discriminate |].
  destruct k as [|k]; cbn.
  - intros [= <-]. exists p0, a0. rewrite app_nil_r. auto.
  - intros Hk. destruct (IH k c Hk) as [p [a [Hp [Ha Hround]]]].
    exists p, a. rewrite <- app_assoc in Hround. auto.
Qed.

(** *** evolveWords *)

Lemma evolve_chunk_ok (env : Env) (key : string) (rules : list SoundChangeRule)
    (chunk lex : list value) (w w' : World) (lex' : list value) :
  evolve_chunk env key rules chunk lex w = (w', Ok lex') ->
  exists p rs, evolve_round env key rules (calls w) chunk p rs
               /\ calls w' = calls w ++ [p]
               /\ forEach (evolve_one env) rs lex = Ok lex'.
Proof.
  unfold evolve_chunk, bind, starting, print, lift, generateContent, ret, throw. cbv beta iota. cbn [calls console].
  destruct (map_result _ chunk) as [ws|e] eqn:Et; [| discriminate].
  destruct (remote env key (calls w) _) as [text|e] eqn:Er; [| discriminate].
  rewrite safeParseJSON_extract.
  destruct (extract env text) as [v|e] eqn:Ex; [| discriminate].
  destruct v; try discriminate.
  destruct (forEach (evolve_one env) items lex) as [l|e] eqn:Ef; [| discriminate].
  intros [= <- <-]. cbn. eexists _, items. split; [| split; [reflexivity | exact Ef]].
  exists ws, text. auto.
Qed.

Lemma evolve_chunk_round (env : Env) (key : string) (rules : list SoundChangeRule)
    (chunk lex lex' : list value) (w : World) (p : string) (rs : list value) :
  evolve_round env key rules (calls w) chunk p rs ->
  forEach (evolve_one env) rs lex = Ok lex' ->
  exists w', evolve_chunk env key rules chunk lex w = (w', Ok lex')
             /\ calls w' = calls w ++ [p].
Proof.
  intros [ws [text [Et [-> [Er Ex]]]]] Ef.
  unfold evolve_chunk, bind, starting, print, lift, generateContent, ret. cbv beta iota. cbn [calls console].
  rewrite Et, Er, safeParseJSON_extract, Ex, Ef. eauto.
Qed.

Lemma evolve_chunk_calls (env : Env) (key : string) (rules : list SoundChangeRule)
    (chunk lex : list value) (w w' : World) (r : result (list value)) :
  evolve_chunk env key rules chunk lex w = (w', r) ->
  calls w' = calls w \/ exists p, calls w' = calls w ++ [p].
Proof.
  unfold evolve_chunk, bind, starting, print, lift, generateContent, ret, throw. cbv beta iota. cbn [calls console].
  destruct (map_result _ chunk) as [ws|e]; [| intros [= <- _]; now left].
  destruct (remote env key (calls w) _) as [text|e]; [| intros [= <- _]; right; cbn; eauto].
  rewrite safeParseJSON_extract.
  destruct (extract env text) as [v|e]; [| intros [= <- _]; right; cbn; eauto].
  destruct v; intros [= <- _]; right; cbn; eauto.
Qed.

Lemma forEach_app {A St} (f : St -> A -> result St) (a b : list A) (st : St) :
  forEach f (a ++ b) st = bind_result (forEach f a st) (forEach f b).
Proof.
  revert st. induction a as [|x a IH]; intros st; [reflexivity |].
  cbn [app forEach]. destruct (f st x); [apply IH | reflexivity].
Qed.


Lemma evolve_run_rounds (env : Env) (key : string) (rules : list SoundChangeRule)
    (cs : list (list value)) :
  forall (lex lex' : list value) (w : World) (ps : list string)
         (answers : list (list value)),
    rounds (evolve_round env key rules) (calls w) cs ps answers ->
    forEach (evolve_one env) (concat answers) lex = Ok lex' ->
    exists w', run_chunks (evolve_chunk env key rules) cs lex w = (w', Ok lex')
               /\ calls w' = calls w ++ ps.
Proof.
  induction cs as [|c cs IH]; intros lex lex' w ps answers H; inversion H; subst;
    cbn [run_chunks concat].
  - cbn [forEach]. intros [= <-]. exists w. rewrite app_nil_r. auto.
  - rewrite forEach_app.
    destruct (forEach (evolve_one env) a lex) as [lex1|e] eqn:Ef; cbn [bind_result];
      [| discriminate].
    intros Hrest.
    destruct (evolve_chunk_round env key rules c lex lex1 w p a) as [w1 [E Hc]];
      [assumption | assumption |].
    unfold bind. rewrite E.
    destruct (IH lex1 lex' w1 ps0 answers0) as [w' [E' Hc']];
      [now rewrite Hc | assumption |].
    exists w'. rewrite E', Hc', Hc, <- app_assoc. auto.
Qed.

(** A chunk that cannot be answered makes its round throw, after its
    prompt was sent. *)
Lemma repair_chunk_fault (env : Env) (key rules : string) (chunk acc : list value)
    (w : World) (p : string) (e : exn) :
  repair_fault env key rules (calls w) chunk p e ->
  exists w', repair_chunk env key rules chunk acc w = (w', Throw e)
             /\ calls w' = calls w ++ [p].
Proof.
  intros [triples [Et [-> Hf]]].
  unfold repair_chunk, bind, starting, print, lift, generateContent, ret.
  cbv beta iota. cbn [calls console]. rewrite Et.
  destruct Hf as [Er|[text [Er Ex]]]; rewrite Er; [eauto |].
  rewrite safeParseJSON_extract, Ex. eauto.
Qed.

Lemma evolve_chunk_fault (env : Env) (key : string) (rules : list SoundChangeRule)
    (chunk lex : list value) (w : World) (p : string) (e : exn) :
  evolve_fault env key rules (calls w) chunk p e ->
  exists w', evolve_chunk env key rules chunk lex w = (w', Throw e)
             /\ calls w' = calls w ++ [p].
Proof.
  intros [ws [Et [-> Hf]]].
  unfold evolve_chunk, bind, starting, print, lift, generateContent, ret.
  cbv beta iota. cbn [calls console]. rewrite Et.
  destruct Hf as [Er|[text [Er Ex]]]; rewrite Er; [eauto |].
  rewrite safeParseJSON_extract, Ex. eauto.
Qed.

End LoopFacts.

(** * The claims about the tolerant parser *)

Module ParserClaims.
Import Str Regex Js StrFacts SearchFacts SelectFacts ParseFacts ConsumeFacts BareFacts Spec Demo.

Lemma not_occurs_by_index (c : ascii) (s : string) :
  indexOf s (String c EmptyString) = -1 -> ~ occurs c s.
Proof.
  intros H Hc. apply occurs_split in Hc as [a [b ->]].
  pose proof (indexOf_occ (String c EmptyString) a b) as Hb. simpl in Hb. lia.
Qed.

Lemma no_fence_by_match (text : string) :
  match_fence text = None -> forall inner, ~ fenced text inner.
Proof. intros H inner Hf. apply match_fence_complete in Hf. congruence. Qed.

(** C6: a text with no opening brace and no opening bracket (hence with
    no brace pair, whether or not it holds a fenced block) is rejected:
    safeParseJSON writes the raw text to the console as a diagnostic and
    throws the error of the clean-up, a MalformedResponse. No value is
    returned. *)
Theorem safeParseJSON_rejects_text_without_json
    (env : Env) (text : string) (w : World) :
  ~ occurs "{" text -> ~ occurs "[" text ->
  safeParseJSON env text w = (logged text w, Throw no_start)
  /\ MalformedResponse no_start.
Proof.
  intros Hb Hk. split; [| now left].
  rewrite safeParseJSON_run, clean_no_start; [reflexivity | |];
    intros H; apply occurs_select in H; contradiction.
Qed.

Lemma safeParseJSON_rejects_text_without_json_witness :
  safeParseJSON (env_saying prose) prose empty_world
  = (logged prose empty_world, Throw no_start)
  /\ MalformedResponse no_start.
Proof.
  apply (safeParseJSON_rejects_text_without_json (env_saying prose) prose empty_world);
    apply not_occurs_by_index; reflexivity.
Defined.

Lemma keeps_string_or_empty (x : value) : keeps_string x (string_or_empty x).
Proof.
  split.
  - now intros t ->.
  - intros H. destruct x; try reflexivity. now elim (H s).
Qed.

Lemma keeps_array_or_empty (x : value) : keeps_array x (array_or_empty x).
Proof.
  split.
  - now intros t ->.
  - intros H. destruct x; try reflexivity. now elim (H items).
Qed.

(** The normaliser on a value that is neither null nor undefined. *)
Lemma normalizePhonology_defined (env : Env) (v : value) :
  v <> VNull -> v <> VUndefined ->
  normalizePhonology env v =
    Ok {| name := string_or_empty (prop v "name");
          description := string_or_empty (prop v "description");
          consonants := array_or_empty (prop v "consonants");
          vowels := array_or_empty (prop v "vowels");
          syllableStructure := string_or_empty (prop v "syllableStructure");
          bannedCombinations := array_or_empty (prop v "bannedCombinations") |}.
Proof. intros H1 H2. destruct v; try reflexivity; congruence. Qed.

(** C4: on every value that safeParseJSON extracts, the normaliser does
    not fail and returns a configuration in which each of the three
    string fields is the source property if that is a string and the
    empty string otherwise, and each of the three sequence fields is the
    source property if that is an array and the empty sequence otherwise;
    safeParsePhonologyConfig returns that configuration. The empty object
    gives the all-empty configuration, and in an object with a number for
    name and a string for consonants both default while the well-typed
    vowels are kept. *)
Theorem normalizePhonology_total_and_fieldwise
    (env : Env) (text : string) (w w' : World) (v : value) :
  safeParseJSON env text w = (w', Ok v) ->
  (exists cfg,
      normalizePhonology env v = Ok cfg
      /\ safeParsePhonologyConfig env text w = (w', Ok cfg)
      /\ keeps_string (prop v "name") (name cfg)
      /\ keeps_string (prop v "description") (description cfg)
      /\ keeps_string (prop v "syllableStructure") (syllableStructure cfg)
      /\ keeps_array (prop v "consonants") (consonants cfg)
      /\ keeps_array (prop v "vowels") (vowels cfg)
      /\ keeps_array (prop v "bannedCombinations") (bannedCombinations cfg))
  /\ normalizePhonology env (VObj []) = Ok empty_phonology
  /\ normalizePhonology env
       (VObj [("name", VNum 5 0); ("consonants", VStr "not-array");
              ("vowels", VArr [VStr "a"])])
     = Ok {| name := EmptyString; description := EmptyString; consonants := [];
             vowels := [VStr "a"]; syllableStructure := EmptyString;
             bannedCombinations := [] |}.
Proof.
  intros H. split; [| split; reflexivity].
  assert (Hv : v <> VNull /\ v <> VUndefined).
  { destruct (safeParseJSON_container _ _ _ _ _ H) as [[f ->]|[l ->]]; split; discriminate. }
  destruct Hv as [H1 H2].
  eexists. split; [apply normalizePhonology_defined; assumption |].
  split.
  - unfold safeParsePhonologyConfig, try_catch, bind, lift. rewrite H.
    now rewrite normalizePhonology_defined.
  - cbn [name description consonants vowels syllableStructure bannedCombinations].
    repeat split; try apply keeps_string_or_empty; apply keeps_array_or_empty.
Qed.

Lemma normalizePhonology_total_and_fieldwise_witness :
  exists cfg,
    normalizePhonology (env_saying bare_object)
      (VObj [("name", VStr "Elvish"); ("vowels", VArr [VStr "a"; VStr "e"])]) = Ok cfg
    /\ name cfg = "Elvish" /\ consonants cfg = [] /\ vowels cfg = [VStr "a"; VStr "e"].
Proof.
  destruct (normalizePhonology_total_and_fieldwise (env_saying bare_object) bare_object
              empty_world empty_world
              (VObj [("name", VStr "Elvish"); ("vowels", VArr [VStr "a"; VStr "e"])])
              eq_refl) as [[cfg [Hn [_ [[Hname _] [_ [_ [[_ Hc] [[Hv _] _]]]]]]]] _].
  exists cfg. split; [exact Hn |]. split; [| split].
  - apply Hname. reflexivity.
  - apply Hc. intros items. discriminate.
  - apply Hv. reflexivity.
Defined.

Lemma select_fenced (text inner : string) :
  fenced text inner -> inner <> EmptyString -> select text = inner.
Proof.
  intros Hf Hne. unfold select. rewrite (match_fence_complete _ _ Hf).
  destruct inner; [contradiction | reflexivity].
Qed.

Lemma select_not_fenced (text : string) :
  (forall inner, fenced text inner -> inner = EmptyString) ->
  select text = select_unfenced text.
Proof.
  intros H. unfold select.
  destruct (match_fence text) as [[|c inner]|] eqn:E; try reflexivity.
  apply match_fence_sound, H in E. discriminate.
Qed.

(** C1, as the code has it: safeParseJSON selects exactly one candidate,
    by the first of the four heuristics whose pattern is present: (1)
    the content of the first fenced block tagged as JSON when there is
    one and it is not empty, (2) else the text from the first opening
    brace to the last closing brace when the former precedes the latter,
    (3) else the first match of the loose expression, which at that
    point never matches, (4) else the trimmed text. That candidate alone
    is cleaned and parsed: a later heuristic is tried when the pattern
    of the earlier one is absent, not when its candidate fails to
    parse. *)
Theorem safeParseJSON_selects_one_candidate (env : Env) (text : string) :
  (forall inner, fenced text inner -> inner <> EmptyString -> select text = inner)
  /\ ((forall inner, fenced text inner -> inner = EmptyString) ->
      forall mid, brace_pair text mid -> select text = String "{" (mid +:+ "}"))
  /\ ((forall inner, fenced text inner -> inner = EmptyString) ->
      (forall mid, ~ brace_pair text mid) ->
      match_loose text = None /\ select text = trim text)
  /\ (forall w,
        safeParseJSON env text w =
          match bind_result (clean (select text)) (JSON_parse env) with
          | Ok v => (w, Ok v)
          | Throw e => (logged text w, Throw e)
          end).
Proof.
  split; [apply select_fenced |].
  split; [intros Hf mid Hm; rewrite select_not_fenced by assumption;
          now apply select_unfenced_braces |].
  split; [intros Hf Hm; rewrite select_not_fenced by assumption;
          now apply select_unfenced_plain |].
  apply safeParseJSON_run.
Qed.

Lemma safeParseJSON_selects_one_candidate_witness :
  select fenced_array = Json.dq "[{'a':1},{'b':2}]"
  /\ select bare_object = Json.dq "{'name':'Elvish','vowels':['a','e']}"
  /\ select prose = prose.
Proof.
  destruct (safeParseJSON_selects_one_candidate (env_saying prose) fenced_array)
    as [H1 _].
  destruct (safeParseJSON_selects_one_candidate (env_saying prose) bare_object)
    as [_ [H2 _]].
  destruct (safeParseJSON_selects_one_candidate (env_saying prose) prose)
    as [_ [_ [H3 _]]].
  assert (Hnone : forall text, match_fence text = None ->
                  forall inner, fenced text inner -> inner = EmptyString).
  { intros text E inner Hf. now elim (no_fence_by_match text E inner). }
  split; [| split].
  - apply H1; [apply match_fence_sound; reflexivity | discriminate].
  - apply (H2 (Hnone bare_object eq_refl) (Json.dq "'name':'Elvish','vowels':['a','e']")).
    exists " ", " ". split; [reflexivity |].
    split; apply not_occurs_by_index; reflexivity.
  - apply (H3 (Hnone prose eq_refl)).
    intros mid [pre [post [E _]]].
    assert (Ho : occurs "{" prose)
      by (rewrite E; apply occurs_app; right; now left).
    revert Ho. apply not_occurs_by_index. reflexivity.
Defined.

(** C1 as stated fails: the fenced block of this text does not parse and
    its brace pair does, so the contract read literally yields the
    object, while safeParseJSON stops at the fenced block and throws. *)
Lemma safeParseJSON_does_not_fall_through :
  extractJSON_spec junk_then_object = Some (VObj [("a", VNum 1 0)])
  /\ safeParseJSON (env_saying junk_then_object) junk_then_object empty_world
     = (logged junk_then_object empty_world, Throw no_start).
Proof. split; reflexivity. Qed.

(** A fenced block that is present but empty is passed over: the braces
    that follow it are taken. *)
Lemma safeParseJSON_skips_empty_fence :
  fenced empty_fence_then_object EmptyString
  /\ safeParseJSON (env_saying prose) empty_fence_then_object empty_world
     = (empty_world, Ok (VObj [("a", VNum 1 0)])).
Proof. split; [apply match_fence_sound |]; reflexivity. Qed.

Lemma safeParseJSON_object_text (env : Env) (t body : string) (v : value) (w : World) :
  (forall inner, ~ fenced t inner) ->
  trim t = String "{" (body +:+ "}") ->
  Json.parse (trim t) = Some v ->
  safeParseJSON env t w = (w, Ok v).
Proof.
  intros Hf E Hp. rewrite safeParseJSON_run.
  rewrite select_not_fenced by (intros inner H; now elim (Hf inner)).
  rewrite (select_unfenced_braces t body) by now apply brace_pair_trim.
  rewrite clean_braces. cbn [bind_result]. unfold JSON_parse.
  now rewrite <- E, Hp.
Qed.

(** C7, as the code has it: a text with no fenced block whose trimmed
    form is valid JSON is returned as the value JSON.parse gives for it
    when that form starts with an opening brace, and also when it starts
    with an opening bracket and the text has no brace pair. When the
    value is an object, safeParseJSON applied to its serialisation
    returns the same value, provided JSON.parse inverts JSON.stringify at
    that value. *)
Theorem safeParseJSON_bare_json
    (env : Env) (text : string) (v : value) (w : World) :
  (forall inner, ~ fenced text inner) ->
  Json.parse (trim text) = Some v ->
  startsWith (trim text) "{" = true
  \/ (startsWith (trim text) "[" = true /\ forall mid, ~ brace_pair text mid) ->
  safeParseJSON env text w = (w, Ok v)
  /\ (forall t, startsWith (trim text) "{" = true ->
                Json.stringify v = Some t -> Json.parse t = Some v ->
                safeParseJSON env t w = (w, Ok v)).
Proof.
  intros Hf Hp Hshape. split.
  - destruct Hshape as [Hb|[Hk Hno]].
    + apply startsWith_char in Hb as [r Hr].
      destruct (trimmed_object_shape text r v Hr Hp) as [body Hbody].
      now apply safeParseJSON_object_text with (body := body).
    + rewrite safeParseJSON_run.
      rewrite select_not_fenced by (intros inner H; now elim (Hf inner)).
      destruct (select_unfenced_plain text Hno) as [_ ->].
      unfold clean. rewrite trim_idem, Hk, andb_false_r.
      cbn [bind_result]. unfold JSON_parse. now rewrite Hp.
  - intros t Hb Hs Ht.
    apply startsWith_char in Hb as [r Hr]. rewrite Hr in Hp.
    destruct (parse_brace r v Hp) as [fields ->].
    destruct (stringify_object_shape fields t Hs) as [body ->].
    assert (Htrim : trim (String "{" (body +:+ "}")) = String "{" (body +:+ "}"))
      by (apply trim_fixed; reflexivity).
    apply safeParseJSON_object_text with (body := body).
    + apply no_fence_by_match, match_fence_free. eapply free_stringify; eauto.
    + exact Htrim.
    + now rewrite Htrim.
Qed.

Lemma safeParseJSON_bare_json_witness :
  let v := VObj [("name", VStr "Elvish"); ("vowels", VArr [VStr "a"; VStr "e"])] in
  safeParseJSON (env_saying bare_object) bare_object empty_world = (empty_world, Ok v)
  /\ safeParseJSON (env_saying bare_object)
       (Json.dq "{'name':'Elvish','vowels':['a','e']}") empty_world
     = (empty_world, Ok v).
Proof.
  intros v.
  destruct (safeParseJSON_bare_json (env_saying bare_object) bare_object v empty_world
              (no_fence_by_match bare_object eq_refl) eq_refl (or_introl eq_refl))
    as [H1 H2].
  split; [exact H1 |].
  exact (H2 (Json.dq "{'name':'Elvish','vowels':['a','e']}") eq_refl eq_refl eq_refl).
Defined.

(** C7 as stated fails on a bare JSON scalar: JSON.parse accepts the
    text, safeParseJSON rejects it for want of a brace or bracket. *)
Lemma safeParseJSON_rejects_bare_scalar :
  Json.parse "5" = Some (VNum 5 0)
  /\ safeParseJSON (env_saying "5") "5" empty_world
     = (logged "5" empty_world, Throw no_start).
Proof. split; reflexivity. Qed.

(** Step 2 reaches into a bare array: of one object it returns the
    object, and of two objects it makes a text that does not parse. *)
Lemma safeParseJSON_bare_array_of_objects :
  Json.parse (Json.dq "[{'id':'w1'}]") = Some (VArr [VObj [("id", VStr "w1")]])
  /\ safeParseJSON (env_saying prose) (Json.dq "[{'id':'w1'}]") empty_world
     = (empty_world, Ok (VObj [("id", VStr "w1")]))
  /\ Json.parse (Json.dq "[{'id':'w1'},{'id':'w2'}]")
     = Some (VArr [VObj [("id", VStr "w1")]; VObj [("id", VStr "w2")]])
  /\ safeParseJSON (env_saying prose) (Json.dq "[{'id':'w1'},{'id':'w2'}]") empty_world
     = (logged (Json.dq "[{'id':'w1'},{'id':'w2'}]") empty_world,
        Throw (SyntaxError "Unexpected token")).
Proof. repeat split; reflexivity. Qed.

End ParserClaims.

(** * The claims about the batch orchestration *)

Module BatchClaims.
Import Str Js ParseFacts ChunkFacts LoopFacts Spec Demo.




Lemma repair_body_run (env : Env) (entries : list value) (constraints : ProjectConstraints)
    (w : World) :
  repair_body env entries constraints w =
    match getGenAI env w with
    | (w0, Ok key) =>
        match run_chunks (repair_chunk env key (repair_rules constraints))
                (chunks CHUNK_SIZE_REPAIR entries) [] w0 with
        | (w1, Ok acc) => (w1, Ok {| success := true; repairs := acc; message := None |})
        | (w1, Throw e) => (w1, Throw e)
        end
    | (w0, Throw e) => (w0, Throw e)
    end.
Proof.
  unfold repair_body, bind. destruct (getGenAI env w) as [w0 [key|e]]; [| reflexivity].
  rewrite for_chunks_run. fold (chunks CHUNK_SIZE_REPAIR entries).
  destruct (run_chunks _ _ _ _) as [w1 [acc|e]]; reflexivity.
Qed.

Lemma evolve_body_run (env : Env) (words : list value) (rules : list SoundChangeRule)
    (w : World) :
  evolve_body env words rules w =
    match getGenAI env w with
    | (w0, Ok key) =>
        run_chunks (evolve_chunk env key rules) (chunks CHUNK_SIZE_EVOLVE words) words w0
    | (w0, Throw e) => (w0, Throw e)
    end.
Proof.
  unfold evolve_body, bind. destruct (getGenAI env w) as [w0 [key|e]]; [| reflexivity].
  rewrite for_chunks_run. reflexivity.
Qed.




(** With the list echoed as bare JSON, which is what the prompt asks
    for, the first answer is cut down to its braces and does not parse:
    one prompt is sent and the operation fails. *)
Lemma repairLexicon_bare_echo_fails :
  exists w',
    repairLexicon echo_bare (lexicon 37) constraints0 empty_world
    = (w', Ok {| success := false; repairs := [];
                 message := Some "AI Repair Failed: Unexpected token. Verifica tu API key en Settings." |})
    /\ length (calls w') = 1%nat.
Proof. eexists. split; [vm_compute; reflexivity | reflexivity]. Qed.

Lemma chunks_nil {A} (size : nat) : chunks size (@nil A) = [].
Proof. reflexivity. Qed.

Lemma chunks_nonempty {A} (size : nat) (items : list A) (pre post : list (list A))
    (c : list A) :
  chunks size items = pre ++ c :: post -> (length items =? 0)%nat = false.
Proof.
  destruct items; [| reflexivity]. rewrite chunks_nil. now destruct pre.
Qed.

(** C2: when the chunks before some position were answered and the chunk
    at that position is not (its remote call fails, or the text it
    returns does not parse), repairLexicon returns success false with no
    repairs, whatever the earlier chunks returned, and evolveWords
    returns the word list it was given. In both, the prompt of the
    failing chunk is the last one sent. *)
Theorem failing_chunk_fails_repair_and_spares_evolution
    (env : Env) (constraints : ProjectConstraints) (rules : list SoundChangeRule)
    (w : World) (e : exn) :
  getApiKey env <> EmptyString ->
  let key := trim (getApiKey env) in
  (forall entries pre chunk post ps answers p,
      chunks CHUNK_SIZE_REPAIR entries = pre ++ chunk :: post ->
      rounds (repair_round env key (repair_rules constraints)) (calls w) pre ps answers ->
      repair_fault env key (repair_rules constraints) (calls w ++ ps) chunk p e ->
      exists w',
        repairLexicon env entries constraints w
        = (w', Ok {| success := false; repairs := [];
                     message := Some (repair_error_message e) |})
        /\ calls w' = calls w ++ ps ++ [p])
  /\ (forall words pre chunk post ps answers p lex,
        rules <> [] ->
        chunks CHUNK_SIZE_EVOLVE words = pre ++ chunk :: post ->
        rounds (evolve_round env key rules) (calls w) pre ps answers ->
        forEach (evolve_one env) (concat answers) words = Ok lex ->
        evolve_fault env key rules (calls w ++ ps) chunk p e ->
        exists w',
          evolveWords env words rules w = (w', Ok words)
          /\ calls w' = calls w ++ ps ++ [p]).
Proof.
  intros Hkey key. subst key. set (key := trim (getApiKey env)).
  destruct (getGenAI_key env w Hkey) as [w0 [Eg Hc0]]. fold key in Eg. split.
  - intros entries pre chunk post ps answers p Hcs Hrs Hf.
    unfold repairLexicon. rewrite (chunks_nonempty _ _ _ _ _ Hcs).
    unfold try_catch. rewrite repair_body_run, Eg, Hcs, run_chunks_app.
    rewrite <- Hc0 in Hrs, Hf.
    destruct (repair_run_rounds env key _ pre [] w0 ps answers Hrs) as [w1 [-> Hc1]].
    rewrite <- Hc1 in Hf. cbn [run_chunks]. unfold bind.
    destruct (repair_chunk_fault env key _ chunk ([] ++ concat answers) w1 p e Hf)
      as [w2 [-> Hc2]].
    unfold repair_failed, bind, print, ret. eexists. split; [reflexivity |].
    cbn [calls]. now rewrite Hc2, Hc1, Hc0, <- app_assoc.
  - intros words pre chunk post ps answers p lex Hrules Hcs Hrs Hlex Hf.
    unfold evolveWords. rewrite (chunks_nonempty _ _ _ _ _ Hcs).
    destruct rules as [|r0 rules']; [contradiction |]. cbn [length Nat.eqb orb].
    unfold try_catch. rewrite evolve_body_run, Eg, Hcs, run_chunks_app.
    rewrite <- Hc0 in Hrs, Hf.
    destruct (evolve_run_rounds env key _ pre words lex w0 ps answers Hrs Hlex)
      as [w1 [-> Hc1]].
    rewrite <- Hc1 in Hf. cbn [run_chunks]. unfold bind.
    destruct (evolve_chunk_fault env key _ chunk lex w1 p e Hf) as [w2 [-> Hc2]].
    unfold evolve_failed, report, bind, print, ret. eexists. split; [reflexivity |].
    cbn [calls]. now rewrite Hc2, Hc1, Hc0, <- app_assoc.
Qed.

Lemma failing_chunk_fails_repair_and_spares_evolution_witness :
  (exists w',
      repairLexicon second_call_fails (lexicon 37) constraints0 empty_world
      = (w', Ok {| success := false; repairs := [];
                   message := Some (repair_error_message network_down) |})
      /\ length (calls w') = 2%nat)
  /\ (exists w',
        evolveWords second_call_fails_evolving (lexicon 25) rules0 empty_world
        = (w', Ok (lexicon 25))
        /\ length (calls w') = 2%nat).
Proof.
  split.
  - destruct (failing_chunk_fails_repair_and_spares_evolution
                second_call_fails constraints0 rules0 empty_world network_down)
      as [Hrepair _]; [discriminate |].
    pose (env := second_call_fails).
    destruct (Hrepair (lexicon 37)
                [take 15 (lexicon 37)] (take 15 (drop 15 (lexicon 37)))
                [drop 30 (lexicon 37)]
                [repair_prompt_of env constraints0 (take 15 (lexicon 37))]
                [triples_of env (take 15 (lexicon 37))]
                (repair_prompt_of env constraints0 (take 15 (drop 15 (lexicon 37)))))
      as [w' [E Hc]].
    + reflexivity.
    + constructor; [| constructor].
      exists (triples_of env (take 15 (lexicon 37))),
        (fence (input_list (repair_prompt_of env constraints0 (take 15 (lexicon 37))))),
        (VArr (triples_of env (take 15 (lexicon 37)))).
      repeat split; vm_compute; reflexivity.
    + exists (triples_of env (take 15 (drop 15 (lexicon 37)))).
      split; [vm_compute; reflexivity |]. split; [reflexivity |].
      left. vm_compute. reflexivity.
    + exists w'. split; [exact E |]. rewrite Hc. reflexivity.
  - destruct (failing_chunk_fails_repair_and_spares_evolution
                second_call_fails_evolving constraints0 rules0 empty_world network_down)
      as [_ Hevolve]; [discriminate |].
    pose (env := second_call_fails_evolving).
    destruct (Hevolve (lexicon 25)
                [take 10 (lexicon 25)] (take 10 (drop 10 (lexicon 25)))
                [drop 20 (lexicon 25)]
                [evolve_prompt_of env rules0 (take 10 (lexicon 25))]
                [one_record_parsed]
                (evolve_prompt_of env rules0 (take 10 (drop 10 (lexicon 25))))
                (match forEach (evolve_one env) one_record_parsed (lexicon 25) with
                 | Ok l => l
                 | Throw _ => []
                 end))
      as [w' [E Hc]].
    + discriminate.
    + reflexivity.
    + constructor; [| constructor].
      eexists _, _. repeat split; vm_compute; reflexivity.
    + vm_compute. reflexivity.
    + eexists. split; [vm_compute; reflexivity |]. split; [reflexivity |].
      left. vm_compute. reflexivity.
    + exists w'. split; [exact E |]. rewrite Hc. reflexivity.
Defined.

End BatchClaims.

(** * The claims about the boundary of the operations *)

Module BoundaryClaims.
Import Props Str Js ParseFacts ChunkFacts LoopFacts Spec Demo BatchClaims ParserClaims.

(** A try block that throws is replaced by its catch block. *)
Lemma try_catch_throw {S A} (m : ST S A) (h : exn -> ST S A) (w w1 : S) (e : exn) :
  m w = (w1, Throw e) -> try_catch m h w = h e w1.
Proof. intros H. unfold try_catch. now rewrite H. Qed.

Lemma try_catch_ok {S A} (m : ST S A) (h : exn -> ST S A) (w w1 : S) (a : A) :
  m w = (w1, Ok a) -> try_catch m h w = (w1, Ok a).
Proof. intros H. unfold try_catch. now rewrite H. Qed.

Lemma nonempty_length {A} (l : list A) : l <> [] -> (length l =? 0)%nat = false.
Proof. destruct l; [contradiction | reflexivity]. Qed.

Lemma report_calls (label : string) (e : exn) (w : World) :
  exists w', report label e w = (w', Ok tt) /\ calls w' = calls w.
Proof. unfold report, print. eauto. Qed.

(** Every try block starts with getGenAI: when that throws, the block
    throws the same error and nothing was sent. *)
Lemma bodies_without_key (env : Env) (w : World) :
  getApiKey env = EmptyString ->
  (forall entries constraints,
      repair_body env entries constraints w = (w, Throw ConfigurationError))
  /\ (forall a b, suggest_body env a b w = (w, Throw ConfigurationError))
  /\ (forall n c v p, generate_body env n c v p w = (w, Throw ConfigurationError))
  /\ (forall words rules, evolve_body env words rules w = (w, Throw ConfigurationError))
  /\ (forall l i c, command_body env l i c w = (w, Throw ConfigurationError))
  /\ (forall s g m, analyze_body env s g m w = (w, Throw ConfigurationError))
  /\ (forall d, phonology_body env d w = (w, Throw ConfigurationError)).
Proof.
  intros H. pose proof (getGenAI_no_key env w H) as Eg.
  repeat split; intros;
    unfold repair_body, suggest_body, generate_body, evolve_body, command_body,
      analyze_body, phonology_body, bind; now rewrite Eg.
Qed.

Lemma converted_from_bodies (env : Env) (w : World) (e : exn) (n : nat) :
  (forall entries constraints,
      entries <> [] -> objects entries ->
      thrown (repair_body env entries constraints) w e n) ->
  (forall a b, thrown (suggest_body env a b) w e n) ->
  (forall k c v p, thrown (generate_body env k c v p) w e n) ->
  (forall words rules,
      words <> [] -> rules <> [] -> objects words ->
      thrown (evolve_body env words rules) w e n) ->
  (forall l i c, l <> [] -> thrown (command_body env l i c) w e n) ->
  (forall s g m, thrown (analyze_body env s g m) w e n) ->
  (forall d, thrown (phonology_body env d) w e n) ->
  converted env w e n.
Proof.
  intros H1 H2 H3 H4 H5 H6 H7. unfold converted. repeat split.
  - intros entries constraints Hne Ho. unfold repairLexicon.
    rewrite nonempty_length by assumption.
    destruct (H1 entries constraints Hne Ho) as [w1 [E Hn]].
    rewrite (try_catch_throw _ _ _ _ _ E).
    unfold repair_failed, bind, print, ret. eexists. split; [reflexivity | exact Hn].
  - intros a b. unfold suggestIPA. destruct (H2 a b) as [w1 [E Hn]].
    rewrite (try_catch_throw _ _ _ _ _ E).
    unfold suggest_failed, report, bind, print, ret. eexists. split; [reflexivity | exact Hn].
  - intros c k v p. unfold generateWords. destruct (H3 c k v p) as [w1 [E Hn]].
    rewrite (try_catch_throw _ _ _ _ _ E).
    unfold generate_failed, report, bind, print, throw. eexists. split; [reflexivity | exact Hn].
  - intros words rules Hw Hr Ho. unfold evolveWords.
    rewrite (nonempty_length words), (nonempty_length rules) by assumption. cbn [orb].
    destruct (H4 words rules Hw Hr Ho) as [w1 [E Hn]].
    rewrite (try_catch_throw _ _ _ _ _ E).
    unfold evolve_failed, report, bind, print, ret. eexists. split; [reflexivity | exact Hn].
  - intros l i c Hl. unfold processCommandAI. rewrite nonempty_length by assumption.
    destruct (H5 l i c Hl) as [w1 [E Hn]].
    rewrite (try_catch_throw _ _ _ _ _ E).
    unfold command_failed, report, bind, print, ret. eexists. split; [reflexivity | exact Hn].
  - intros s g m. unfold analyzeSyntax. destruct (H6 s g m) as [w1 [E Hn]].
    rewrite (try_catch_throw _ _ _ _ _ E).
    unfold analyze_failed, report, bind, print, ret. eexists. split; [reflexivity | exact Hn].
  - intros d. unfold generatePhonology. destruct (H7 d) as [w1 [E Hn]].
    rewrite (try_catch_throw _ _ _ _ _ E).
    unfold phonology_failed, report, bind, print, ret. eexists. split; [reflexivity | exact Hn].
Qed.

Lemma objects_triples (env : Env) (c : list value) :
  objects c -> exists t, map_result (triple env) c = Ok t.
Proof.
  induction 1 as [|v c [f ->] _ [t IH]]; cbn [map_result]; [eauto |].
  cbn [triple get bind_result]. rewrite IH. cbn [bind_result]. eauto.
Qed.

Lemma objects_words (env : Env) (c : list value) :
  objects c -> exists t, map_result (fun w => get env w "word") c = Ok t.
Proof.
  induction 1 as [|v c [f ->] _ [t IH]]; cbn [map_result]; [eauto |].
  cbn [get bind_result]. rewrite IH. cbn [bind_result]. eauto.
Qed.

Lemma chunks_first {A} (size : nat) (items : list A) :
  items <> [] -> exists rest, chunks size items = take size items :: rest.
Proof.
  destruct items as [|x items]; [contradiction |]. intros _.
  unfold chunks. cbn [length chunks_from Nat.ltb Nat.leb]. unfold slice.
  rewrite Nat.add_0_l, Nat.sub_0_r. cbn [drop]. eauto.
Qed.

(** With a remote model that fails, every try block throws its error
    after one prompt. *)
Lemma bodies_remote_down (env : Env) (w : World) (e : exn) :
  getApiKey env <> EmptyString ->
  (forall hist p, remote env (trim (getApiKey env)) hist p = Throw e) ->
  (forall entries constraints,
      entries <> [] -> objects entries ->
      thrown (repair_body env entries constraints) w e 1)
  /\ (forall a b, thrown (suggest_body env a b) w e 1)
  /\ (forall k c v p, thrown (generate_body env k c v p) w e 1)
  /\ (forall words rules,
        words <> [] -> rules <> [] -> objects words ->
        thrown (evolve_body env words rules) w e 1)
  /\ (forall l i c, l <> [] -> thrown (command_body env l i c) w e 1)
  /\ (forall s g m, thrown (analyze_body env s g m) w e 1)
  /\ (forall d, thrown (phonology_body env d) w e 1).
Proof.
  intros Hkey Hdown. destruct (getGenAI_key env w Hkey) as [w0 [Eg Hc0]].
  assert (Hlen : forall c p,
             length (calls {| console := c; calls := calls w0 ++ [p] |})
             = (length (calls w) + 1)%nat).
  { intros. cbn [calls]. now rewrite length_app, Hc0. }
  repeat split.
  - intros entries constraints Hne Ho. unfold thrown.
    rewrite repair_body_run, Eg.
    destruct (chunks_first CHUNK_SIZE_REPAIR entries Hne) as [rest ->].
    cbn [run_chunks]. unfold bind at 1.
    destruct (objects_triples env (take CHUNK_SIZE_REPAIR entries)) as [t Et];
      [now apply Forall_take |].
    unfold repair_chunk, bind, starting, print, lift, generateContent.
    cbv beta iota. cbn [calls console]. rewrite Et, Hdown.
    eexists. split; [reflexivity |]. apply Hlen.
  - intros a b. unfold thrown, suggest_body, bind. rewrite Eg.
    unfold starting, print, generateContent. cbv beta iota. cbn [calls console].
    rewrite Hdown. eexists. split; [reflexivity |]. apply Hlen.
  - intros k c v p. unfold thrown, generate_body, bind. rewrite Eg.
    unfold starting, print, generateContent. cbv beta iota zeta. cbn [calls console].
    rewrite Hdown. eexists. split; [reflexivity |]. apply Hlen.
  - intros words rules Hw Hr Ho. unfold thrown.
    rewrite evolve_body_run, Eg.
    destruct (chunks_first CHUNK_SIZE_EVOLVE words Hw) as [rest ->].
    cbn [run_chunks]. unfold bind at 1.
    destruct (objects_words env (take CHUNK_SIZE_EVOLVE words)) as [t Et];
      [now apply Forall_take |].
    unfold evolve_chunk, bind, starting, print, lift, generateContent.
    cbv beta iota. cbn [calls console]. rewrite Et, Hdown.
    eexists. split; [reflexivity |]. apply Hlen.
  - intros l i c _. unfold thrown, command_body, bind. rewrite Eg.
    unfold starting, print, generateContent. cbv beta iota. cbn [calls console].
    rewrite Hdown. eexists. split; [reflexivity |]. apply Hlen.
  - intros s g m. unfold thrown, analyze_body, bind. rewrite Eg.
    unfold starting, print, generateContent. cbv beta iota. cbn [calls console].
    rewrite Hdown. eexists. split; [reflexivity |]. apply Hlen.
  - intros d. unfold thrown, phonology_body, bind. rewrite Eg.
    unfold starting, print, generateContent. cbv beta iota. cbn [calls console].
    rewrite Hdown. eexists. split; [reflexivity |]. apply Hlen.
Qed.

(** Whatever its try block throws, an operation turns into its typed
    failure; the catch block sends nothing. *)
Lemma caught_always (env : Env) (w : World) : caught env w.
Proof.
  unfold caught. repeat split.
  - intros entries constraints w1 e Hne E. unfold repairLexicon.
    rewrite nonempty_length by assumption. rewrite (try_catch_throw _ _ _ _ _ E).
    unfold repair_failed, bind, print, ret. eexists. split; reflexivity.
  - intros a b w1 e E. unfold suggestIPA. rewrite (try_catch_throw _ _ _ _ _ E).
    unfold suggest_failed, report, bind, print, ret. eexists. split; reflexivity.
  - intros k c v p w1 e E. unfold generateWords. rewrite (try_catch_throw _ _ _ _ _ E).
    unfold generate_failed, report, bind, print, throw. eexists. split; reflexivity.
  - intros words rules w1 e Hw Hr E. unfold evolveWords.
    rewrite (nonempty_length words), (nonempty_length rules) by assumption. cbn [orb].
    rewrite (try_catch_throw _ _ _ _ _ E).
    unfold evolve_failed, report, bind, print, ret. eexists. split; reflexivity.
  - intros l i c w1 e Hl E. unfold processCommandAI. rewrite nonempty_length by assumption.
    rewrite (try_catch_throw _ _ _ _ _ E).
    unfold command_failed, report, bind, print, ret. eexists. split; reflexivity.
  - intros s g m w1 e E. unfold analyzeSyntax. rewrite (try_catch_throw _ _ _ _ _ E).
    unfold analyze_failed, report, bind, print, ret. eexists. split; reflexivity.
  - intros d w1 e E. unfold generatePhonology. rewrite (try_catch_throw _ _ _ _ _ E).
    unfold phonology_failed, report, bind, print, ret. eexists. split; reflexivity.
Qed.

Lemma empty_input_returns (env : Env) (w : World) : empty_input_is_a_no_op env w.
Proof.
  unfold empty_input_is_a_no_op. repeat split.
  intros words rules [-> | ->]; unfold evolveWords; cbn [length Nat.eqb orb];
    [reflexivity | now rewrite orb_true_r].
Qed.

(** With no key the try blocks throw where they start, so no operation
    sends a prompt, on an empty input or on any other. *)
Lemma no_key_sends_nothing (env : Env) (w : World) :
  getApiKey env = EmptyString -> sends_nothing env w.
Proof.
  intros H. destruct (bodies_without_key env w H) as [H1 [H2 [H3 [H4 [H5 [H6 H7]]]]]].
  unfold sends_nothing. repeat split.
  - intros entries constraints w' r. unfold repairLexicon.
    destruct (length entries =? 0)%nat; [now intros [= <- _] |].
    rewrite (try_catch_throw _ _ _ _ _ (H1 entries constraints)).
    unfold repair_failed, bind, print, ret. now intros [= <- _].
  - intros a b w' r. unfold suggestIPA. rewrite (try_catch_throw _ _ _ _ _ (H2 a b)).
    unfold suggest_failed, report, bind, print, ret. now intros [= <- _].
  - intros k c v p w' r. unfold generateWords.
    rewrite (try_catch_throw _ _ _ _ _ (H3 k c v p)).
    unfold generate_failed, report, bind, print, throw. now intros [= <- _].
  - intros words rules w' r. unfold evolveWords.
    destruct ((length words =? 0)%nat || (length rules =? 0)%nat); [now intros [= <- _] |].
    rewrite (try_catch_throw _ _ _ _ _ (H4 words rules)).
    unfold evolve_failed, report, bind, print, ret. now intros [= <- _].
  - intros l i c w' r. unfold processCommandAI.
    destruct (length l =? 0)%nat; [now intros [= <- _] |].
    rewrite (try_catch_throw _ _ _ _ _ (H5 l i c)).
    unfold command_failed, report, bind, print, ret. now intros [= <- _].
  - intros s g m w' r. unfold analyzeSyntax.
    rewrite (try_catch_throw _ _ _ _ _ (H6 s g m)).
    unfold analyze_failed, report, bind, print, ret. now intros [= <- _].
  - intros d w' r. unfold generatePhonology. rewrite (try_catch_throw _ _ _ _ _ (H7 d)).
    unfold phonology_failed, report, bind, print, ret. now intros [= <- _].
Qed.

(** With no key every try block throws the ConfigurationError where it
    starts, and the catch block makes the typed failure of it. *)
Lemma no_key_unconfigured (env : Env) (w : World) :
  getApiKey env = EmptyString -> unconfigured env w.
Proof.
  intros H. destruct (bodies_without_key env w H) as [H1 [H2 [H3 [H4 [H5 [H6 H7]]]]]].
  destruct (caught_always env w) as [C1 [C2 [C3 [C4 [C5 [C6 C7]]]]]].
  unfold unconfigured. repeat split.
  - intros entries constraints Hne. exact (C1 _ _ _ _ Hne (H1 entries constraints)).
  - intros a b. exact (C2 _ _ _ _ (H2 a b)).
  - intros k c v p. exact (C3 _ _ _ _ _ _ (H3 k c v p)).
  - intros words rules Hw Hr. exact (C4 _ _ _ _ Hw Hr (H4 words rules)).
  - intros l i c Hl. exact (C5 _ _ _ _ _ Hl (H5 l i c)).
  - intros s g m. exact (C6 _ _ _ _ _ (H6 s g m)).
  - intros d. exact (C7 _ _ _ (H7 d)).
Qed.

(** When the remote call that an operation makes fails, its try block
    throws the error of the call after that one prompt. *)
Lemma remote_failure_converted (env : Env) (w : World) (e : exn) :
  getApiKey env <> EmptyString -> transport_converted env w e.
Proof.
  intros Hkey. destruct (getGenAI_key env w Hkey) as [w0 [Eg Hc0]].
  destruct (caught_always env w) as [C1 [C2 [C3 [C4 [C5 [C6 C7]]]]]].
  unfold transport_converted. cbv zeta. repeat split.
  - intros entries constraints triples Hne Et Hr.
    assert (Hb : exists w1,
               repair_body env entries constraints w = (w1, Throw e)
               /\ calls w1
                  = calls w ++ [repair_prompt (repair_rules constraints)
                                  (default "undefined" (Json.stringify (VArr triples)))]).
    { rewrite repair_body_run, Eg.
      destruct (chunks_first CHUNK_SIZE_REPAIR entries Hne) as [rest ->].
      cbn [run_chunks]. unfold bind at 1.
      unfold repair_chunk, bind, starting, print, lift, generateContent.
      cbv beta iota. cbn [calls console]. rewrite Et, Hc0, Hr.
      eexists. split; reflexivity. }
    destruct Hb as [w1 [Hb Hc1]].
    destruct (C1 _ _ _ _ Hne Hb) as [w' [E Hc]].
    exists w'. split; [exact E | now rewrite Hc].
  - intros a b Hr.
    assert (Hb : exists w1,
               suggest_body env a b w = (w1, Throw e)
               /\ calls w1 = calls w ++ [suggest_prompt a b]).
    { unfold suggest_body, bind. rewrite Eg.
      unfold starting, print, generateContent. cbv beta iota. cbn [calls console].
      fold (suggest_prompt a b). rewrite Hc0, Hr.
      eexists. split; reflexivity. }
    destruct Hb as [w1 [Hb Hc1]].
    destruct (C2 _ _ _ _ Hb) as [w' [E Hc]].
    exists w'. split; [exact E | now rewrite Hc].
  - intros k c v p Hr.
    assert (Hb : exists w1,
               generate_body env k c v p w = (w1, Throw e)
               /\ calls w1 = calls w ++ [generate_prompt (Z.min k 15) v p]).
    { unfold generate_body, bind. rewrite Eg.
      unfold starting, print, generateContent. cbv beta iota zeta. cbn [calls console].
      fold (generate_prompt (Z.min k 15) v p). rewrite Hc0, Hr.
      eexists. split; reflexivity. }
    destruct Hb as [w1 [Hb Hc1]].
    destruct (C3 _ _ _ _ _ _ Hb) as [w' [E Hc]].
    exists w'. split; [exact E | now rewrite Hc].
  - intros words rules ws Hw Hrules Et Hr.
    assert (Hb : exists w1,
               evolve_body env words rules w = (w1, Throw e)
               /\ calls w1 = calls w ++ [evolve_prompt rules ws]).
    { rewrite evolve_body_run, Eg.
      destruct (chunks_first CHUNK_SIZE_EVOLVE words Hw) as [rest ->].
      cbn [run_chunks]. unfold bind at 1.
      unfold evolve_chunk, bind, starting, print, lift, generateContent.
      cbv beta iota. cbn [calls console]. rewrite Et, Hc0, Hr.
      eexists. split; reflexivity. }
    destruct Hb as [w1 [Hb Hc1]].
    destruct (C4 _ _ _ _ Hw Hrules Hb) as [w' [E Hc]].
    exists w'. split; [exact E | now rewrite Hc].
  - intros l i c Hl Hr.
    assert (Hb : exists w1,
               command_body env l i c w = (w1, Throw e)
               /\ calls w1 = calls w ++ [command_prompt i c]).
    { unfold command_body, bind. rewrite Eg.
      unfold starting, print, generateContent. cbv beta iota. cbn [calls console].
      rewrite Hc0, Hr.
      eexists. split; reflexivity. }
    destruct Hb as [w1 [Hb Hc1]].
    destruct (C5 _ _ _ _ _ Hl Hb) as [w' [E Hc]].
    exists w'. split; [exact E | now rewrite Hc].
  - intros s g m Hr.
    assert (Hb : exists w1,
               analyze_body env s g m w = (w1, Throw e)
               /\ calls w1 = calls w ++ [analyze_prompt s g m]).
    { unfold analyze_body, bind. rewrite Eg.
      unfold starting, print, generateContent. cbv beta iota. cbn [calls console].
      fold (analyze_prompt s g m). rewrite Hc0, Hr.
      eexists. split; reflexivity. }
    destruct Hb as [w1 [Hb Hc1]].
    destruct (C6 _ _ _ _ _ Hb) as [w' [E Hc]].
    exists w'. split; [exact E | now rewrite Hc].
  - intros d Hr.
    assert (Hb : exists w1,
               phonology_body env d w = (w1, Throw e)
               /\ calls w1 = calls w ++ [phonology_prompt d]).
    { unfold phonology_body, bind. rewrite Eg.
      unfold starting, print, generateContent. cbv beta iota. cbn [calls console].
      rewrite Hc0, Hr.
      eexists. split; reflexivity. }
    destruct Hb as [w1 [Hb Hc1]].
    destruct (C7 _ _ _ Hb) as [w' [E Hc]].
    exists w'. split; [exact E | now rewrite Hc].
Qed.

(** C8, as the code has it: with an empty credential getGenAI throws the
    ConfigurationError before anything is sent, and no operation sends a
    prompt, whatever its input. An operation that gets past its test for
    an empty input turns that error into a value of its return type: a
    failure record for repairLexicon and processCommandAI, a fixed text
    for suggestIPA and analyzeSyntax, the list it was given for
    evolveWords, the default configuration for generatePhonology; with
    no credential it does so on every such input. So it
    does with the error of the remote call that it makes, after the one
    prompt that was sent, and with any other error of its try block.
    generateWords alone throws: the error enriched with the message of
    the cause. On an empty input repairLexicon, evolveWords and
    processCommandAI return their result at once, with or without a
    credential: the world is as it was. *)
Theorem boundary_converts_errors (env : Env) (w : World) (e : exn) :
  (getApiKey env = EmptyString ->
   getGenAI env w = (w, Throw ConfigurationError)
   /\ converted env w ConfigurationError 0)
  /\ (getApiKey env <> EmptyString ->
      (forall hist p, remote env (trim (getApiKey env)) hist p = Throw e) ->
      converted env w e 1)
  /\ enriched ConfigurationError
     = Error "Error generating words: API Key not configured. Please set it in Settings."
  /\ (getApiKey env = EmptyString -> sends_nothing env w)
  /\ (getApiKey env <> EmptyString -> transport_converted env w e)
  /\ caught env w
  /\ (getApiKey env = EmptyString -> unconfigured env w)
  /\ empty_input_is_a_no_op env w.
Proof.
  split; [| split; [| split; [reflexivity |]]].
  - intros H. split; [now apply getGenAI_no_key |].
    destruct (bodies_without_key env w H) as [H1 [H2 [H3 [H4 [H5 [H6 H7]]]]]].
    apply converted_from_bodies; intros; exists w; split; auto.
  - intros Hkey Hdown.
    destruct (bodies_remote_down env w e Hkey Hdown) as [H1 [H2 [H3 [H4 [H5 [H6 H7]]]]]].
    now apply converted_from_bodies.
  - split; [apply no_key_sends_nothing |].
    split; [apply remote_failure_converted |].
    split; [apply caught_always |].
    split; [apply no_key_unconfigured | apply empty_input_returns].
Qed.

Lemma boundary_converts_errors_witness :
  converted env_no_key empty_world ConfigurationError 0
  /\ converted remote_down empty_world network_down 1
  /\ sends_nothing env_no_key empty_world
  /\ (exists w',
        suggestIPA second_call_fails "ka" "CV"
          {| console := []; calls := ["an earlier prompt"] |}
        = (w', Ok "/error/")
        /\ calls w' = ["an earlier prompt"] ++ [suggest_prompt "ka" "CV"])
  /\ evolveWords env_no_key (lexicon 2) [] empty_world = (empty_world, Ok (lexicon 2))
  /\ unconfigured env_no_key empty_world.
Proof.
  destruct (boundary_converts_errors env_no_key empty_world network_down)
    as (H0 & _ & _ & H2 & _ & _ & H5 & _ & H4 & _).
  destruct (boundary_converts_errors remote_down empty_world network_down) as [_ [H1 _]].
  destruct (boundary_converts_errors second_call_fails
              {| console := []; calls := ["an earlier prompt"] |}
              network_down) as (_ & _ & _ & _ & H3 & _).
  split; [apply H0; reflexivity |].
  split; [apply H1; [discriminate | reflexivity] |].
  split; [apply H2; reflexivity |].
  split; [| split; [apply H4; now right | apply H5; reflexivity]].
  destruct (H3 ltac:(discriminate)) as (_ & Hs & _).
  apply (Hs "ka" "CV"). reflexivity.
Defined.

(** C8 as stated fails: with no credential, repairLexicon of an empty
    list succeeds, and evolveWords with no rule returns its words; the
    test for an empty input comes first. *)
Lemma empty_input_precedes_credential_check :
  getApiKey env_no_key = EmptyString
  /\ repairLexicon env_no_key [] constraints0 empty_world
     = (empty_world, Ok {| success := true; repairs := []; message := None |})
  /\ evolveWords env_no_key (lexicon 3) [] empty_world = (empty_world, Ok (lexicon 3)).
Proof. repeat split. Qed.

(** C10: generatePhonology returns a configuration on every input. When
    its try block throws, for want of a credential, because the remote
    model failed or because its answer did not parse, the configuration
    is the fixed default, whose name is Default Phonology and whose
    syllable structure is CV. A remote model that answers with the JSON
    text of that default makes the try block return the same
    configuration, so the result alone does not tell failure from
    success. *)
Theorem generatePhonology_never_rejects (env : Env) (description : string) (w : World) :
  (exists w' cfg, generatePhonology env description w = (w', Ok cfg))
  /\ (forall w1 e,
        phonology_body env description w = (w1, Throw e) ->
        exists w', generatePhonology env description w = (w', Ok default_phonology)
                   /\ calls w' = calls w1)
  /\ (getApiKey env = EmptyString ->
      exists w', generatePhonology env description w = (w', Ok default_phonology))
  /\ (forall e,
        getApiKey env <> EmptyString ->
        remote env (trim (getApiKey env)) (calls w) (phonology_prompt description)
        = Throw e ->
        exists w', generatePhonology env description w = (w', Ok default_phonology))
  /\ (forall text e,
        getApiKey env <> EmptyString ->
        remote env (trim (getApiKey env)) (calls w) (phonology_prompt description)
        = Ok text ->
        extract env text = Throw e ->
        exists w', generatePhonology env description w = (w', Ok default_phonology))
  /\ name default_phonology = "Default Phonology"
  /\ syllableStructure default_phonology = "CV"
  /\ (exists w', phonology_body (env_saying default_json) description w
                 = (w', Ok default_phonology)).
Proof.
  assert (Hthrow : forall w1 e,
             phonology_body env description w = (w1, Throw e) ->
             exists w', generatePhonology env description w = (w', Ok default_phonology)
                        /\ calls w' = calls w1).
  { intros w1 e E. unfold generatePhonology. rewrite (try_catch_throw _ _ _ _ _ E).
    unfold phonology_failed, report, bind, print, ret. eauto. }
  split; [| split; [exact Hthrow |]].
  { destruct (phonology_body env description w) as [w1 [cfg|e]] eqn:E.
    - exists w1, cfg. now apply try_catch_ok.
    - destruct (Hthrow w1 e eq_refl) as [w' [H _]]. eauto. }
  split.
  { intros Hk. destruct (bodies_without_key env w Hk) as [_ [_ [_ [_ [_ [_ H]]]]]].
    destruct (Hthrow _ _ (H description)) as [w' [E _]]. eauto. }
  split.
  { intros e Hk Hr. destruct (getGenAI_key env w Hk) as [w0 [Eg Hc0]].
    edestruct Hthrow as [w' [E _]]; [| eauto].
    unfold phonology_body, bind. rewrite Eg.
    unfold starting, print, generateContent. cbv beta iota. cbn [calls console].
    rewrite Hc0, Hr. reflexivity. }
  split.
  { intros text e Hk Hr Hx. destruct (getGenAI_key env w Hk) as [w0 [Eg Hc0]].
    edestruct Hthrow as [w' [E _]]; [| eauto].
    unfold phonology_body, bind. rewrite Eg.
    unfold starting, print, generateContent. cbv beta iota. cbn [calls console].
    rewrite Hc0, Hr. unfold safeParsePhonologyConfig, try_catch, bind.
    rewrite safeParseJSON_extract, Hx. reflexivity. }
  split; [reflexivity |]. split; [reflexivity |].
  eexists. vm_compute. reflexivity.
Qed.

Lemma generatePhonology_never_rejects_witness :
  (exists w', generatePhonology env_no_key "a harsh desert tongue" empty_world
              = (w', Ok default_phonology))
  /\ (exists w', generatePhonology remote_down "a harsh desert tongue" empty_world
                 = (w', Ok default_phonology))
  /\ (exists w', generatePhonology (env_saying prose) "a harsh desert tongue" empty_world
                 = (w', Ok default_phonology)).
Proof.
  split; [| split].
  - destruct (generatePhonology_never_rejects env_no_key "a harsh desert tongue" empty_world)
      as [_ [_ [H _]]].
    apply H. reflexivity.
  - destruct (generatePhonology_never_rejects remote_down "a harsh desert tongue" empty_world)
      as [_ [_ [_ [H _]]]].
    apply (H network_down); [discriminate | reflexivity].
  - destruct (generatePhonology_never_rejects (env_saying prose) "a harsh desert tongue"
                empty_world) as [_ [_ [_ [_ [H _]]]]].
    apply (H prose no_start); [discriminate | reflexivity | reflexivity].
Defined.

End BoundaryClaims.

(** * The claims about the merge *)

Module MergeClaims.
Import Str Js ParseFacts LoopFacts Spec Demo.

(** An entry that no record names by its identifier passes through. *)
Lemma apply_mods_unmatched (env : Env) (mods : list value) (entry : value) :
  Forall (fun m => same_id env entry m = Ok false) mods ->
  apply_mods env mods entry = Ok entry.
Proof.
  intros H. unfold apply_mods.
  assert (E : find (same_id env entry) mods = Ok None).
  { induction H as [|m mods Hm _ IH]; [reflexivity |].
    cbn [find]. rewrite Hm. exact IH. }
  now rewrite E.
Qed.

(** A record that names no entry has no effect on the merge. *)
Lemma apply_mods_drops_unmatched (env : Env) (pre post : list value) (m entry : value) :
  same_id env entry m = Ok false ->
  apply_mods env (pre ++ m :: post) entry = apply_mods env (pre ++ post) entry.
Proof.
  intros H. unfold apply_mods. f_equal.
  induction pre as [|x pre IH]; cbn [app find]; [now rewrite H |].
  destruct (same_id env entry x) as [[]|]; cbn [bind_result]; auto.
Qed.

(** The record with the identifier of an entry is spread over it. *)
Lemma apply_mods_matched (env : Env) (pre post : list value)
    (fields mod_fields : list (string * value)) :
  Forall (fun m => same_id env (VObj fields) m = Ok false) pre ->
  same_id env (VObj fields) (VObj mod_fields) = Ok true ->
  apply_mods env (pre ++ VObj mod_fields :: post) (VObj fields)
  = Ok (VObj (spread_into fields mod_fields)).
Proof.
  intros Hpre Hm. unfold apply_mods.
  assert (E : find (same_id env (VObj fields)) (pre ++ VObj mod_fields :: post)
              = Ok (Some (VObj mod_fields))).
  { induction Hpre as [|x pre Hx _ IH]; cbn [app find]; [now rewrite Hm |].
    rewrite Hx. exact IH. }
  now rewrite E.
Qed.

(** The case of the specification: one record, for the first of two
    entries. *)
Lemma processCommandAI_foo_bar :
  exists w',
    processCommandAI (env_saying (Json.dq "{'modifications':[{'id':'a','word':'FOO'}]}"))
      foo_bar "uppercase the first word" constraints0 empty_world
    = (w', Ok {| ok := true; modifiedCount := 1;
                 newLexicon := Some [VObj [("id", VStr "a"); ("word", VStr "FOO")];
                                     VObj [("id", VStr "b"); ("word", VStr "bar")]];
                 note := None |}).
Proof. eexists. vm_compute. reflexivity. Qed.

(** One record of evolveWords leaves the length of the lexicon and every
    entry that it does not name. *)
Lemma findIndex_first {A} (p : A -> result bool) (l : list A) (i : nat) :
  findIndex p l = Ok (Some i) ->
  (i < length l)%nat /\ forall j x, l !! j = Some x -> p x = Ok false -> j <> i.
Proof.
  revert i. induction l as [|y l IH]; intros i; cbn [findIndex]; [discriminate |].
  destruct (p y) as [[]|] eqn:Ey; cbn [bind_result]; [| | discriminate].
  - intros [= <-]. split; [cbn; lia |]. intros [|j] x; cbn; [| discriminate].
    intros [= <-] Hx. congruence.
  - destruct (findIndex p l) as [[k|]|]; cbn [bind_result option_map]; try discriminate.
    intros [= <-]. destruct (IH k eq_refl) as [Hlt Hne]. split; [cbn; lia |].
    intros [|j] x; cbn; [discriminate |]. intros Hj Hx Heq. injection Heq as ->.
    now apply (Hne k x).
Qed.

Lemma evolve_one_frame (env : Env) (lex lex' : list value) (res : value) :
  evolve_one env lex res = Ok lex' ->
  length lex' = length lex
  /\ forall j x, lex !! j = Some x -> is_original env res x = Ok false -> lex' !! j = Some x.
Proof.
  unfold evolve_one.
  destruct (findIndex (is_original env res) lex) as [[i|]|] eqn:E; cbn [bind_result];
    [| intros [= <-]; auto | discriminate].
  destruct (evolved_entry env _ res) as [entry|]; cbn [bind_result]; [| discriminate].
  intros [= <-]. split; [apply length_insert |].
  intros j x Hj Hx. destruct (findIndex_first _ _ _ E) as [_ Hne].
  rewrite list_lookup_insert_ne; [exact Hj |]. intros Heq.
  apply (Hne j x Hj Hx). now symmetry.
Qed.

(** C5 fails on the code for evolveWords. Each record is looked up in
    the working copy, by the words as the earlier records left them, not
    in the words of the caller. In a chain shift (a to b, b to c) the
    second record hits the entry that the first one has just renamed:
    the entry whose original word is a ends as c with both change logs,
    and the entry whose original word is b passes through unchanged,
    where the merge by original word text renames a to b and b to c. *)
Theorem evolveWords_matches_current_words :
  (exists w',
      evolveWords (env_saying chain_answer) chain_words rules0 empty_world
      = (w', Ok [VObj [("id", VStr "1"); ("word", VStr "c"); ("ipa", VStr "c");
                       ("etymology", VStr "; a>b; b>c")];
                 VObj [("id", VStr "2"); ("word", VStr "b"); ("ipa", VStr "b")]]))
  /\ extract (env_saying chain_answer) chain_answer = Ok (VArr chain_records)
  /\ merge_by_original_word (env_saying chain_answer) chain_words chain_records
     = Ok [VObj [("id", VStr "1"); ("word", VStr "b"); ("ipa", VStr "b");
                 ("etymology", VStr "; a>b")];
           VObj [("id", VStr "2"); ("word", VStr "c"); ("ipa", VStr "c");
                 ("etymology", VStr "; b>c")]].
Proof. split; [eexists; vm_compute; reflexivity | split; reflexivity]. Qed.

End MergeClaims.

(** * The claim about the collections of the caller *)

Module FrameClaims.
Import Str Js ParseFacts ChunkFacts LoopFacts Spec Demo Heap.

Lemma preserves_ret {S A} (I : S -> Prop) (a : A) : preserves I (ret a).
Proof. intros s s' r H [= <- _]. exact H. Qed.

Lemma preserves_throw {S A} (I : S -> Prop) (e : exn) : preserves I (@throw S A e).
Proof. intros s s' r H [= <- _]. exact H. Qed.

Lemma preserves_lift {S A} (I : S -> Prop) (x : result A) : preserves I (lift x).
Proof. intros s s' r H [= <- _]. exact H. Qed.

Lemma preserves_bind {S A B} (I : S -> Prop) (m : ST S A) (k : A -> ST S B) :
  preserves I m -> (forall a, preserves I (k a)) -> preserves I (bind m k).
Proof.
  intros Hm Hk s s' r H. unfold bind.
  destruct (m s) as [s1 [a|e]] eqn:E.
  - apply (Hk a). eapply Hm; eauto.
  - intros [= <- _]. eapply Hm; eauto.
Qed.

Lemma preserves_try_catch {S A} (I : S -> Prop) (m : ST S A) (h : exn -> ST S A) :
  preserves I m -> (forall e, preserves I (h e)) -> preserves I (try_catch m h).
Proof.
  intros Hm Hh s s' r H. unfold try_catch.
  destruct (m s) as [s1 [a|e]] eqn:E.
  - intros [= <- _]. eapply Hm; eauto.
  - apply (Hh e). eapply Hm; eauto.
Qed.

Lemma preserves_read (I : World * heap -> Prop) : preserves I read.
Proof. intros s s' r H [= <- _]. exact H. Qed.

Lemma preserves_in_world {A} (I : World * heap -> Prop) (m : M A) :
  (forall w w' h, I (w, h) -> I (w', h)) -> preserves I (in_world m).
Proof.
  intros Hw [w h] s' r H. unfold in_world. cbn [fst snd].
  destruct (m w) as [w' x]. intros [= <- _]. eapply Hw; eauto.
Qed.

Lemma preserves_for_chunks {S A St} (I : S -> Prop) (fuel size i : nat)
    (items : list A) (body : list A -> St -> ST S St) (st : St) :
  (forall c x, preserves I (body c x)) ->
  preserves I (for_chunks fuel size i items body st).
Proof.
  intros Hb. revert i st. induction fuel as [|fuel IH]; intros i st; cbn [for_chunks].
  - apply preserves_ret.
  - destruct (i <? length items)%nat; [| apply preserves_ret].
    apply preserves_bind; [apply Hb | intros; apply IH].
Qed.

Lemma preserves_forEachH {A} (I : World * heap -> Prop) (f : A -> HM unit)
    (l : list A) :
  (forall x, preserves I (f x)) -> preserves I (forEachH f l).
Proof.
  intros Hf. induction l as [|x l IH]; cbn [forEachH]; [apply preserves_ret |].
  apply preserves_bind; [apply Hf | intros; apply IH].
Qed.

Lemma prefix_insert_beyond (h0 h : heap) (i : nat) (c : cell) :
  h0 `prefix_of` h -> (length h0 <= i)%nat -> h0 `prefix_of` <[i := c]> h.
Proof.
  intros [k ->] Hi. exists (<[(i - length h0)%nat := c]> k).
  apply insert_app_r_alt. exact Hi.
Qed.

Lemma prefix_alloc (h0 h : heap) (c : cell) :
  h0 `prefix_of` h -> h0 `prefix_of` h ++ [c].
Proof. intros H. etrans; [exact H | now apply prefix_app_r]. Qed.

Lemma prefix_length_le (h0 h : heap) : h0 `prefix_of` h -> (length h0 <= length h)%nat.
Proof. apply prefix_length. Qed.

Section WorkingCopy.

Variables (env : Env) (h0 : heap) (elems : list nat) (evolved : nat).

Let I := working_copy h0 elems evolved.

Lemma working_copy_world (w w' : World) (h : heap) : I (w, h) -> I (w', h).
Proof. exact (fun H => H). Qed.

Lemma working_copy_alloc (c : cell) (s : World * heap) :
  I s -> I (fst s, snd s ++ [c]) /\ (length h0 <= length (snd s))%nat.
Proof.
  intros [Hp [Hle [current [Hc HF]]]]. split; [| now apply prefix_length_le].
  split; [now apply prefix_alloc |]. split; [assumption |].
  exists current. split; [| assumption]. cbn [snd].
  rewrite lookup_app_l; [assumption |]. now apply lookup_lt_Some in Hc.
Qed.

Lemma working_copy_store (i l : nat) (s : World * heap) :
  I s -> (length h0 <= l)%nat ->
  I (fst s, <[evolved := Arr (<[i := l]> (elems_at (snd s) evolved))]> (snd s)).
Proof.
  intros [Hp [Hle [current [Hc HF]]]] Hl.
  split; [now apply prefix_insert_beyond |]. split; [assumption |].
  unfold elems_at. rewrite Hc. cbn [snd].
  exists (<[i := l]> current). split.
  - apply list_lookup_insert_eq. now apply lookup_lt_Some in Hc.
  - destruct (elems !! i) as [x|] eqn:Ex.
    + rewrite <- (list_insert_id elems i x Ex). apply Forall2_insert; [assumption |].
      now right.
    + rewrite list_insert_ge; [assumption |].
      rewrite <- (Forall2_length _ _ _ HF). now apply lookup_ge_None.
Qed.

Lemma evolve_oneH_working_copy (res : value) : preserves I (evolve_oneH env evolved res).
Proof.
  intros s s' r H. unfold evolve_oneH, bind, read, lift, alloc, store, ret.
  destruct (findIndex _ _) as [[i|]|]; [| intros [= <- _]; exact H | intros [= <- _]; exact H].
  destruct (evolved_fields env _ res) as [fields|]; [| intros [= <- _]; exact H].
  cbn [fst snd]. intros [= <- _].
  destruct (working_copy_alloc (Obj fields) s H) as [H1 Hlen].
  exact (working_copy_store i (length (snd s)) _ H1 Hlen).
Qed.

Lemma evolve_chunkH_working_copy (key : string) (rules : list SoundChangeRule)
    (chunk : list nat) (st : unit) :
  preserves I (evolve_chunkH env key rules evolved chunk st).
Proof.
  unfold evolve_chunkH.
  apply preserves_bind; [apply preserves_in_world, working_copy_world | intros _].
  apply preserves_bind; [apply preserves_read | intros h].
  apply preserves_bind; [apply preserves_lift | intros ws].
  apply preserves_bind; [apply preserves_in_world, working_copy_world | intros text].
  apply preserves_bind; [apply preserves_in_world, working_copy_world | intros results].
  destruct results; try apply preserves_throw.
  apply preserves_forEachH. intros res. apply evolve_oneH_working_copy.
Qed.

Lemma evolve_bodyH_working_copy (words : list nat) (rules : list SoundChangeRule) :
  preserves I (evolve_bodyH env words rules evolved).
Proof.
  unfold evolve_bodyH.
  apply preserves_bind; [apply preserves_in_world, working_copy_world | intros key].
  apply preserves_bind; [| intros; apply preserves_ret].
  apply preserves_for_chunks. intros c x. apply evolve_chunkH_working_copy.
Qed.

End WorkingCopy.

Lemma evolve_bodyH_result (env : Env) (words : list nat) (rules : list SoundChangeRule)
    (evolved : nat) (s s' : World * heap) (r : nat) :
  evolve_bodyH env words rules evolved s = (s', Ok r) -> r = evolved.
Proof.
  unfold evolve_bodyH, bind, ret.
  destruct (in_world (getGenAI env) s) as [s1 [key|]]; [| discriminate].
  destruct (for_chunks _ _ _ _ _ _ s1) as [s2 [[]|]]; [| discriminate].
  now intros [= _ <-].
Qed.

Lemma apply_modsH_kept_or_new (env : Env) (h0 : heap) (mods : list value) (l : nat)
    (s s' : World * heap) (r : result nat) :
  h0 `prefix_of` snd s ->
  apply_modsH env mods l s = (s', r) ->
  h0 `prefix_of` snd s' /\ forall l', r = Ok l' -> kept_or_new h0 l l'.
Proof.
  intros Hp. unfold apply_modsH, bind, read, lift, alloc, ret.
  destruct (find _ mods) as [[m|]|].
  - destruct (truthy m); intros [= <- <-]; cbn [snd].
    + split; [now apply prefix_alloc |]. intros l' [= <-]. right.
      now apply prefix_length_le.
    + split; [assumption |]. intros l' [= <-]. now left.
  - intros [= <- <-]. split; [assumption |]. intros l' [= <-]. now left.
  - intros [= <- <-]. split; [assumption | discriminate].
Qed.

Lemma mapH_kept_or_new (env : Env) (h0 : heap) (mods : list value) (ls : list nat) :
  forall (s s' : World * heap) (r : result (list nat)),
    h0 `prefix_of` snd s ->
    mapH (apply_modsH env mods) ls s = (s', r) ->
    h0 `prefix_of` snd s' /\ forall ys, r = Ok ys -> Forall2 (kept_or_new h0) ls ys.
Proof.
  induction ls as [|l ls IH]; intros s s' r Hp; cbn [mapH].
  - intros [= <- <-]. split; [assumption |]. intros ys [= <-]. constructor.
  - unfold bind at 1.
    destruct (apply_modsH env mods l s) as [s1 [y|e]] eqn:E1;
      destruct (apply_modsH_kept_or_new env h0 mods l s _ _ Hp E1) as [Hp1 Hy].
    + unfold bind. destruct (mapH (apply_modsH env mods) ls s1) as [s2 [ys|e]] eqn:E2;
        destruct (IH s1 _ _ Hp1 E2) as [Hp2 Hys]; intros [= <- <-].
      * split; [assumption |]. intros ? [= <-]. constructor; auto.
      * split; [assumption | discriminate].
    + intros [= <- <-]. split; [assumption | discriminate].
Qed.

Lemma in_world_heap {A} (m : M A) (s s' : World * heap) (r : result A) :
  in_world m s = (s', r) -> snd s' = snd s.
Proof. unfold in_world. destruct (m (fst s)). now intros [= <- _]. Qed.

Lemma merge_modsH_frame (env : Env) (h0 : heap) (lexicon : list nat) (resultData : value)
    (s s' : World * heap) (r : result CommandResultH) :
  h0 `prefix_of` snd s ->
  merge_modsH env lexicon resultData s = (s', r) ->
  h0 `prefix_of` snd s'
  /\ forall res, r = Ok res ->
       exists l entries,
         newLexiconH res = Some l /\ (length h0 <= l)%nat
         /\ snd s' !! l = Some (Arr entries)
         /\ Forall2 (kept_or_new h0) lexicon entries.
Proof.
  intros Hp. unfold merge_modsH, bind at 1, lift.
  destruct (get env resultData "modifications") as [m|e];
    [| intros [= <- <-]; split; [assumption | discriminate]].
  destruct (if Js.truthy m then m else VArr []) as [| | | | |mods|];
    try (unfold throw; intros [= <- <-]; split; [assumption | discriminate]).
  unfold bind at 1.
  destruct (mapH (apply_modsH env mods) lexicon s) as [s1 [entries|e]] eqn:E;
    destruct (mapH_kept_or_new env h0 mods lexicon s _ _ Hp E) as [Hp1 HF].
  - unfold bind, alloc, ret. intros [= <- <-]. cbn [snd].
    split; [now apply prefix_alloc |].
    intros res [= <-]. exists (length (snd s1)), entries. cbn [newLexiconH].
    split; [reflexivity |]. split; [now apply prefix_length_le |].
    split; [apply list_lookup_middle; reflexivity | now apply HF].
  - intros [= <- <-]. split; [assumption | discriminate].
Qed.

Lemma command_bodyH_frame (env : Env) (h0 : heap) (lexicon : list nat) (instruction : string)
    (constraints : ProjectConstraints) (s s' : World * heap) (r : result CommandResultH) :
  h0 `prefix_of` snd s ->
  command_bodyH env lexicon instruction constraints s = (s', r) ->
  h0 `prefix_of` snd s'
  /\ forall res, r = Ok res ->
       exists l entries,
         newLexiconH res = Some l /\ (length h0 <= l)%nat
         /\ snd s' !! l = Some (Arr entries)
         /\ Forall2 (kept_or_new h0) lexicon entries.
Proof.
  intros Hp. unfold command_bodyH.
  unfold bind at 1.
  destruct (in_world (getGenAI env) s) as [s1 [key|e]] eqn:E1;
    apply in_world_heap in E1; rewrite <- E1 in Hp;
    [| intros [= <- <-]; split; [assumption | discriminate]].
  unfold bind at 1.
  destruct (in_world starting s1) as [s2 [[]|e]] eqn:E2;
    apply in_world_heap in E2; rewrite <- E2 in Hp;
    [| intros [= <- <-]; split; [assumption | discriminate]].
  unfold bind at 1.
  destruct (in_world (generateContent env key _) s2) as [s3 [text|e]] eqn:E3;
    apply in_world_heap in E3; rewrite <- E3 in Hp;
    [| intros [= <- <-]; split; [assumption | discriminate]].
  unfold bind at 1.
  destruct (in_world (safeParseJSON env text) s3) as [s4 [resultData|e]] eqn:E4;
    apply in_world_heap in E4; rewrite <- E4 in Hp;
    [| intros [= <- <-]; split; [assumption | discriminate]].
  now apply merge_modsH_frame.
Qed.

(** C9, as the code has it: evolveWords and processCommandAI leave every
    cell that the heap had before the call as it was, on every path, so
    neither the array of the caller nor any of its entries is changed.
    evolveWords returns a new array when its try block returns, and the
    array of the caller itself when words or rules are empty and when
    the try block throws. processCommandAI puts an array in newLexicon
    exactly when its try block returns, and that array is new. In a new
    array each place holds the entry of the caller, the same object, or
    a new object. The try block of evolveWords starts after the copy
    [...words] was made, at the first free reference of the heap. *)
Theorem arguments_are_left_unchanged
    (env : Env) (h : heap) (w : World) (words lexicon : nat)
    (rules : list SoundChangeRule) (instruction : string)
    (constraints : ProjectConstraints) :
  (exists w' h' r,
      evolveWordsH env words rules (w, h) = ((w', h'), Ok r)
      /\ h `prefix_of` h'
      /\ (r = words
          \/ (r = length h /\ h !! r = None
              /\ exists current, h' !! r = Some (Arr current)
                                 /\ Forall2 (kept_or_new h) (elems_at h words) current))
      /\ (elems_at h words = [] \/ rules = [] -> r = words /\ h' = h)
      /\ (forall s1 e,
            evolve_bodyH env (elems_at h words) rules (length h)
              (w, h ++ [Arr (elems_at h words)]) = (s1, Throw e) ->
            r = words)
      /\ (elems_at h words = [] \/ rules = [] -> w' = w)
      /\ (forall s1 r0,
            elems_at h words <> [] -> rules <> [] ->
            evolve_bodyH env (elems_at h words) rules (length h)
              (w, h ++ [Arr (elems_at h words)]) = (s1, Ok r0) ->
            r = length h /\ (w', h') = s1
            /\ h !! r = None
            /\ exists current, h' !! r = Some (Arr current)
                               /\ Forall2 (kept_or_new h) (elems_at h words) current)
      /\ (forall s1 e,
            elems_at h words <> [] -> rules <> [] ->
            evolve_bodyH env (elems_at h words) rules (length h)
              (w, h ++ [Arr (elems_at h words)]) = (s1, Throw e) ->
            r = words /\ h' = snd s1 /\ calls w' = calls (fst s1)))
  /\ (exists w' h' res,
        processCommandAIH env lexicon instruction constraints (w, h) = ((w', h'), Ok res)
        /\ h `prefix_of` h'
        /\ (forall l, newLexiconH res = Some l ->
                      h !! l = None
                      /\ exists entries, h' !! l = Some (Arr entries)
                                         /\ Forall2 (kept_or_new h) (elems_at h lexicon) entries)
        /\ (elems_at h lexicon = [] -> newLexiconH res = None /\ (w', h') = (w, h))
        /\ (forall s1 res0,
              elems_at h lexicon <> [] ->
              command_bodyH env (elems_at h lexicon) instruction constraints (w, h)
              = (s1, Ok res0) ->
              res = res0 /\ (w', h') = s1 /\ exists l, newLexiconH res = Some l)
        /\ (forall s1 e,
              elems_at h lexicon <> [] ->
              command_bodyH env (elems_at h lexicon) instruction constraints (w, h)
              = (s1, Throw e) ->
              newLexiconH res = None /\ h' = snd s1 /\ calls w' = calls (fst s1))).
Proof.
  split.
  - unfold evolveWordsH, bind at 1, read. cbn [snd].
    set (elems := elems_at h words).
    destruct ((length elems =? 0)%nat || (length rules =? 0)%nat) eqn:Ec.
    { assert (Hno : elems <> [] -> rules <> [] -> False).
      { intros He Hr. destruct elems; [contradiction |].
        destruct rules; [contradiction | discriminate Ec]. }
      exists w, h, words. split; [reflexivity |]. split; [reflexivity |].
      split; [now left |]. split; [auto |]. split; [auto |]. split; [auto |].
      split; intros s1 x He Hr; now elim (Hno He Hr). }
    assert (Hcond : elems = [] \/ rules = [] -> False).
    { intros [He|Hr].
      - rewrite He in Ec. discriminate.
      - subst rules. cbn in Ec. rewrite orb_true_r in Ec. discriminate. }
    unfold bind at 1, alloc. cbn [fst snd].
    assert (HI : working_copy h elems (length h) (w, h ++ [Arr elems])).
    { split; [now apply prefix_app_r |]. split; [reflexivity |].
      exists elems. split; [cbn [snd]; apply list_lookup_middle; reflexivity |].
      apply Forall_Forall2_diag, Forall_forall. intros x _. now left. }
    unfold try_catch.
    destruct (evolve_bodyH env elems rules (length h) (w, h ++ [Arr elems]))
      as [[w1 h1] [r|e]] eqn:Eb;
      pose proof (evolve_bodyH_working_copy env h elems (length h) elems rules _ _ _ HI Eb)
        as [Hp [_ [current [Hcur HF]]]].
    + pose proof (evolve_bodyH_result _ _ _ _ _ _ _ Eb) as ->.
      exists w1, h1, (length h). split; [reflexivity |]. split; [exact Hp |].
      assert (Hnew : h !! length h = None) by (now apply lookup_ge_None).
      split; [right; split; [reflexivity |]; split; [exact Hnew | eauto] |].
      split; [intros H; now elim (Hcond H) |]. split; [discriminate |].
      split; [intros H; now elim (Hcond H) |]. split; [| discriminate].
      intros s1 r0 _ _ [= <- _]. split; [reflexivity |]. split; [reflexivity |].
      split; [exact Hnew | eauto].
    + unfold bind, ret, in_world, report, print. cbn [fst snd].
      exists {| console := console w1 ++ [(ERROR, [AStr "Evolution Error:";
                  if String.eqb (exn_message e) EmptyString then AExn e
                  else AStr (exn_message e)])];
                calls := calls w1 |}, h1, words.
      split; [reflexivity |]. split; [exact Hp |]. split; [now left |].
      split; [intros H; now elim (Hcond H) |]. split; [reflexivity |].
      split; [intros H; now elim (Hcond H) |]. split; [discriminate |].
      intros s1 e0 _ _ [= <- _]. repeat split.
  - unfold processCommandAIH, bind at 1, read. cbn [snd].
    destruct (length (elems_at h lexicon) =? 0)%nat eqn:Ec.
    { assert (Hno : elems_at h lexicon <> [] -> False).
      { intros He. destruct (elems_at h lexicon); [contradiction | discriminate Ec]. }
      eexists w, h, _. split; [reflexivity |]. split; [reflexivity |].
      split; [discriminate |]. split; [split; reflexivity |].
      split; intros s1 x He; now elim (Hno He). }
    assert (Hcond : elems_at h lexicon = [] -> False).
    { intros He. rewrite He in Ec. discriminate. }
    unfold try_catch.
    destruct (command_bodyH env (elems_at h lexicon) instruction constraints (w, h))
      as [[w1 h1] [res|e]] eqn:Eb;
      destruct (command_bodyH_frame env h _ instruction constraints (w, h) _ _
                  (reflexivity h) Eb) as [Hp Hres].
    + exists w1, h1, res. split; [reflexivity |]. split; [exact Hp |].
      destruct (Hres res eq_refl) as (l' & entries & Hl' & Hle & Hat & HF).
      split.
      { intros l Hl. rewrite Hl in Hl'. injection Hl' as <-.
        split; [now apply lookup_ge_None | eauto]. }
      split; [intros H; now elim (Hcond H) |]. split; [| discriminate].
      intros s1 res0 _ [= <- <-]. eauto.
    + unfold bind, ret, in_world, report, print. cbn [fst snd].
      eexists _, h1, _. split; [reflexivity |]. split; [exact Hp |].
      split; [discriminate |]. split; [intros H; now elim (Hcond H) |].
      split; [discriminate |].
      intros s1 e0 _ [= <- _]. repeat split.
Qed.


Lemma arguments_are_left_unchanged_witness :
  exists w' h',
    evolveWordsH (env_saying chain_answer) 2 rules0 (empty_world, heap0) = ((w', h'), Ok 3%nat)
    /\ heap0 `prefix_of` h'
    /\ exists current, h' !! 3%nat = Some (Arr current)
                       /\ Forall2 (kept_or_new heap0) [0; 1]%nat current.
Proof.
  destruct (arguments_are_left_unchanged (env_saying chain_answer) heap0 empty_world
              2 2 rules0 "x" constraints0) as [(w' & h' & r & Hrun & Hp & Hr & _) _].
  assert (E : r = 3%nat).
  { revert Hrun. vm_compute. now intros [= _ _ <-]. }
  subst r. exists w', h'. split; [exact Hrun |]. split; [exact Hp |].
  destruct Hr as [Hr | (_ & _ & Hc)]; [discriminate Hr | exact Hc].
Defined.

(** C9 fails where it says that the result is always a new collection.
    With no rule evolveWords returns the array of the caller itself, at
    reference 2 of the heap, and does so too when the remote call fails;
    no cell of the heap has changed in either call. *)
Lemma evolveWords_returns_the_argument_itself :
  heap0 !! 2%nat = Some (Arr [0; 1]%nat)
  /\ evolveWordsH (env_saying chain_answer) 2 [] (empty_world, heap0)
     = ((empty_world, heap0), Ok 2%nat)
  /\ (exists w', evolveWordsH remote_down 2 rules0 (empty_world, heap0)
                 = ((w', heap0 ++ [Arr [0; 1]%nat]), Ok 2%nat))
  /\ ~ returns_new_collection (env_saying chain_answer) 2 [] empty_world heap0
  /\ ~ returns_new_collection remote_down 2 rules0 empty_world heap0.
Proof.
  split; [reflexivity |]. split; [reflexivity |].
  split; [eexists; vm_compute; reflexivity |].
  split; intros (s' & r & Hrun & Hnew); revert Hrun; vm_compute;
    intros [= _ <-]; discriminate Hnew.
Qed.

(** On the chain shift the array that the heap model returns denotes the
    lexicon that the model on values returns, and processCommandAI puts
    a new array in newLexicon that shares the untouched second entry
    with the caller. *)
Example heap_model_agrees_on_chain_shift :
  (exists w' h',
      evolveWordsH (env_saying chain_answer) 2 rules0 (empty_world, heap0) = ((w', h'), Ok 3%nat)
      /\ h' !! 3%nat = Some (Arr [5; 1]%nat)
      /\ evolveWords (env_saying chain_answer) (snapshot heap0 2) rules0 empty_world
         = (w', Ok (snapshot h' 3)))
  /\ (exists w' h' res,
        processCommandAIH (env_saying (fence (Json.dq "{'modifications':[{'id':'1','word':'FOO'}]}")))
          2 "x" constraints0 (empty_world, heap0) = ((w', h'), Ok res)
        /\ newLexiconH res = Some 4%nat
        /\ h' !! 4%nat = Some (Arr [3; 1]%nat)
        /\ h' !! 3%nat = Some (Obj [("id", VStr "1"); ("word", VStr "FOO"); ("ipa", VStr "a")])).
Proof.
  split.
  - eexists _, _. split; [vm_compute; reflexivity |]. split; reflexivity.
  - eexists _, _, _. split; [vm_compute; reflexivity |]. repeat split; reflexivity.
Qed.

End FrameClaims.

(** * The heap model and the model on values

  evolveWords and processCommandAI are modelled twice: on values, where
  a lexicon is a list of values, and on a heap, where it is the
  reference of an array of references. The two agree. *)

Module HeapRefinement.
Import Str Js Spec Demo Heap FrameClaims.

Lemma object_at_prefix (h0 h : heap) (l : nat) :
  h0 `prefix_of` h -> (l < length h0)%nat -> object_at h l = object_at h0 l.
Proof.
  intros Hp Hl. unfold object_at. now rewrite <- (prefix_lookup_lt h0 h l Hl Hp).
Qed.

Lemma findIndex_map {A B} (f : A -> B) (p : B -> result bool) (l : list A) :
  findIndex p (map f l) = findIndex (fun x => p (f x)) l.
Proof.
  induction l as [|x l IH]; [reflexivity |]. cbn [map findIndex]. now rewrite IH.
Qed.

Lemma map_result_map {A B C} (f : A -> B) (g : B -> result C) (l : list A) :
  map_result g (map f l) = map_result (fun x => g (f x)) l.
Proof.
  induction l as [|x l IH]; [reflexivity |]. cbn [map map_result]. now rewrite IH.
Qed.

Lemma map_result_ext_in {A B} (f g : A -> result B) (l : list A) :
  Forall (fun x => f x = g x) l -> map_result f l = map_result g l.
Proof.
  induction 1 as [|x l Hx _ IH]; [reflexivity |]. cbn [map_result]. now rewrite Hx, IH.
Qed.

Lemma slice_map {A B} (f : A -> B) (l : list A) (a b : nat) :
  slice (map f l) a b = map f (slice l a b).
Proof.
  unfold slice. change (@map A B f) with (@fmap list _ A B f).
  now rewrite fmap_take, fmap_drop.
Qed.

(** The cell of an array that is replaced by an array denotes the same
    objects. *)
Lemma object_at_store (h : heap) (array l : nat) (old new : list nat) :
  h !! array = Some (Arr old) -> object_at (<[array := Arr new]> h) l = object_at h l.
Proof.
  intros Ha. unfold object_at. destruct (decide (array = l)) as [<-|Hne].
  - rewrite Ha, list_lookup_insert_eq; [reflexivity |]. now apply lookup_lt_Some in Ha.
  - now rewrite list_lookup_insert_ne.
Qed.

Lemma object_at_alloc (h : heap) (c : cell) (l : nat) :
  (l < length h)%nat -> object_at (h ++ [c]) l = object_at h l.
Proof. intros Hl. unfold object_at. now rewrite lookup_app_l. Qed.

Section Evolution.

Variables (env : Env) (h0 : heap) (evolved : nat).

Lemma evolve_oneH_run (res : value) (current : list nat) (w : World) (h : heap) :
  h !! evolved = Some (Arr current) ->
  evolve_oneH env evolved res (w, h) =
    match findIndex (fun l => is_original env res (object_at h l)) current with
    | Ok (Some i) =>
        match evolved_fields env (object_at h (default O (current !! i))) res with
        | Ok fields =>
            ((w, <[evolved := Arr (<[i := length h]> current)]> (h ++ [Obj fields])), Ok tt)
        | Throw e => ((w, h), Throw e)
        end
    | Ok None => ((w, h), Ok tt)
    | Throw e => ((w, h), Throw e)
    end.
Proof.
  intros Hcur. unfold evolve_oneH, bind, read, lift, alloc, store, ret. cbn [fst snd].
  unfold elems_at at 1 2. rewrite Hcur.
  destruct (findIndex _ current) as [[i|]|e]; [| reflexivity | reflexivity].
  destruct (evolved_fields env _ res) as [fields|e]; [| reflexivity].
  cbn [fst snd]. unfold elems_at.
  rewrite lookup_app_l by (now apply lookup_lt_Some in Hcur). now rewrite Hcur.
Qed.

Lemma evolve_oneH_refines (res : value) (lex : list value) (w : World) (h : heap) :
  denotes h0 evolved lex h ->
  match evolve_one env lex res with
  | Ok lex' => exists h', evolve_oneH env evolved res (w, h) = ((w, h'), Ok tt)
                          /\ denotes h0 evolved lex' h'
  | Throw e => exists h', evolve_oneH env evolved res (w, h) = ((w, h'), Throw e)
                          /\ h0 `prefix_of` h'
  end.
Proof.
  intros (Hp & Hle & current & Hcur & Hlt & <-).
  rewrite (evolve_oneH_run res current w h Hcur).
  unfold evolve_one. rewrite findIndex_map.
  destruct (findIndex _ current) as [[i|]|e] eqn:Ei; cbn [bind_result].
  - destruct (MergeClaims.findIndex_first _ _ _ Ei) as [Hi _].
    destruct (lookup_lt_is_Some_2 current i Hi) as [l Hl].
    change (@map nat value (object_at h)) with (@fmap list _ nat value (object_at h)).
    rewrite list_lookup_fmap, Hl. cbn [fmap option_fmap option_map default id].
    unfold evolved_entry.
    destruct (evolved_fields env (object_at h l) res) as [fields|e]; cbn [bind_result];
      [| eauto].
    eexists. split; [reflexivity |].
    assert (He : (evolved < length h)%nat) by (now apply lookup_lt_Some in Hcur).
    split; [apply prefix_insert_beyond; [now apply prefix_alloc | exact Hle] |].
    split; [exact Hle |].
    exists (<[i := length h]> current).
    split; [apply list_lookup_insert_eq; rewrite length_app; lia |].
    split.
    + rewrite length_insert, length_app. cbn [length].
      apply Forall_insert; [| lia].
      eapply Forall_impl; [exact Hlt |]. cbn. intros; lia.
    + rewrite list_fmap_insert. f_equal.
      * erewrite object_at_store by (rewrite lookup_app_l; eassumption).
        unfold object_at. now rewrite list_lookup_middle.
      * apply list_eq. intros j. rewrite !list_lookup_fmap.
        destruct (current !! j) as [x|] eqn:Ex; [| reflexivity]. cbn. f_equal.
        erewrite object_at_store by (rewrite lookup_app_l; eassumption).
        apply object_at_alloc.
        rewrite Forall_lookup in Hlt. exact (Hlt j x Ex).
  - eexists. split; [reflexivity |]. split; [exact Hp |]. split; [exact Hle |]. eauto.
  - eauto.
Qed.

Lemma forEachH_refines (rs : list value) :
  forall (lex : list value) (w : World) (h : heap),
    denotes h0 evolved lex h ->
    match forEach (evolve_one env) rs lex with
    | Ok lex' => exists h', forEachH (evolve_oneH env evolved) rs (w, h) = ((w, h'), Ok tt)
                            /\ denotes h0 evolved lex' h'
    | Throw e => exists h', forEachH (evolve_oneH env evolved) rs (w, h) = ((w, h'), Throw e)
                            /\ h0 `prefix_of` h'
    end.
Proof.
  induction rs as [|res rs IH]; intros lex w h Hd; cbn [forEach forEachH].
  - exists h. split; [reflexivity | exact Hd].
  - pose proof (evolve_oneH_refines res lex w h Hd) as H1. unfold bind.
    destruct (evolve_one env lex res) as [lex1|e]; cbn [bind_result].
    + destruct H1 as (h1 & -> & Hd1). apply IH, Hd1.
    + destruct H1 as (h1 & -> & Hp1). eauto.
Qed.

Lemma evolve_chunkH_refines (key : string) (rules : list SoundChangeRule)
    (chunk : list nat) (lex : list value) (w : World) (h : heap) :
  Forall (fun l => (l < length h0)%nat) chunk ->
  denotes h0 evolved lex h ->
  match evolve_chunk env key rules (map (object_at h0) chunk) lex w with
  | (w1, Ok lex') =>
      exists h', evolve_chunkH env key rules evolved chunk tt (w, h) = ((w1, h'), Ok tt)
                 /\ denotes h0 evolved lex' h'
  | (w1, Throw e) =>
      exists h', evolve_chunkH env key rules evolved chunk tt (w, h) = ((w1, h'), Throw e)
                 /\ h0 `prefix_of` h'
  end.
Proof.
  intros Hc Hd. pose proof Hd as (Hp & _).
  unfold evolve_chunk, evolve_chunkH, bind, in_world, read, lift, starting, print.
  cbn [fst snd].
  rewrite map_result_map.
  rewrite (map_result_ext_in (fun l => get env (object_at h l) "word")
             (fun l => get env (object_at h0 l) "word")).
  2:{ eapply Forall_impl; [exact Hc |]. cbn. intros l Hl.
      now rewrite (object_at_prefix h0 h l Hp Hl). }
  destruct (map_result _ chunk) as [ws|e]; cbn [fst snd]; [| now eexists].
  destruct (generateContent env key (evolve_prompt rules ws) _) as [w2 [text|e]];
    cbn [fst snd]; [| now eexists].
  destruct (safeParseJSON env text w2) as [w3 [results|e]]; cbn [fst snd]; [| now eexists].
  destruct results as [| | | | |rs|]; unfold throw; try (now eexists).
  pose proof (forEachH_refines rs lex w3 h Hd) as Hrs.
  destruct (forEach (evolve_one env) rs lex) as [lex'|e]; exact Hrs.
Qed.

Lemma for_chunks_refines (key : string) (rules : list SoundChangeRule)
    (elems : list nat) (size : nat) :
  Forall (fun l => (l < length h0)%nat) elems ->
  forall (fuel i : nat) (lex : list value) (w : World) (h : heap),
    denotes h0 evolved lex h ->
    match for_chunks fuel size i (map (object_at h0) elems)
            (evolve_chunk env key rules) lex w with
    | (w1, Ok lex') =>
        exists h', for_chunks fuel size i elems (evolve_chunkH env key rules evolved) tt (w, h)
                   = ((w1, h'), Ok tt)
                   /\ denotes h0 evolved lex' h'
    | (w1, Throw e) =>
        exists h', for_chunks fuel size i elems (evolve_chunkH env key rules evolved) tt (w, h)
                   = ((w1, h'), Throw e)
                   /\ h0 `prefix_of` h'
    end.
Proof.
  intros He. induction fuel as [|fuel IH]; intros i lex w h Hd; cbn [for_chunks].
  - exists h. split; [reflexivity | exact Hd].
  - rewrite length_map. destruct (i <? length elems)%nat.
    2:{ exists h. split; [reflexivity | exact Hd]. }
    rewrite slice_map. unfold bind.
    assert (Hc : Forall (fun l => (l < length h0)%nat) (slice elems i (i + size))).
    { unfold slice. now apply Forall_take, Forall_drop. }
    pose proof (evolve_chunkH_refines key rules _ lex w h Hc Hd) as H1.
    destruct (evolve_chunk env key rules _ lex w) as [w1 [lex1|e]].
    + destruct H1 as (h1 & -> & Hd1). apply IH, Hd1.
    + destruct H1 as (h1 & -> & Hp1). eauto.
Qed.

End Evolution.

Lemma snapshot_alloc (h : heap) (c : cell) (elems : list nat) :
  Forall (fun l => (l < length h)%nat) elems ->
  map (object_at (h ++ [c])) elems = map (object_at h) elems.
Proof.
  induction 1 as [|l elems Hl _ IH]; [reflexivity |]. cbn [map].
  now rewrite IH, object_at_alloc.
Qed.

Lemma snapshot_prefix (h h' : heap) (l : nat) :
  h `prefix_of` h' -> Forall (fun x => (x < length h)%nat) (elems_at h l) ->
  elems_at h l <> [] -> snapshot h' l = snapshot h l.
Proof.
  intros Hp Hlt Hne. unfold snapshot.
  assert (E : elems_at h' l = elems_at h l).
  { unfold elems_at in *. destruct (h !! l) as [c|] eqn:El; [| contradiction].
    now rewrite (prefix_lookup_Some h h' l c El Hp). }
  rewrite E. clear E Hne. induction Hlt as [|x xs Hx _ IH]; [reflexivity |]. cbn [map].
  now rewrite IH, (object_at_prefix h h' x Hp Hx).
Qed.

(** The model of evolveWords on the heap and the model on values do the
    same: from a heap whose array [words] holds entries of the heap, the
    console and the prompts are the same, and the array that is returned
    denotes the lexicon that the model on values returns. *)
Theorem evolveWordsH_refines (env : Env) (words : nat) (rules : list SoundChangeRule)
    (w : World) (h : heap) :
  Forall (fun l => (l < length h)%nat) (elems_at h words) ->
  exists w' h' r,
    evolveWordsH env words rules (w, h) = ((w', h'), Ok r)
    /\ evolveWords env (snapshot h words) rules w = (w', Ok (snapshot h' r)).
Proof.
  intros Hlt. unfold evolveWordsH, evolveWords, bind at 1, read. cbn [snd].
  unfold snapshot at 1. rewrite length_map.
  destruct ((length (elems_at h words) =? 0)%nat || (length rules =? 0)%nat) eqn:Ec.
  { exists w, h, words. split; reflexivity. }
  assert (Hne : elems_at h words <> []).
  { intros E. rewrite E in Ec. discriminate. }
  unfold bind at 1, alloc. cbn [fst snd].
  set (elems := elems_at h words) in *.
  assert (Hd : denotes h (length h) (map (object_at h) elems) (h ++ [Arr elems])).
  { split; [now apply prefix_app_r |]. split; [reflexivity |]. exists elems.
    split; [apply list_lookup_middle; reflexivity |].
    split; [| now apply snapshot_alloc].
    rewrite length_app. eapply Forall_impl; [exact Hlt |]. cbn. intros; lia. }
  unfold try_catch, evolve_bodyH, evolve_body, evolve_failed, bind, in_world, ret.
  cbn [fst snd].
  change (snapshot h words) with (map (object_at h) elems).
  destruct (getGenAI env w) as [w1 [key|e]].
  - rewrite length_map.
    pose proof (for_chunks_refines env h (length h) key rules elems CHUNK_SIZE_EVOLVE Hlt
                  (length elems) 0%nat _ w1 _ Hd) as H1.
    destruct (for_chunks _ _ _ (map _ elems) _ _ w1) as [w2 [lex'|e]].
    + destruct H1 as (h' & -> & _ & _ & current & Hcur & _ & <-).
      exists w2, h', (length h). split; [reflexivity |].
      unfold snapshot, elems_at. now rewrite Hcur.
    + destruct H1 as (h' & -> & Hp). unfold report, print. cbn [fst snd].
      eexists _, h', words. split; [reflexivity |].
      now rewrite (snapshot_prefix h h' words Hp Hlt Hne).
  - unfold report, print. cbn [fst snd].
    eexists _, _, words. split; [reflexivity |].
    now rewrite (snapshot_prefix h _ words (prefix_app_r h h [Arr elems] (reflexivity h))
                   Hlt Hne).
Qed.

Lemma apply_modsH_refines (env : Env) (mods : list value) (l : nat) (w : World) (h : heap) :
  (l < length h)%nat ->
  match apply_mods env mods (object_at h l) with
  | Ok v => exists h' l', apply_modsH env mods l (w, h) = ((w, h'), Ok l')
                          /\ h `prefix_of` h' /\ (l' < length h')%nat
                          /\ object_at h' l' = v
  | Throw e => apply_modsH env mods l (w, h) = ((w, h), Throw e)
  end.
Proof.
  intros Hl. unfold apply_mods, apply_modsH, bind, read, lift, alloc, ret. cbn [fst snd].
  destruct (find _ mods) as [[m|]|e]; cbn [bind_result]; [| | reflexivity].
  - destruct (truthy m).
    + eexists _, _. split; [reflexivity |]. split; [now apply prefix_app_r |].
      split; [rewrite length_app; cbn; lia |].
      unfold object_at. now rewrite list_lookup_middle.
    + exists h, l. auto.
  - exists h, l. auto.
Qed.

Lemma mapH_refines (env : Env) (mods : list value) (ls : list nat) :
  forall (w : World) (h : heap),
    Forall (fun l => (l < length h)%nat) ls ->
    match map_result (apply_mods env mods) (map (object_at h) ls) with
    | Ok vs => exists h' ys, mapH (apply_modsH env mods) ls (w, h) = ((w, h'), Ok ys)
                             /\ h `prefix_of` h'
                             /\ Forall (fun l => (l < length h')%nat) ys
                             /\ map (object_at h') ys = vs
    | Throw e => exists h', mapH (apply_modsH env mods) ls (w, h) = ((w, h'), Throw e)
    end.
Proof.
  induction ls as [|l ls IH]; intros w h Hlt; cbn [map map_result mapH].
  - exists h, []. split; [reflexivity |]. split; [reflexivity |]. split; constructor.
  - inversion_clear Hlt as [|? ? Hl Hls].
    pose proof (apply_modsH_refines env mods l w h Hl) as H1.
    destruct (apply_mods env mods (object_at h l)) as [v|e]; cbn [bind_result].
    2:{ unfold bind at 1. rewrite H1. eauto. }
    destruct H1 as (h1 & y & Hrun & Hp1 & Hy & Hv).
    assert (Hls1 : Forall (fun l => (l < length h1)%nat) ls).
    { eapply Forall_impl; [exact Hls |]. cbn. intros x Hx.
      apply prefix_length in Hp1. lia. }
    assert (E : map (object_at h) ls = map (object_at h1) ls).
    { clear IH Hls1. induction Hls as [|x xs Hx _ IHx]; [reflexivity |]. cbn [map].
      now rewrite IHx, (object_at_prefix h h1 x Hp1 Hx). }
    rewrite E. specialize (IH w h1 Hls1).
    destruct (map_result (apply_mods env mods) (map (object_at h1) ls)) as [vs|e];
      cbn [bind_result].
    + destruct IH as (h2 & ys & Hrun2 & Hp2 & Hys & Hvs).
      exists h2, (y :: ys).
      split; [unfold bind at 1; rewrite Hrun; unfold bind; now rewrite Hrun2 |].
      split; [etrans; eassumption |].
      split; [constructor; [apply prefix_length in Hp2; lia | exact Hys] |].
      cbn [map]. now rewrite Hvs, (object_at_prefix h1 h2 y Hp2 Hy), Hv.
    + destruct IH as (h2 & Hrun2). exists h2.
      unfold bind at 1. rewrite Hrun. unfold bind. now rewrite Hrun2.
Qed.

(** The same for processCommandAI: the result on the heap, with the
    lexicon that its array denotes, is the result on values. *)
Theorem processCommandAIH_refines (env : Env) (lexicon : nat) (instruction : string)
    (constraints : ProjectConstraints) (w : World) (h : heap) :
  Forall (fun l => (l < length h)%nat) (elems_at h lexicon) ->
  exists w' h' res,
    processCommandAIH env lexicon instruction constraints (w, h) = ((w', h'), Ok res)
    /\ processCommandAI env (snapshot h lexicon) instruction constraints w
       = (w', Ok (command_result_at h' res)).
Proof.
  intros Hlt. unfold processCommandAIH, processCommandAI, bind at 1, read. cbn [snd].
  unfold snapshot at 1. rewrite length_map.
  destruct (length (elems_at h lexicon) =? 0)%nat.
  { eexists w, h, _. split; reflexivity. }
  change (snapshot h lexicon) with (map (object_at h) (elems_at h lexicon)).
  set (elems := elems_at h lexicon) in *.
  unfold try_catch, command_bodyH, command_body, command_failed, bind, in_world, ret, lift,
    starting, report, print.
  cbn [fst snd].
  destruct (getGenAI env w) as [w1 [key|e]]; cbn [fst snd];
    [| eexists _, _, _; split; reflexivity].
  destruct (generateContent env key _ _) as [w2 [text|e]]; cbn [fst snd];
    [| eexists _, _, _; split; reflexivity].
  destruct (safeParseJSON env text w2) as [w3 [resultData|e]]; cbn [fst snd];
    [| eexists _, _, _; split; reflexivity].
  unfold merge_mods, merge_modsH, bind, lift. cbn [fst snd].
  destruct (get env resultData "modifications") as [m|e]; cbn [bind_result fst snd];
    [| eexists _, _, _; split; reflexivity].
  destruct (if truthy m then m else VArr []) as [| | | | |mods|]; unfold throw;
    cbn [fst snd]; try (eexists _, _, _; split; reflexivity).
  pose proof (mapH_refines env mods elems w3 h Hlt) as H1.
  destruct (map_result (apply_mods env mods) (map (object_at h) elems)) as [vs|e];
    cbn [bind_result].
  - destruct H1 as (h1 & ys & -> & Hp1 & Hys & Hvs). unfold alloc, ret. cbn [fst snd].
    eexists _, _, _. split; [reflexivity |].
    unfold command_result_at. cbn [okH modifiedCountH newLexiconH noteH option_map].
    unfold snapshot, elems_at. rewrite list_lookup_middle by reflexivity.
    now rewrite snapshot_alloc, Hvs.
  - destruct H1 as (h1 & ->). cbn [fst snd]. eexists _, _, _. split; reflexivity.
Qed.

End HeapRefinement.

(** * The key of the client *)

Module KeyProps.
Import Str Regex Js Spec Demo Props StrFacts SearchFacts BareFacts LoopFacts.

Lemma drop_last_quote_keep (s : string) (d : ascii) :
  is_quote d = false ->
  drop_last_quote (s +:+ String d EmptyString) = s +:+ String d EmptyString.
Proof.
  intros Hd. induction s as [|c s IH]; cbn [String.append drop_last_quote].
  - now rewrite Hd.
  - destruct (s +:+ String d EmptyString) as [|x r] eqn:E.
    + destruct s; discriminate E.
    + now rewrite IH.
Qed.

Lemma drop_last_quote_drop (s : string) (q : ascii) :
  is_quote q = true -> drop_last_quote (s +:+ String q EmptyString) = s.
Proof.
  intros Hq. induction s as [|c s IH]; cbn [String.append drop_last_quote].
  - now rewrite Hq.
  - destruct (s +:+ String q EmptyString) as [|x r] eqn:E.
    + destruct s; discriminate E.
    + now rewrite IH.
Qed.

Lemma plain_key_fixed (k : string) :
  plain_key k -> strip_quotes (trim k) = k /\ k <> EmptyString.
Proof.
  intros [(c & -> & Hs & Hq) | (c & m & d & -> & [Hs Hq] & [Hs' Hq'])].
  - split; [| discriminate]. unfold trim. cbn [trimStart]. rewrite Hs.
    cbn [trimEnd]. rewrite Hs. unfold strip_quotes. rewrite Hq.
    cbn [drop_last_quote]. now rewrite Hq.
  - split; [| discriminate]. rewrite (trim_fixed c d m Hs Hs').
    unfold strip_quotes. rewrite Hq.
    change (String c (m +:+ String d EmptyString))
      with (String c m +:+ String d EmptyString).
    now apply drop_last_quote_keep.
Qed.

(** X1: the key in storage wins over the key of the build. After
    setApiKey with a key that is not empty, getApiKey returns that key,
    trimmed and with one quote taken from each end, whatever the key of
    the build is; a key with no white space and no quote at its ends
    comes back as it was stored, and isApiKeySet holds. After setApiKey
    with the empty key, getApiKey falls back to the key of the build. *)
Theorem stored_key_wins (env : Env) (key : string) :
  (key <> EmptyString -> getApiKey (setApiKey env key) = strip_quotes (trim key))
  /\ (plain_key key ->
      getApiKey (setApiKey env key) = key /\ isApiKeySet (setApiKey env key) = true)
  /\ getApiKey (setApiKey env EmptyString)
     = strip_quotes (trim (default EmptyString (build_key env))).
Proof.
  assert (H1 : key <> EmptyString ->
               getApiKey (setApiKey env key) = strip_quotes (trim key)).
  { intros Hk. unfold getApiKey, setApiKey, first_truthy. cbn [stored_key build_key].
    destruct key; [contradiction | reflexivity]. }
  split; [exact H1 |]. split.
  - intros Hp. destruct (plain_key_fixed key Hp) as [E Hne].
    assert (Eg : getApiKey (setApiKey env key) = key) by (now rewrite H1).
    split; [exact Eg |]. unfold isApiKeySet. rewrite Eg.
    destruct (String.eqb_spec key EmptyString); [contradiction | reflexivity].
  - unfold getApiKey, setApiKey, first_truthy. cbn [stored_key build_key].
    now destruct (build_key env).
Qed.

Lemma stored_key_wins_witness :
  getApiKey (setApiKey env_no_key "AIzaSyExample") = "AIzaSyExample"
  /\ isApiKeySet (setApiKey env_no_key "AIzaSyExample") = true.
Proof.
  apply (stored_key_wins env_no_key "AIzaSyExample").
  right. exists "A"%char, "IzaSyExampl", "e"%char.
  repeat split; reflexivity.
Defined.

Lemma blank_trim (b : string) : blank b -> trim b = EmptyString.
Proof.
  intros Hb. unfold trim. apply trimEnd_blank.
  destruct (trimStart_split b) as [a [Ha _]]. intros c Hc. apply Hb.
  rewrite Ha. apply occurs_app. now right.
Qed.

(** X2: when getGenAI returns, the key it gives the client is the key
    of getApiKey trimmed, so it has no white space at either end; one
    line was written to the console and nothing was sent. It throws
    exactly when the key of getApiKey is empty. *)
Theorem getGenAI_gives_trimmed_key (env : Env) (w : World) :
  (getApiKey env = EmptyString /\ getGenAI env w = (w, Throw ConfigurationError))
  \/ (getApiKey env <> EmptyString
      /\ exists w', getGenAI env w = (w', Ok (trim (getApiKey env)))
                    /\ trim (trim (getApiKey env)) = trim (getApiKey env)
                    /\ calls w' = calls w
                    /\ exists line, console w' = console w ++ [line]).
Proof.
  destruct (String.eqb_spec (getApiKey env) EmptyString) as [E|E].
  - left. split; [exact E | now apply getGenAI_no_key].
  - right. split; [exact E |]. unfold getGenAI, bind, throw, ret, print.
    destruct (String.eqb_spec (getApiKey env) EmptyString) as [|_]; [contradiction |].
    destruct (String.eqb (getApiKey env) "PLACEHOLDER_API_KEY");
      (eexists; split; [reflexivity |]; split; [apply trim_idem |];
       split; [reflexivity |]; eexists; reflexivity).
Qed.

(** X3: the test for a missing key comes before the last trim. With a
    stored key that is white space between two quotes, isApiKeySet
    holds and getGenAI does not throw, yet the client is built with the
    empty key. *)
Theorem blank_key_passes_the_check (env : Env) (b : string) (q q' : ascii) (w : World) :
  blank b -> b <> EmptyString -> is_quote q = true -> is_quote q' = true ->
  stored_key env = Some (String q (b +:+ String q' EmptyString)) ->
  getApiKey env = b
  /\ isApiKeySet env = true
  /\ exists w', getGenAI env w = (w', Ok EmptyString) /\ calls w' = calls w.
Proof.
  intros Hb Hne Hq Hq' Hs.
  assert (Hsp : forall c, is_quote c = true -> is_space c = false).
  { intros c Hc. unfold is_quote in Hc. apply orb_true_iff in Hc as [Hc|Hc];
      apply Ascii.eqb_eq in Hc; subst c; reflexivity. }
  assert (Eg : getApiKey env = b).
  { unfold getApiKey, first_truthy. rewrite Hs.
    rewrite (trim_fixed q q' b (Hsp q Hq) (Hsp q' Hq')).
    unfold strip_quotes. rewrite Hq. now apply drop_last_quote_drop. }
  split; [exact Eg |]. split.
  - unfold isApiKeySet. rewrite Eg.
    destruct (String.eqb_spec b EmptyString); [contradiction | reflexivity].
  - destruct (getGenAI_key env w) as (w' & Hrun & Hc); [now rewrite Eg |].
    exists w'. rewrite Hrun, Eg, (blank_trim b Hb). auto.
Qed.

Lemma blank_key_passes_the_check_witness :
  isApiKeySet (setApiKey env_no_key (Json.dq "'  '")) = true
  /\ exists w', getGenAI (setApiKey env_no_key (Json.dq "'  '")) empty_world
                = (w', Ok EmptyString).
Proof.
  destruct (blank_key_passes_the_check (setApiKey env_no_key (Json.dq "'  '"))
              "  " DQUOTE DQUOTE empty_world) as (_ & H1 & w' & H2 & _).
  - intros c [<-|[<-|[]]]; reflexivity.
  - discriminate.
  - reflexivity.
  - reflexivity.
  - reflexivity.
  - split; [exact H1 | now exists w'].
Defined.

End KeyProps.

(** * More on the tolerant parser *)

Module ParserProps.
Import Str Regex Js Spec Demo Props StrFacts SearchFacts SelectFacts ParseFacts BareFacts
  LoopFacts ParserClaims.

Lemma clean_started (s : string) :
  startsWith (trim s) "{" = true \/ startsWith (trim s) "[" = true ->
  clean s = Ok (trim s).
Proof.
  intros H. unfold clean. destruct H as [-> | ->]; [reflexivity |].
  cbn [negb]. now rewrite andb_false_r.
Qed.

(** X4: safeParseJSON never returns a scalar. Whatever it returns is
    an object or an array, and a call that returns has written nothing
    to the console and sent nothing. *)
Theorem safeParseJSON_returns_containers
    (env : Env) (text : string) (w w' : World) (v : value) :
  safeParseJSON env text w = (w', Ok v) ->
  w' = w /\ ((exists fields, v = VObj fields) \/ (exists items, v = VArr items)).
Proof.
  intros H. split; [| exact (safeParseJSON_container env text w w' v H)].
  rewrite safeParseJSON_extract in H.
  destruct (extract env text); now inversion H.
Qed.

Lemma safeParseJSON_returns_containers_witness :
  exists items,
    VArr [VObj [("a", VNum 1 0)]; VObj [("b", VNum 2 0)]] = VArr items.
Proof.
  destruct (safeParseJSON_returns_containers (env_saying prose) fenced_array
              empty_world empty_world
              (VArr [VObj [("a", VNum 1 0)]; VObj [("b", VNum 2 0)]]) eq_refl)
    as [_ [[f Hf] | H]]; [discriminate Hf | exact H].
Defined.

(** X5: a fenced block is read whatever surrounds it. When the content
    of the first block tagged as JSON, trimmed, starts with an opening
    brace or bracket and is valid JSON, safeParseJSON returns its value
    and writes nothing: prose, braces and brackets outside the block do
    not matter, and an array of objects inside it is returned whole. *)
Theorem safeParseJSON_reads_fenced_block
    (env : Env) (text inner : string) (v : value) (w : World) :
  fenced text inner ->
  startsWith (trim inner) "{" = true \/ startsWith (trim inner) "[" = true ->
  Json.parse (trim inner) = Some v ->
  safeParseJSON env text w = (w, Ok v).
Proof.
  intros Hf Hs Hv.
  assert (Hne : inner <> EmptyString).
  { intros ->. destruct Hs as [Hs|Hs]; discriminate Hs. }
  rewrite safeParseJSON_run, (select_fenced text inner Hf Hne), (clean_started inner Hs).
  cbn [bind_result]. unfold JSON_parse. now rewrite Hv.
Qed.

Lemma safeParseJSON_reads_fenced_block_witness :
  safeParseJSON (env_saying prose) fenced_array empty_world
  = (empty_world, Ok (VArr [VObj [("a", VNum 1 0)]; VObj [("b", VNum 2 0)]])).
Proof.
  apply (safeParseJSON_reads_fenced_block _ _ (Json.dq "[{'a':1},{'b':2}]")).
  - apply match_fence_sound. reflexivity.
  - right. reflexivity.
  - reflexivity.
Defined.

(** X6: an object inside prose is found. In a text with no fenced
    block that has content, when the text from the first opening brace
    to the last closing brace is valid JSON, safeParseJSON returns its
    value, whatever stands before the first opening brace and after the
    last closing one. When that text is not valid JSON, as with two
    objects side by side, safeParseJSON throws the SyntaxError and logs
    the raw text. *)
Theorem safeParseJSON_finds_object_in_prose
    (env : Env) (text mid : string) (w : World) :
  (forall inner, fenced text inner -> inner = EmptyString) ->
  brace_pair text mid ->
  safeParseJSON env text w =
    match Json.parse (String "{" (mid +:+ "}")) with
    | Some v => (w, Ok v)
    | None => (logged text w,
               Throw (SyntaxError (syntax_error_text env (String "{" (mid +:+ "}")))))
    end.
Proof.
  intros Hnf Hb.
  rewrite safeParseJSON_run, (select_not_fenced text Hnf).
  rewrite (select_unfenced_braces text mid Hb), clean_braces.
  cbn [bind_result]. unfold JSON_parse.
  now destruct (Json.parse (String "{" (mid +:+ "}"))).
Qed.

Lemma safeParseJSON_finds_object_in_prose_witness :
  safeParseJSON (env_saying prose) bare_object empty_world
  = (empty_world,
     Ok (VObj [("name", VStr "Elvish"); ("vowels", VArr [VStr "a"; VStr "e"])])).
Proof.
  rewrite (safeParseJSON_finds_object_in_prose _ bare_object
             (Json.dq "'name':'Elvish','vowels':['a','e']")).
  - reflexivity.
  - intros inner Hf. now elim (no_fence_by_match bare_object eq_refl inner).
  - exists " ", " ". split; [reflexivity |].
    split; apply not_occurs_by_index; reflexivity.
Defined.

(** X19: in a text with no brace and no fenced block that has content,
    what stands before the first opening bracket is dropped and what
    follows it is parsed as it is, nothing being dropped at the end:
    the value is returned when that rest is valid JSON, and otherwise
    the raw text is logged and the SyntaxError thrown. *)
Theorem safeParseJSON_drops_prose_before_array
    (env : Env) (text pre rest : string) (w : World) :
  (forall inner, fenced text inner -> inner = EmptyString) ->
  ~ occurs "{" text ->
  trim text = pre +:+ String "[" rest ->
  ~ occurs "[" pre ->
  safeParseJSON env text w =
    match Json.parse (String "[" rest) with
    | Some v => (w, Ok v)
    | None => (logged text w,
               Throw (SyntaxError (syntax_error_text env (String "[" rest))))
    end.
Proof.
  intros Hnf Hno Ht Hpre.
  assert (Hnb : forall mid, ~ brace_pair text mid).
  { intros mid (p & q & E & _). apply Hno. rewrite E.
    apply occurs_app. right. now left. }
  rewrite safeParseJSON_run, (select_not_fenced text Hnf).
  rewrite (proj2 (select_unfenced_plain text Hnb)).
  assert (Ec : clean (trim text) = Ok (String "[" rest)).
  { unfold clean. rewrite trim_idem, Ht.
    destruct pre as [|c pre'].
    - cbn [String.append]. unfold startsWith. rewrite !prefix_char. reflexivity.
    - assert (Hc1 : c <> "["%char) by (intros ->; apply Hpre; now left).
      assert (Hc2 : c <> "{"%char).
      { intros ->. apply Hno, occurs_trim. rewrite Ht. now left. }
      unfold startsWith. cbn [String.append]. rewrite !prefix_char.
      destruct (Ascii.eqb_spec "{" c) as [<-|_]; [congruence |].
      destruct (Ascii.eqb_spec "[" c) as [<-|_]; [congruence |].
      cbn [negb andb].
      change (String c (pre' +:+ String "[" rest)) with (String c pre' +:+ String "[" rest).
      rewrite (indexOf_char_first "[" (String c pre') rest Hpre).
      rewrite indexOf_char_none.
      2:{ intros H. apply Hno, occurs_trim. now rewrite Ht. }
      pose proof (len_nonneg (String c pre')).
      destruct (Z.eqb_spec (len (String c pre')) (-1)); [lia |].
      cbn [negb andb orb Z.eqb]. now rewrite substringFrom_app. }
  rewrite Ec. cbn [bind_result]. unfold JSON_parse.
  now destruct (Json.parse (String "[" rest)).
Qed.

Lemma safeParseJSON_drops_prose_before_array_witness :
  safeParseJSON (env_saying prose) (Json.dq "Here you go: ['ka','ke'] ") empty_world
  = (empty_world, Ok (VArr [VStr "ka"; VStr "ke"])).
Proof.
  rewrite (safeParseJSON_drops_prose_before_array _ _ "Here you go: " (Json.dq "'ka','ke']")).
  - reflexivity.
  - intros inner Hf.
    now elim (no_fence_by_match (Json.dq "Here you go: ['ka','ke'] ") eq_refl inner).
  - apply not_occurs_by_index. reflexivity.
  - reflexivity.
  - apply not_occurs_by_index. reflexivity.
Defined.

End ParserProps.

(** * The operations that send one prompt *)

Module SingleCallProps.
Import Str Regex Js Spec Demo Props StrFacts SearchFacts ParseFacts BareFacts LoopFacts
  ParserClaims.

(** X7: safeParsePhonologyConfig fails exactly when the extraction of
    safeParseJSON fails, with the same error and after two diagnostic
    lines that carry the raw text, that of safeParseJSON first. When
    the extraction returns a value, the normaliser cannot fail and
    nothing is written. *)
Theorem safeParsePhonologyConfig_fails_with_the_parser
    (env : Env) (text : string) (w : World) :
  match extract env text with
  | Ok v => exists cfg, normalizePhonology env v = Ok cfg
                        /\ safeParsePhonologyConfig env text w = (w, Ok cfg)
  | Throw e => safeParsePhonologyConfig env text w = (logged_twice text w, Throw e)
  end.
Proof.
  pose proof (safeParseJSON_extract env text w) as Hrun.
  unfold safeParsePhonologyConfig, try_catch, bind, lift, print, throw.
  destruct (extract env text) as [v|e]; rewrite Hrun.
  2:{ unfold logged, logged_twice. cbn [console calls].
      now rewrite <- List.app_assoc. }
  destruct (safeParseJSON_container env text w w v Hrun) as [[f ->]|[l ->]];
    (rewrite normalizePhonology_defined by discriminate; eexists; split; reflexivity).
Qed.

(** X8: suggestIPA never rejects. With no key it returns the text
    /error/ and sends nothing; with a key it sends its one prompt and
    returns the trimmed answer, or /error/ when the remote call fails.
    A caller cannot tell a failure from a model that answered
    /error/. *)
Theorem suggestIPA_never_rejects
    (env : Env) (word phonologyDescription : string) (w : World) :
  exists w' s,
    suggestIPA env word phonologyDescription w = (w', Ok s)
    /\ ((getApiKey env = EmptyString /\ s = "/error/" /\ calls w' = calls w)
        \/ (getApiKey env <> EmptyString
            /\ calls w' = calls w ++ [suggest_prompt word phonologyDescription]
            /\ s = match remote env (trim (getApiKey env)) (calls w)
                           (suggest_prompt word phonologyDescription) with
                   | Ok text => trim text
                   | Throw _ => "/error/"
                   end)).
Proof.
  unfold suggestIPA, try_catch, suggest_body, suggest_failed, bind.
  destruct (String.eqb_spec (getApiKey env) EmptyString) as [E|E].
  - rewrite (getGenAI_no_key env w E). unfold report, print, ret.
    eexists _, _. split; [reflexivity |]. left. auto.
  - destruct (getGenAI_key env w E) as (w0 & -> & Hc).
    unfold starting, print, generateContent, report, ret. cbn [calls console].
    fold (suggest_prompt word phonologyDescription). rewrite Hc.
    destruct (remote env _ (calls w) _) as [text|e];
      (eexists _, _; split; [reflexivity |]; right; cbn [calls]; auto).
Qed.

(** X9: analyzeSyntax never rejects. With no key it returns its fixed
    error text and sends nothing; with a key it sends its one prompt and
    returns the answer as the model gave it, untrimmed, or the fixed
    error text when the remote call fails. *)
Theorem analyzeSyntax_never_rejects
    (env : Env) (sentence grammarRules : string) (morphology : value) (w : World) :
  exists w' s,
    analyzeSyntax env sentence grammarRules morphology w = (w', Ok s)
    /\ ((getApiKey env = EmptyString
         /\ s = "Error analyzing syntax. Verifica tu API key."
         /\ calls w' = calls w)
        \/ (getApiKey env <> EmptyString
            /\ calls w' = calls w ++ [analyze_prompt sentence grammarRules morphology]
            /\ s = match remote env (trim (getApiKey env)) (calls w)
                           (analyze_prompt sentence grammarRules morphology) with
                   | Ok text => text
                   | Throw _ => "Error analyzing syntax. Verifica tu API key."
                   end)).
Proof.
  unfold analyzeSyntax, try_catch, analyze_body, analyze_failed, bind.
  destruct (String.eqb_spec (getApiKey env) EmptyString) as [E|E].
  - rewrite (getGenAI_no_key env w E). unfold report, print, ret.
    eexists _, _. split; [reflexivity |]. left. auto.
  - destruct (getGenAI_key env w E) as (w0 & -> & Hc).
    unfold starting, print, generateContent, report, ret. cbn [calls console].
    fold (analyze_prompt sentence grammarRules morphology). rewrite Hc.
    destruct (remote env _ (calls w) _) as [text|e];
      (eexists _, _; split; [reflexivity |]; right; cbn [calls]; auto).
Qed.

Lemma or_else_nonempty (a b : string) : b <> EmptyString -> or_else a b <> EmptyString.
Proof.
  intros Hb. unfold or_else. destruct (String.eqb_spec a EmptyString); assumption.
Qed.

Lemma enriched_shape (e : exn) :
  exists cause, cause <> EmptyString
                /\ enriched e = Error ("Error generating words: " +:+ cause).
Proof.
  eexists. split; [| reflexivity]. now apply or_else_nonempty.
Qed.

(** X10: generateWords returns only arrays that are not empty, parsed
    from the answer to its one prompt. Every failure is thrown as an
    Error whose message is the text Error generating words: followed by
    a cause that is not empty; an answer that parses to an empty array
    or to an object is such a failure, with the cause that no words
    could be generated. At most one prompt is sent. *)
Theorem generateWords_words_or_enriched_error
    (env : Env) (count : Z) (constraints vibe : string)
    (projectRules : option ProjectConstraints) (w : World) :
  let p := generate_prompt (Z.min count 15) vibe projectRules in
  exists w' r,
    generateWords env count constraints vibe projectRules w = (w', r)
    /\ (calls w' = calls w \/ calls w' = calls w ++ [p])
    /\ match r with
       | Ok words =>
           words <> []
           /\ exists text, remote env (trim (getApiKey env)) (calls w) p = Ok text
                           /\ extract env text = Ok (VArr words)
       | Throw e =>
           exists cause, cause <> EmptyString
                         /\ e = Error ("Error generating words: " +:+ cause)
       end
    /\ (forall text,
          getApiKey env <> EmptyString ->
          remote env (trim (getApiKey env)) (calls w) p = Ok text ->
          extract env text = Ok (VArr []) \/ (exists f, extract env text = Ok (VObj f)) ->
          r = Throw (enriched no_words)).
Proof.
  intros p. unfold generateWords, try_catch, generate_body, generate_failed, bind.
  destruct (String.eqb_spec (getApiKey env) EmptyString) as [E|E].
  { rewrite (getGenAI_no_key env w E). unfold report, print, throw.
    eexists _, _. split; [reflexivity |]. split; [now left |].
    split; [apply enriched_shape | intros; contradiction]. }
  destruct (getGenAI_key env w E) as (w0 & -> & Hc).
  unfold starting, print, generateContent. cbn [calls console].
  fold (generate_prompt (Z.min count 15) vibe projectRules). fold p. rewrite Hc.
  destruct (remote env _ (calls w) p) as [text|e] eqn:Er.
  2:{ unfold report, print, throw. eexists _, _. split; [reflexivity |].
      split; [now right |]. split; [apply enriched_shape | discriminate]. }
  rewrite safeParseJSON_extract.
  destruct (extract env text) as [v|e] eqn:Ex.
  2:{ unfold report, print, throw. eexists _, _. split; [reflexivity |].
      split; [now right |]. split; [apply enriched_shape |].
      intros t _ [= <-] [H|[f H]]; rewrite Ex in H; discriminate H. }
  destruct v as [| | | | |[|x xs]|f]; unfold report, print, throw, ret; cbn [exn_message];
    eexists _, _; (split; [reflexivity |]); (split; [now right |]);
    try (split; [apply enriched_shape | intros; reflexivity]).
  split; [split; [discriminate | eauto] |].
  intros t _ [= <-] [H|[f H]]; rewrite Ex in H; discriminate H.
Qed.

(** X11: generateWords asks for at most fifteen words and does not
    read its constraints argument: for every count from fifteen on, and
    whatever the two constraints texts are, the call is the call for
    fifteen. *)
Theorem generateWords_caps_the_count
    (env : Env) (count : Z) (constraints constraints' vibe : string)
    (projectRules : option ProjectConstraints) (w : World) :
  15 <= count ->
  generateWords env count constraints vibe projectRules w
  = generateWords env 15 constraints' vibe projectRules w.
Proof.
  intros H. unfold generateWords, generate_body.
  now rewrite (Z.min_r count 15 H).
Qed.

Lemma generateWords_caps_the_count_witness :
  generateWords (env_saying prose) 50 "CVC" "elvish" None empty_world
  = generateWords (env_saying prose) 15 "any" "elvish" None empty_world.
Proof. apply generateWords_caps_the_count. lia. Defined.

End SingleCallProps.

(** * What evolveWords keeps *)

Module EvolveProps.
Import Str Regex Js Spec Demo Props StrFacts SearchFacts ParseFacts ChunkFacts LoopFacts.

Lemma lookup_set_eq (k : string) (v : value) (l : list (string * value)) :
  lookup k (set k v l) = Some v.
Proof.
  induction l as [|[k' v'] l IH]; cbn [set lookup].
  - now rewrite String.eqb_refl.
  - destruct (String.eqb_spec k' k) as [->|Hne]; cbn [lookup].
    + now rewrite String.eqb_refl.
    + destruct (String.eqb_spec k' k); [contradiction | exact IH].
Qed.

Lemma lookup_set_ne (k k' : string) (v : value) (l : list (string * value)) :
  k <> k' -> lookup k (set k' v l) = lookup k l.
Proof.
  intros Hne. induction l as [|[x y] l IH]; cbn [set lookup].
  - destruct (String.eqb_spec k' k); [congruence | reflexivity].
  - destruct (String.eqb_spec x k') as [->|Hx]; cbn [lookup].
    + destruct (String.eqb_spec k' k); [congruence | reflexivity].
    + destruct (String.eqb_spec x k); [reflexivity | exact IH].
Qed.

Lemma get_prop (env : Env) (v x : value) (k : string) :
  get env v k = Ok x -> x = prop v k.
Proof. destruct v; cbn; congruence. Qed.

Lemma Forall2_chain {A} (R : A -> A -> Prop) (a b c : list A) :
  (forall x y z, R x y -> R y z -> R x z) ->
  Forall2 R a b -> Forall2 R b c -> Forall2 R a c.
Proof.
  intros Ht H. revert c. induction H as [|x y a b Hxy _ IH]; intros c Hc.
  - inversion Hc. constructor.
  - inversion Hc as [|? z ? c' Hyz Hbc]; subst. constructor; eauto.
Qed.

Lemma Forall2_same {A} (R : A -> A -> Prop) (l : list A) :
  (forall x, R x x) -> Forall2 R l l.
Proof. intros Hr. apply Forall_Forall2_diag, Forall_forall. auto. Qed.

(** A relation between the entry of the caller and the entry at the same
    place of the result holds at the end when every replacement keeps
    it. *)
Section Pointwise.

Variables (env : Env) (R : value -> value -> Prop).
Hypothesis R_refl : forall x, R x x.
Hypothesis R_trans : forall x y z, R x y -> R y z -> R x z.
Hypothesis R_step : forall current res fields,
    evolved_fields env current res = Ok fields -> R current (VObj fields).

Lemma evolve_one_pointwise (lex lex' : list value) (res : value) :
  evolve_one env lex res = Ok lex' -> Forall2 R lex lex'.
Proof.
  unfold evolve_one.
  destruct (findIndex (is_original env res) lex) as [[i|]|] eqn:Ei; cbn [bind_result];
    [| intros [= <-]; now apply Forall2_same | discriminate].
  destruct (MergeClaims.findIndex_first _ _ _ Ei) as [Hi _].
  destruct (lookup_lt_is_Some_2 lex i Hi) as [current Hc]. rewrite Hc. cbn [default id].
  unfold evolved_entry.
  destruct (evolved_fields env current res) as [fields|] eqn:Ef; cbn [bind_result].
  2:{ discriminate. }
  intros [= <-]. rewrite <- (list_insert_id lex i current Hc) at 1.
  apply Forall2_insert; [now apply Forall2_same | eapply R_step; exact Ef].
Qed.

Lemma forEach_pointwise (rs : list value) :
  forall lex lex', forEach (evolve_one env) rs lex = Ok lex' -> Forall2 R lex lex'.
Proof.
  induction rs as [|res rs IH]; intros lex lex'; cbn [forEach].
  - intros [= <-]. now apply Forall2_same.
  - destruct (evolve_one env lex res) as [lex1|] eqn:E1; cbn [bind_result]; [| discriminate].
    intros H. eapply Forall2_chain; [exact R_trans | | apply IH, H].
    now apply (evolve_one_pointwise lex lex1 res).
Qed.

Lemma run_chunks_pointwise (key : string) (rules : list SoundChangeRule)
    (cs : list (list value)) :
  forall lex lex' w w',
    run_chunks (evolve_chunk env key rules) cs lex w = (w', Ok lex') -> Forall2 R lex lex'.
Proof.
  induction cs as [|c cs IH]; intros lex lex' w w'; cbn [run_chunks].
  - intros [= _ <-]. now apply Forall2_same.
  - unfold bind.
    destruct (evolve_chunk env key rules c lex w) as [w1 [lex1|]] eqn:E1; [| discriminate].
    intros H. destruct (evolve_chunk_ok _ _ _ _ _ _ _ _ E1) as (p & rs & _ & _ & Hrs).
    eapply Forall2_chain; [exact R_trans | apply (forEach_pointwise rs), Hrs |].
    eapply IH, H.
Qed.

Lemma evolveWords_pointwise (words : list value) (rules : list SoundChangeRule) (w : World) :
  exists w' lex, evolveWords env words rules w = (w', Ok lex) /\ Forall2 R words lex.
Proof.
  unfold evolveWords.
  destruct ((length words =? 0)%nat || (length rules =? 0)%nat).
  { exists w, words. split; [reflexivity | now apply Forall2_same]. }
  unfold try_catch. rewrite BatchClaims.evolve_body_run.
  destruct (getGenAI env w) as [w0 [key|e]].
  - destruct (run_chunks _ _ words w0) as [w1 [lex|e]] eqn:Er.
    + exists w1, lex. split; [reflexivity |]. eapply run_chunks_pointwise, Er.
    + unfold evolve_failed, report, bind, print, ret.
      eexists _, words. split; [reflexivity | now apply Forall2_same].
  - unfold evolve_failed, report, bind, print, ret.
    eexists _, words. split; [reflexivity | now apply Forall2_same].
Qed.

End Pointwise.

Lemma evolved_from_step (env : Env) (current res : value) (fields : list (string * value)) :
  evolved_fields env current res = Ok fields -> evolved_from current (VObj fields).
Proof.
  unfold evolved_fields.
  destruct (get env res "newWord"); cbn [bind_result]; [| discriminate].
  destruct (get env res "newIPA"); cbn [bind_result]; [| discriminate].
  destruct (get env current "etymology"); cbn [bind_result]; [| discriminate].
  destruct (get env res "changeLog"); cbn [bind_result]; [| discriminate].
  intros [= <-]. right. eexists. split; [reflexivity |]. intros k H1 H2 H3.
  now rewrite !lookup_set_ne by assumption.
Qed.

Lemma evolved_from_trans (x y z : value) :
  evolved_from x y -> evolved_from y z -> evolved_from x z.
Proof.
  intros [->|(f & -> & Hf)] [->|(g & -> & Hg)]; try (now left); right.
  - eauto.
  - eauto.
  - exists g. split; [reflexivity |]. intros k H1 H2 H3.
    rewrite (Hg k H1 H2 H3). cbn [own_props]. now apply Hf.
Qed.

(** X12: evolveWords never rejects, and its result lines up with the
    list of the caller: it has as many entries, and the entry at each
    place is the entry of the caller itself or an object with every own
    property of that entry except word, ipa and etymology, which are
    the only ones a sound change writes. The identifier of an entry is
    therefore never changed, on any path. *)
Theorem evolveWords_keeps_the_other_properties
    (env : Env) (words : list value) (rules : list SoundChangeRule) (w : World) :
  exists w' lex,
    evolveWords env words rules w = (w', Ok lex)
    /\ length lex = length words
    /\ Forall2 evolved_from words lex.
Proof.
  destruct (evolveWords_pointwise env evolved_from (fun x => or_introl eq_refl)
              evolved_from_trans (evolved_from_step env) words rules w)
    as (w' & lex & Hrun & HF).
  exists w', lex. split; [exact Hrun |]. split; [| exact HF].
  symmetry. eapply Forall2_length, HF.
Qed.

Lemma etymology_text_string (fields : list (string * value)) (s : string) :
  lookup "etymology" fields = Some (VStr s) -> etymology_text (VObj fields) = s.
Proof.
  intros H. unfold etymology_text. cbn [prop]. rewrite H. cbn.
  now destruct (String.eqb_spec s EmptyString) as [->|].
Qed.

Lemma extends_etymology_step (env : Env) (current res : value)
    (fields : list (string * value)) :
  evolved_fields env current res = Ok fields -> extends_etymology current (VObj fields).
Proof.
  unfold evolved_fields.
  destruct (get env res "newWord"); cbn [bind_result]; [| discriminate].
  destruct (get env res "newIPA"); cbn [bind_result]; [| discriminate].
  destruct (get env current "etymology") as [e|] eqn:Ee; cbn [bind_result]; [| discriminate].
  destruct (get env res "changeLog") as [c|]; cbn [bind_result]; [| discriminate].
  intros [= <-]. apply get_prop in Ee. subst e.
  exists ("; " +:+ to_string c).
  erewrite etymology_text_string by apply lookup_set_eq. reflexivity.
Qed.

Lemma extends_etymology_trans (x y z : value) :
  extends_etymology x y -> extends_etymology y z -> extends_etymology x z.
Proof.
  intros [a Ha] [b Hb]. exists (a +:+ b). now rewrite Hb, Ha, app_assoc.
Qed.

(** X13: the etymology of an entry is only ever appended to. In the
    result of evolveWords the etymology of the entry at each place
    starts with the etymology that the entry of the caller had at that
    place (the empty text when it had none), whatever the model
    answered and however many records named the entry. *)
Theorem evolveWords_appends_to_the_etymology
    (env : Env) (words : list value) (rules : list SoundChangeRule) (w : World) :
  exists w' lex,
    evolveWords env words rules w = (w', Ok lex)
    /\ Forall2 extends_etymology words lex.
Proof.
  apply (evolveWords_pointwise env extends_etymology).
  - intros x. exists EmptyString. now rewrite app_nil_r.
  - exact extends_etymology_trans.
  - exact (extends_etymology_step env).
Qed.

End EvolveProps.

(** * The batches: what every run keeps *)

Module BatchProps.
Import Str Regex Js Spec Demo Props StrFacts SearchFacts ParseFacts ChunkFacts LoopFacts.

Lemma findIndex_spec {A} (p : A -> result bool) (l : list A) (i : nat) :
  findIndex p l = Ok (Some i) ->
  exists x, l !! i = Some x /\ p x = Ok true
            /\ forall j y, (j < i)%nat -> l !! j = Some y -> p y = Ok false.
Proof.
  revert i. induction l as [|a l IH]; intros i; cbn [findIndex]; [discriminate |].
  destruct (p a) as [[]|] eqn:Ea; cbn [bind_result]; [| | discriminate].
  - intros [= <-]. exists a. split; [reflexivity |]. split; [exact Ea |]. intros; lia.
  - destruct (findIndex p l) as [[k|]|]; cbn [bind_result option_map]; try discriminate.
    intros [= <-]. destruct (IH k eq_refl) as (x & Hx & Hp & Hbefore).
    exists x. split; [exact Hx |]. split; [exact Hp |].
    intros [|j] y Hj; cbn; [now intros [= <-] | intros Hy; apply (Hbefore j y); [lia | exact Hy]].
Qed.

(** X14: one record of the answer renames at most one entry, the first
    whose word is the original word of the record. Every other entry of
    the working copy is left as it is, also a later entry with the same
    word. *)
Theorem evolve_one_renames_first_match
    (env : Env) (lex lex' : list value) (res : value) (j : nat) (x : value) :
  evolve_one env lex res = Ok lex' ->
  lex !! j = Some x ->
  lex' !! j = Some x
  \/ (is_original env res x = Ok true
      /\ forall i y, (i < j)%nat -> lex !! i = Some y -> is_original env res y = Ok false).
Proof.
  unfold evolve_one.
  destruct (findIndex (is_original env res) lex) as [[i|]|] eqn:Ei; cbn [bind_result];
    [| intros [= <-]; auto | discriminate].
  destruct (evolved_entry env _ res) as [entry|]; cbn [bind_result]; [| discriminate].
  intros [= <-] Hj. destruct (findIndex_spec _ _ _ Ei) as (c & Hc & Hp & Hbefore).
  destruct (decide (i = j)) as [->|Hne].
  - right. rewrite Hj in Hc. injection Hc as <-. auto.
  - left. now rewrite list_lookup_insert_ne.
Qed.

Lemma evolve_one_renames_first_match_witness :
  let a := VObj [("id", VStr "1"); ("word", VStr "sol")] in
  let b := VObj [("id", VStr "2"); ("word", VStr "sol")] in
  let res := VObj [("originalWord", VStr "sol"); ("newWord", VStr "sul");
                   ("newIPA", VStr "sul"); ("changeLog", VStr "o>u")] in
  exists lex', evolve_one (env_saying prose) [a; b] res = Ok lex' /\ lex' !! 1%nat = Some b.
Proof.
  intros a b res. eexists. split; [reflexivity |].
  destruct (evolve_one_renames_first_match (env_saying prose) [a; b] _ res 1 b eq_refl eq_refl)
    as [H | [_ H]]; [exact H |].
  specialize (H 0%nat a (Nat.lt_0_1) eq_refl). discriminate H.
Defined.

Lemma run_chunks_calls {A St} (body : list A -> St -> M St) (cs : list (list A)) :
  (forall c st w w' r, body c st w = (w', r) ->
                       calls w' = calls w \/ exists p, calls w' = calls w ++ [p]) ->
  forall st w w' r,
    run_chunks body cs st w = (w', r) ->
    exists ps, calls w' = calls w ++ ps /\ (length ps <= length cs)%nat.
Proof.
  intros Hb. induction cs as [|c cs IH]; intros st w w' r; cbn [run_chunks].
  - intros [= <- _]. exists []. split; [now rewrite List.app_nil_r | reflexivity].
  - unfold bind. destruct (body c st w) as [w1 [st1|e]] eqn:E1.
    + intros H. destruct (IH _ _ _ _ H) as (ps & Hps & Hlen).
      destruct (Hb _ _ _ _ _ E1) as [Hc | [p Hc]]; rewrite Hps, Hc.
      * exists ps. split; [reflexivity | cbn; lia].
      * exists (p :: ps). split; [now rewrite <- List.app_assoc | cbn; lia].
    + intros [= <- _]. destruct (Hb _ _ _ _ _ E1) as [Hc | [p Hc]]; rewrite Hc.
      * exists []. split; [now rewrite List.app_nil_r | cbn; lia].
      * exists [p]. split; [reflexivity | cbn; lia].
Qed.

Lemma exn_to_string_nonempty (e : exn) : exn_to_string e <> EmptyString.
Proof.
  unfold exn_to_string. destruct (String.eqb (exn_message e) EmptyString);
    destruct e; discriminate.
Qed.

(** X15: on every path, with or without a failure, repairLexicon and
    evolveWords only add to the prompts that were sent before, and add
    no more than one for each chunk of their input: at most the length
    over fifteen, rounded up, for repairLexicon, and the length over
    ten for evolveWords. *)
Theorem batches_send_at_most_one_prompt_per_chunk
    (env : Env) (entries words : list value) (constraints : ProjectConstraints)
    (rules : list SoundChangeRule) (w : World) :
  (exists w' r ps,
      repairLexicon env entries constraints w = (w', r)
      /\ calls w' = calls w ++ ps
      /\ (length ps <= (length entries + 14) / 15)%nat)
  /\ (exists w' r ps,
        evolveWords env words rules w = (w', r)
        /\ calls w' = calls w ++ ps
        /\ (length ps <= (length words + 9) / 10)%nat).
Proof.
  assert (Hnil : forall v : World, calls v = calls v ++ []) by
    (intros; now rewrite List.app_nil_r).
  split.
  - unfold repairLexicon. destruct (length entries =? 0)%nat.
    { eexists _, _, []. split; [reflexivity |]. split; [apply Hnil | cbn; lia]. }
    unfold try_catch. rewrite BatchClaims.repair_body_run.
    destruct (getGenAI env w) as [w0 [key|e]] eqn:Eg;
      pose proof (getGenAI_calls env w w0 _ Eg) as Hc0.
    + destruct (run_chunks _ _ [] w0) as [w1 r1] eqn:Er.
      destruct (run_chunks_calls _ _ (repair_chunk_calls env key _) _ _ _ _ Er)
        as (ps & Hps & Hlen).
      destruct (chunks_partition CHUNK_SIZE_REPAIR entries) as (_ & Hn & _);
        [unfold CHUNK_SIZE_REPAIR; lia |].
      rewrite Hn in Hlen. unfold CHUNK_SIZE_REPAIR in Hlen.
      replace (length entries + 15 - 1)%nat with (length entries + 14)%nat in Hlen by lia.
      rewrite Hc0 in Hps.
      destruct r1 as [acc|e]; unfold repair_failed, bind, print, ret;
        eexists _, _, ps; (split; [reflexivity |]); split; assumption.
    + unfold repair_failed, bind, print, ret. eexists _, _, []. split; [reflexivity |].
      split; [cbn [calls]; rewrite Hc0; apply Hnil | cbn; lia].
  - unfold evolveWords. destruct ((length words =? 0)%nat || (length rules =? 0)%nat).
    { eexists _, _, []. split; [reflexivity |]. split; [apply Hnil | cbn; lia]. }
    unfold try_catch. rewrite BatchClaims.evolve_body_run.
    destruct (getGenAI env w) as [w0 [key|e]] eqn:Eg;
      pose proof (getGenAI_calls env w w0 _ Eg) as Hc0.
    + destruct (run_chunks _ _ words w0) as [w1 r1] eqn:Er.
      destruct (run_chunks_calls _ _ (evolve_chunk_calls env key rules) _ _ _ _ Er)
        as (ps & Hps & Hlen).
      destruct (chunks_partition CHUNK_SIZE_EVOLVE words) as (_ & Hn & _);
        [unfold CHUNK_SIZE_EVOLVE; lia |].
      rewrite Hn in Hlen. unfold CHUNK_SIZE_EVOLVE in Hlen.
      replace (length words + 10 - 1)%nat with (length words + 9)%nat in Hlen by lia.
      rewrite Hc0 in Hps.
      destruct r1 as [acc|e]; unfold evolve_failed, report, bind, print, ret;
        eexists _, _, ps; (split; [reflexivity |]); split; assumption.
    + unfold evolve_failed, report, bind, print, ret. eexists _, _, [].
      split; [reflexivity |]. split; [cbn [calls]; rewrite Hc0; apply Hnil | cbn; lia].
Qed.

(** X16: repairLexicon never rejects, and its result has one of two
    shapes: success with no message, or failure with no repairs and a
    message that wraps a cause that is not empty between the text AI
    Repair Failed and the hint to check the key. Repairs parsed before
    a failure are never returned. *)
Theorem repairLexicon_result_shape
    (env : Env) (entries : list value) (constraints : ProjectConstraints) (w : World) :
  exists w' r,
    repairLexicon env entries constraints w = (w', Ok r)
    /\ ((success r = true /\ message r = None)
        \/ (success r = false /\ repairs r = []
            /\ exists cause,
                 cause <> EmptyString
                 /\ message r = Some ("AI Repair Failed: " +:+ cause
                                      +:+ ". Verifica tu API key en Settings."))).
Proof.
  assert (Hfail : forall e v, exists w' r,
             repair_failed e v = (w', Ok r)
             /\ ((success r = true /\ message r = None)
                 \/ (success r = false /\ repairs r = []
                     /\ exists cause,
                          cause <> EmptyString
                          /\ message r = Some ("AI Repair Failed: " +:+ cause
                                               +:+ ". Verifica tu API key en Settings.")))).
  { intros e v. unfold repair_failed, bind, print, ret. eexists _, _.
    split; [reflexivity |]. right. cbn [success repairs message].
    split; [reflexivity |]. split; [reflexivity |].
    exists (or_else (exn_message e) (exn_to_string e)).
    split; [apply SingleCallProps.or_else_nonempty, exn_to_string_nonempty | reflexivity]. }
  unfold repairLexicon. destruct (length entries =? 0)%nat.
  { eexists _, _. split; [reflexivity |]. left. split; reflexivity. }
  unfold try_catch. rewrite BatchClaims.repair_body_run.
  destruct (getGenAI env w) as [w0 [key|e]]; [| apply Hfail].
  destruct (run_chunks _ _ [] w0) as [w1 [acc|e]]; [| apply Hfail].
  eexists _, _. split; [reflexivity |]. left. split; reflexivity.
Qed.

(** X20: an answer that parses to an object is a failure of the batch,
    at whatever chunk it comes. repairLexicon spreads the parsed answer
    into its list and evolveWords calls forEach on it; on an object
    both raise the TypeError of the engine, so repairLexicon returns
    its failure with no repairs and evolveWords returns the words it
    was given. A model that wraps its list in an object, or returns
    one record where a list was asked for, thus fails the whole call. *)
Theorem object_answer_fails_the_batch
    (env : Env) (constraints : ProjectConstraints) (rules : list SoundChangeRule)
    (w : World) :
  getApiKey env <> EmptyString ->
  let key := trim (getApiKey env) in
  let e := TypeError (type_error_text env) in
  (forall entries pre chunk post ps answers triples text fields,
      chunks CHUNK_SIZE_REPAIR entries = pre ++ chunk :: post ->
      rounds (repair_round env key (repair_rules constraints)) (calls w) pre ps answers ->
      map_result (triple env) chunk = Ok triples ->
      remote env key (calls w ++ ps)
        (repair_prompt (repair_rules constraints)
           (default "undefined" (Json.stringify (VArr triples)))) = Ok text ->
      extract env text = Ok (VObj fields) ->
      exists w',
        repairLexicon env entries constraints w
        = (w', Ok {| success := false; repairs := [];
                     message := Some (repair_error_message e) |}))
  /\ (forall words pre chunk post ps answers lex ws text fields,
        rules <> [] ->
        chunks CHUNK_SIZE_EVOLVE words = pre ++ chunk :: post ->
        rounds (evolve_round env key rules) (calls w) pre ps answers ->
        forEach (evolve_one env) (concat answers) words = Ok lex ->
        map_result (fun x => get env x "word") chunk = Ok ws ->
        remote env key (calls w ++ ps) (evolve_prompt rules ws) = Ok text ->
        extract env text = Ok (VObj fields) ->
        exists w', evolveWords env words rules w = (w', Ok words)).
Proof.
  intros Hkey key e. subst key. set (key := trim (getApiKey env)).
  destruct (getGenAI_key env w Hkey) as [w0 [Eg Hc0]]. fold key in Eg. split.
  - intros entries pre chunk post ps answers triples text fields Hcs Hrs Ht Hr Hx.
    unfold repairLexicon. rewrite (BatchClaims.chunks_nonempty _ _ _ _ _ Hcs).
    unfold try_catch. rewrite BatchClaims.repair_body_run, Eg, Hcs, run_chunks_app.
    rewrite <- Hc0 in Hrs, Hr.
    destruct (repair_run_rounds env key _ pre [] w0 ps answers Hrs) as [w1 [-> Hc1]].
    rewrite <- Hc1 in Hr. cbn [run_chunks]. unfold bind at 1.
    unfold repair_chunk, bind, starting, print, lift, generateContent, ret.
    cbv beta iota. cbn [calls console]. rewrite Ht, Hr.
    rewrite safeParseJSON_extract, Hx. cbn [iterate].
    unfold repair_failed, bind, print, ret. eexists. reflexivity.
  - intros words pre chunk post ps answers lex ws text fields Hrules Hcs Hrs Hlex Ht Hr Hx.
    unfold evolveWords. rewrite (BatchClaims.chunks_nonempty _ _ _ _ _ Hcs).
    destruct rules as [|r0 rules']; [contradiction |]. cbn [length Nat.eqb orb].
    unfold try_catch. rewrite BatchClaims.evolve_body_run, Eg, Hcs, run_chunks_app.
    rewrite <- Hc0 in Hrs, Hr.
    destruct (evolve_run_rounds env key _ pre words lex w0 ps answers Hrs Hlex)
      as [w1 [-> Hc1]].
    rewrite <- Hc1 in Hr. cbn [run_chunks]. unfold bind at 1.
    unfold evolve_chunk, bind, starting, print, lift, generateContent, ret, throw.
    cbv beta iota. cbn [calls console]. rewrite Ht, Hr.
    rewrite safeParseJSON_extract, Hx.
    unfold evolve_failed, report, bind, print, ret. eexists. reflexivity.
Qed.

Lemma object_answer_fails_the_batch_witness :
  exists w',
    repairLexicon (env_saying (Json.dq "{'repairs':[]}")) (lexicon 1) constraints0 empty_world
    = (w', Ok {| success := false; repairs := [];
                 message := Some (repair_error_message (TypeError "not iterable")) |}).
Proof.
  pose (env := env_saying (Json.dq "{'repairs':[]}")).
  destruct (object_answer_fails_the_batch env constraints0 rules0 empty_world)
    as [Hrepair _]; [discriminate |].
  apply (Hrepair (lexicon 1) [] (lexicon 1) [] [] [] (triples_of env (lexicon 1))
           (Json.dq "{'repairs':[]}") [("repairs", VArr [])]).
  - reflexivity.
  - constructor.
  - reflexivity.
  - reflexivity.
  - reflexivity.
Defined.

End BatchProps.

(** * What processCommandAI keeps *)

Module CommandProps.
Import Str Regex Js Spec Demo Props StrFacts SearchFacts ParseFacts ChunkFacts LoopFacts
  EvolveProps.

Lemma unique_keys_arr (items : list value) :
  unique_keys (VArr items) <-> Forall unique_keys items.
Proof.
  cbn [unique_keys]. induction items as [|x l IH]; cbn [fold_right].
  - split; constructor.
  - rewrite IH. split; [intros [? ?]; now constructor | now inversion 1].
Qed.

Lemma unique_keys_obj (fields : list (string * value)) :
  unique_keys (VObj fields)
  <-> NoDup (map fst fields) /\ Forall (fun kv => unique_keys (snd kv)) fields.
Proof.
  cbn [unique_keys].
  assert (H : fold_right (fun kv acc => unique_keys (snd kv) /\ acc) True fields
              <-> Forall (fun kv => unique_keys (snd kv)) fields).
  { induction fields as [|x l IH]; cbn [fold_right].
    - split; constructor.
    - rewrite IH. split; [intros [? ?]; now constructor | now inversion 1]. }
  now rewrite H.
Qed.

Lemma set_keys (k x : string) (v : value) (l : list (string * value)) :
  In x (map fst (set k v l)) -> x = k \/ In x (map fst l).
Proof.
  induction l as [|[k' v'] l IH]; cbn [set map fst In].
  - intros [<-|[]]. now left.
  - destruct (String.eqb_spec k' k) as [->|Hne]; cbn [map fst In]; [tauto |].
    intros [<-|H]; [tauto |]. destruct (IH H); tauto.
Qed.

Lemma set_unique (k : string) (v : value) (l : list (string * value)) :
  NoDup (map fst l) -> NoDup (map fst (set k v l)).
Proof.
  induction l as [|[k' v'] l IH]; cbn [set map fst]; intros H.
  - apply NoDup_singleton.
  - apply NoDup_cons in H as [Hk Hl].
    destruct (String.eqb_spec k' k) as [->|Hne]; cbn [map fst].
    + apply NoDup_cons. split; assumption.
    + apply NoDup_cons. split; [| now apply IH].
      intros Hin. apply list_elem_of_In, set_keys in Hin as [->|Hin]; [congruence |].
      apply Hk, list_elem_of_In, Hin.
Qed.

Lemma set_Forall (P : value -> Prop) (k : string) (v : value) (l : list (string * value)) :
  P v -> Forall (fun kv => P (snd kv)) l -> Forall (fun kv => P (snd kv)) (set k v l).
Proof.
  intros Hv. induction 1 as [|[k' v'] l Hx Hl IH]; cbn [set].
  - constructor; [exact Hv | constructor].
  - destruct (String.eqb k' k); constructor; auto.
Qed.

Lemma parse_number_scalar (s r : string) (v : value) :
  Json.parse_number s = Some (v, r) -> unique_keys v.
Proof.
  unfold Json.parse_number.
  destruct (Json.parse_sign s) as [neg s1].
  destruct (Json.take_digits s1) as [int s2].
  destruct (negb (Json.int_ok int)); [discriminate |].
  destruct (Json.parse_frac s2) as [[frac s3]|]; [| discriminate].
  destruct (Json.parse_exp s3) as [[ex s4]|]; [| discriminate].
  destruct (normalize _ _ _). now intros [= <- _].
Qed.

Lemma literal_scalar (word s r : string) (v v' : value) :
  unique_keys v -> Json.literal word v s = Some (v', r) -> unique_keys v'.
Proof.
  intros Hv. unfold Json.literal. destruct (String.prefix word s); [| discriminate].
  now intros [= <- _].
Qed.

(** The parser builds objects with [set], so no name occurs twice. *)
Lemma parse_unique_keys (n : nat) :
  (forall s v r, Json.parse_value n s = Some (v, r) -> unique_keys v)
  /\ (forall s acc v r, Json.parse_elements n s acc = Some (v, r) ->
                        Forall unique_keys acc -> unique_keys v)
  /\ (forall s acc v r, Json.parse_members n s acc = Some (v, r) ->
                        unique_keys (VObj acc) -> unique_keys v).
Proof.
  induction n as [|n [IHv [IHe IHm]]]; [repeat split; discriminate |].
  split; [| split].
  - intros s v r. cbn [Json.parse_value].
    destruct (skip Json.is_ws s) as [|c r0]; [discriminate |].
    destruct (Ascii.eqb c "{").
    { destruct (skip Json.is_ws r0) as [|d r']; [discriminate |].
      destruct (Ascii.eqb d "}").
      - intros [= <- _]. apply unique_keys_obj. split; constructor.
      - intros H. apply IHm in H; [exact H |]. apply unique_keys_obj. split; constructor. }
    destruct (Ascii.eqb c "[").
    { destruct (skip Json.is_ws r0) as [|d r']; [discriminate |].
      destruct (Ascii.eqb d "]").
      - intros [= <- _]. exact I.
      - intros H. apply IHe in H; [exact H | constructor]. }
    destruct (Ascii.eqb c DQUOTE).
    { destruct (Json.parse_string r0) as [[t rest]|]; [| discriminate].
      now intros [= <- _]. }
    destruct (Ascii.eqb c "t"); [apply literal_scalar; exact I |].
    destruct (Ascii.eqb c "f"); [apply literal_scalar; exact I |].
    destruct (Ascii.eqb c "n"); [apply literal_scalar; exact I |].
    apply parse_number_scalar.
  - intros s acc v r. cbn [Json.parse_elements].
    destruct (Json.parse_value n s) as [[v' r1]|] eqn:E1; [| discriminate].
    apply IHv in E1.
    destruct (skip Json.is_ws r1) as [|d r2]; [discriminate |].
    assert (Hacc : Forall unique_keys acc -> Forall unique_keys (acc ++ [v'])).
    { intros Ha. apply Forall_app. split; [exact Ha | now constructor]. }
    destruct (Ascii.eqb d ","); [intros H Ha; eapply IHe; eauto |].
    destruct (Ascii.eqb d "]"); [| discriminate].
    intros [= <- _] Ha. apply unique_keys_arr. auto.
  - intros s acc v r. cbn [Json.parse_members].
    destruct (skip Json.is_ws s) as [|q r0]; [discriminate |].
    destruct (Ascii.eqb q DQUOTE); [| discriminate].
    destruct (Json.parse_string r0) as [[k r1]|]; [| discriminate].
    destruct (skip Json.is_ws r1) as [|d r2]; [discriminate |].
    destruct (Ascii.eqb d ":"); [| discriminate].
    destruct (Json.parse_value n r2) as [[v' r3]|] eqn:E3; [| discriminate].
    apply IHv in E3.
    destruct (skip Json.is_ws r3) as [|d' r4]; [discriminate |].
    assert (Hacc : unique_keys (VObj acc) -> unique_keys (VObj (set k v' acc))).
    { rewrite !unique_keys_obj. intros [H1 H2].
      split; [now apply set_unique | now apply (set_Forall unique_keys)]. }
    destruct (Ascii.eqb d' ","); [intros H Ha; eapply IHm; eauto |].
    destruct (Ascii.eqb d' "}"); [| discriminate].
    intros [= <- _] Ha. auto.
Qed.

Lemma extract_unique_keys (env : Env) (text : string) (v : value) :
  extract env text = Ok v -> unique_keys v.
Proof.
  unfold extract. destruct (clean (select text)) as [t|]; cbn [bind_result]; [| discriminate].
  unfold JSON_parse, Json.parse.
  destruct (Json.parse_value _ t) as [[v' rest]|] eqn:E; [| discriminate].
  destruct (skip Json.is_ws rest); [| discriminate].
  intros [= <-]. eapply (proj1 (parse_unique_keys _)), E.
Qed.

Lemma spread_lookup (k : string) (b : list (string * value)) :
  forall a,
    NoDup (map fst b) ->
    lookup k (spread_into a b)
    = match lookup k b with Some v => Some v | None => lookup k a end.
Proof.
  unfold spread_into.
  induction b as [|[k' v] b IH]; intros a Hb; cbn [fold_left lookup fst snd map];
    [reflexivity |].
  cbn [map fst] in Hb. apply NoDup_cons in Hb as [Hk Hb].
  rewrite (IH _ Hb). destruct (String.eqb_spec k' k) as [->|Hne].
  - assert (E : lookup k b = None).
    { clear -Hk. induction b as [|[x y] b IH]; [reflexivity |]. cbn [lookup].
      cbn [map fst] in Hk. apply not_elem_of_cons in Hk as [Hx Hk].
      destruct (String.eqb_spec x k); [congruence | now apply IH]. }
    rewrite E. apply lookup_set_eq.
  - destruct (lookup k b); [reflexivity |]. apply lookup_set_ne. congruence.
Qed.

Lemma spread_absent (k : string) (b : list (string * value)) :
  forall a, (forall x, In x (map fst b) -> x <> k) ->
            lookup k (spread_into a b) = lookup k a.
Proof.
  unfold spread_into.
  induction b as [|[k' v] b IH]; intros a Hb; cbn [fold_left fst snd]; [reflexivity |].
  rewrite IH by (intros x Hx; apply Hb; now right).
  apply lookup_set_ne. intros ->. now apply (Hb k'); [left |].
Qed.

Lemma spread_keeps (k : string) (b : list (string * value)) :
  forall a v, lookup k a = Some v -> exists v', lookup k (spread_into a b) = Some v'.
Proof.
  unfold spread_into.
  induction b as [|[k' x] b IH]; intros a v Ha; cbn [fold_left fst snd]; [eauto |].
  destruct (String.eqb_spec k k') as [<-|Hne].
  - apply (IH _ x), lookup_set_eq.
  - apply (IH _ v). now rewrite lookup_set_ne.
Qed.

Lemma digits_not_id (z : Z) : digits z <> "id".
Proof.
  unfold digits, NilZero.string_of_int, NilZero.string_of_uint.
  destruct (Z.to_int z) as [d|d]; destruct d; discriminate.
Qed.

Lemma index_keys {A} (g : A -> value) (l : list A) :
  forall n x, In x (map fst (imap (fun i c => (str_of_nat (n + i), g c)) l)) -> x <> "id".
Proof.
  induction l as [|c l IH]; intros n x; cbn [imap map fst In]; [intros [] |].
  intros [<-|H]; [apply digits_not_id |].
  apply (IH (S n) x). erewrite imap_ext; [exact H |].
  intros i y _. cbn. now rewrite Nat.add_succ_r.
Qed.

Lemma own_props_index_keys (m : value) :
  (forall f, m <> VObj f) -> forall x, In x (map fst (own_props m)) -> x <> "id".
Proof.
  intros Hm x. destruct m as [| | | | s | items | fields]; cbn [own_props map In];
    try (intros []).
  - apply (index_keys (fun c => VStr (String c EmptyString)) _ 0).
  - apply (index_keys (fun y => y) items 0).
  - now elim (Hm fields).
Qed.

Lemma strict_eq_true (a b : value) : strict_eq a b = true -> a = b.
Proof.
  destruct a, b; cbn [strict_eq]; try discriminate; try reflexivity.
  - intros H. f_equal. now apply Bool.eqb_prop.
  - intros H. apply andb_true_iff in H as [H1 H2].
    apply Z.eqb_eq in H1, H2. now subst.
  - intros H. f_equal. now apply String.eqb_eq.
Qed.

Lemma find_found {A} (p : A -> result bool) (l : list A) (x : A) :
  find p l = Ok (Some x) -> In x l /\ p x = Ok true.
Proof.
  induction l as [|a l IH]; cbn [find]; [discriminate |].
  destruct (p a) as [[]|] eqn:Ea; cbn [bind_result]; [| | discriminate].
  - intros [= <-]. split; [now left | exact Ea].
  - intros H. destruct (IH H). split; [now right | assumption].
Qed.

Lemma prop_own (v : value) :
  (forall x, In x (map fst (own_props v)) -> x <> "id") \/ (exists f, v = VObj f) ->
  default VUndefined (lookup "id" (own_props v)) = prop v "id".
Proof.
  intros [H | [f ->]]; [| reflexivity].
  assert (E : lookup "id" (own_props v) = None).
  { revert H. generalize (own_props v). intros l. induction l as [|[k y] l IH]; intros H;
      [reflexivity |]. cbn [lookup].
    destruct (String.eqb_spec k "id") as [->|_]; [now elim (H "id"); [left |] |].
    apply IH. intros x Hx. apply H. now right. }
  rewrite E. destruct v; try reflexivity. cbn [own_props] in E. cbn [prop]. now rewrite E.
Qed.

Lemma own_props_id (v : value) : default VUndefined (lookup "id" (own_props v)) = prop v "id".
Proof.
  apply prop_own. destruct v as [| | | | s | items | fields].
  1-4: left; intros x [].
  - left. apply own_props_index_keys. discriminate.
  - left. apply own_props_index_keys. discriminate.
  - right. eauto.
Qed.

(** The callback of [lexicon.map] keeps the identifier. *)
Lemma apply_mods_merged (env : Env) (mods : list value) (entry new : value) :
  Forall unique_keys mods ->
  apply_mods env mods entry = Ok new -> merged_from entry new.
Proof.
  intros Hu. unfold apply_mods.
  destruct (find (same_id env entry) mods) as [[m|]|] eqn:Ef; cbn [bind_result];
    [| intros [= <-]; now left | discriminate].
  destruct (truthy m); [| intros [= <-]; now left].
  intros [= <-]. right. eexists. split; [reflexivity |].
  split; [| intros k v Hk; eapply spread_keeps; eauto].
  destruct (find_found _ _ _ Ef) as [Hin Hsame].
  rewrite Forall_forall in Hu. apply list_elem_of_In, Hu in Hin.
  unfold same_id in Hsame.
  destruct (get env m "id") as [mid|] eqn:Em; cbn [bind_result] in Hsame; [| discriminate].
  destruct (get env entry "id") as [eid|] eqn:Ee; cbn [bind_result] in Hsame;
    [| discriminate].
  injection Hsame as Hs. apply strict_eq_true in Hs. subst eid.
  apply get_prop in Em, Ee. cbn [prop]. rewrite <- Ee.
  assert (Hm : (exists f, m = VObj f) \/ (forall f, m <> VObj f))
    by (destruct m; try (right; discriminate); left; eauto).
  destruct Hm as [[f ->]|Hno].
  - apply unique_keys_obj in Hin as [Hnd _]. cbn [own_props].
    rewrite (spread_lookup "id" f _ Hnd). cbn [prop] in Em.
    destruct (lookup "id" f) as [x|]; cbn [default] in *; [congruence |].
    rewrite own_props_id. congruence.
  - rewrite spread_absent.
    + rewrite own_props_id. congruence.
    + apply own_props_index_keys. exact Hno.
Qed.

Lemma map_result_Forall2 {A B} (f : A -> result B) (R : A -> B -> Prop)
    (l : list A) (l' : list B) :
  (forall x y, f x = Ok y -> R x y) -> map_result f l = Ok l' -> Forall2 R l l'.
Proof.
  intros Hf. revert l'. induction l as [|x l IH]; intros l'; cbn [map_result].
  - intros [= <-]. constructor.
  - destruct (f x) as [y|] eqn:Ex; cbn [bind_result]; [| discriminate].
    destruct (map_result f l) as [ys|]; cbn [bind_result]; [| discriminate].
    intros [= <-]. constructor; auto.
Qed.

Lemma extract_container (env : Env) (text : string) (v : value) :
  extract env text = Ok v -> (exists f, v = VObj f) \/ (exists l, v = VArr l).
Proof.
  intros E. apply (safeParseJSON_container env text empty_world empty_world).
  now rewrite safeParseJSON_extract, E.
Qed.

Lemma get_container (env : Env) (v : value) (k : string) :
  (exists f, v = VObj f) \/ (exists l, v = VArr l) -> get env v k = Ok (prop v k).
Proof. intros [[f ->]|[l ->]]; reflexivity. Qed.

Lemma prop_unique_keys (v : value) (k : string) : unique_keys v -> unique_keys (prop v k).
Proof.
  destruct v; cbn [prop]; try (intros; exact I).
  intros H. apply unique_keys_obj in H as [_ H].
  induction H as [|[k' x] l Hx _ IH]; cbn [lookup]; [exact I |].
  destruct (String.eqb k' k); [exact Hx | exact IH].
Qed.

Lemma merge_mods_run (env : Env) (lexicon : list value) (resultData : value) :
  (exists f, resultData = VObj f) \/ (exists l, resultData = VArr l) ->
  merge_mods env lexicon resultData =
    match modifications_of resultData with
    | Some mods =>
        match map_result (apply_mods env mods) lexicon with
        | Ok entries => Ok {| ok := true; modifiedCount := length mods;
                              newLexicon := Some entries; note := None |}
        | Throw e => Throw e
        end
    | None => Throw (TypeError (type_error_text env))
    end.
Proof.
  intros Hc. unfold merge_mods, modifications_of.
  rewrite (get_container env resultData _ Hc). cbn [bind_result].
  now destruct (if truthy (prop resultData "modifications")
                then prop resultData "modifications" else VArr []).
Qed.

(** X17: processCommandAI never rejects and sends at most its one
    prompt. When it returns a new lexicon, that lexicon has the length
    and the order of the lexicon of the caller: the entry at each place
    is the entry of the caller itself or an object with the same
    identifier in which no property of that entry is missing. When it
    returns none, success is false and the count is zero. *)
Theorem processCommandAI_keeps_order_and_ids
    (env : Env) (lexicon : list value) (instruction : string)
    (constraints : ProjectConstraints) (w : World) :
  exists w' r,
    processCommandAI env lexicon instruction constraints w = (w', Ok r)
    /\ (calls w' = calls w
        \/ calls w' = calls w ++ [command_prompt instruction constraints])
    /\ match newLexicon r with
       | Some lex' =>
           ok r = true /\ note r = None
           /\ length lex' = length lexicon
           /\ Forall2 merged_from lexicon lex'
       | None => ok r = false /\ modifiedCount r = 0%nat
       end.
Proof.
  unfold processCommandAI. destruct (length lexicon =? 0)%nat.
  { eexists _, _. split; [reflexivity |]. split; [now left | split; reflexivity]. }
  unfold try_catch, command_body, command_failed, bind.
  destruct (String.eqb_spec (getApiKey env) EmptyString) as [E|E].
  { rewrite (getGenAI_no_key env w E). unfold report, print, ret.
    eexists _, _. split; [reflexivity |]. split; [now left | split; reflexivity]. }
  destruct (getGenAI_key env w E) as (w0 & -> & Hc).
  unfold starting, print, generateContent. cbn [calls console]. rewrite Hc.
  destruct (remote env _ (calls w) _) as [text|e].
  2:{ unfold report, print, ret. eexists _, _. split; [reflexivity |].
      split; [now right | split; reflexivity]. }
  rewrite safeParseJSON_extract.
  destruct (extract env text) as [resultData|e] eqn:Ex.
  2:{ unfold report, print, ret. eexists _, _. split; [reflexivity |].
      split; [now right | split; reflexivity]. }
  unfold lift. rewrite (merge_mods_run env lexicon resultData (extract_container _ _ _ Ex)).
  pose proof (prop_unique_keys resultData "modifications" (extract_unique_keys _ _ _ Ex))
    as Hu.
  unfold modifications_of.
  destruct (truthy (prop resultData "modifications")).
  - destruct (prop resultData "modifications") as [| | | | |mods|];
      try (unfold report, print, ret; eexists _, _; split; [reflexivity |];
           split; [now right | split; reflexivity]).
    apply unique_keys_arr in Hu.
    destruct (map_result (apply_mods env mods) lexicon) as [entries|e] eqn:Em.
    + eexists _, _. split; [reflexivity |]. split; [now right |].
      cbn [newLexicon ok note].
      assert (HF : Forall2 merged_from lexicon entries).
      { eapply map_result_Forall2; [| exact Em]. intros x y. now apply apply_mods_merged. }
      repeat split; [| exact HF]. symmetry. eapply Forall2_length, HF.
    + unfold report, print, ret. eexists _, _. split; [reflexivity |].
      split; [now right | split; reflexivity].
  - destruct (map_result (apply_mods env []) lexicon) as [entries|e] eqn:Em.
    + eexists _, _. split; [reflexivity |]. split; [now right |].
      cbn [newLexicon ok note].
      assert (HF : Forall2 merged_from lexicon entries).
      { eapply map_result_Forall2; [| exact Em]. intros x y.
        apply apply_mods_merged. constructor. }
      repeat split; [| exact HF]. symmetry. eapply Forall2_length, HF.
    + unfold report, print, ret. eexists _, _. split; [reflexivity |].
      split; [now right | split; reflexivity].
Qed.

(** X18: the count that processCommandAI reports is the number of
    records in the answer, not the number of entries it changed. When
    the answer parses and none of its records has the identifier of an
    entry, or it has no modifications at all, the call succeeds, the new
    lexicon is the lexicon of the caller, and the count is still the
    number of records. *)
Theorem processCommandAI_counts_unmatched_records
    (env : Env) (lexicon : list value) (instruction : string)
    (constraints : ProjectConstraints) (w : World)
    (text : string) (resultData : value) (mods : list value) :
  lexicon <> [] ->
  getApiKey env <> EmptyString ->
  remote env (trim (getApiKey env)) (calls w) (command_prompt instruction constraints)
  = Ok text ->
  extract env text = Ok resultData ->
  modifications_of resultData = Some mods ->
  Forall (fun entry => Forall (fun m => same_id env entry m = Ok false) mods) lexicon ->
  exists w',
    processCommandAI env lexicon instruction constraints w
    = (w', Ok {| ok := true; modifiedCount := length mods;
                 newLexicon := Some lexicon; note := None |}).
Proof.
  intros Hne Hkey Hr Hx Hm Hun. unfold processCommandAI.
  destruct lexicon as [|e0 l0] eqn:El; [contradiction |]. cbn [length Nat.eqb].
  rewrite <- El in *. clear El e0 l0 Hne.
  unfold try_catch, command_body, bind.
  destruct (getGenAI_key env w Hkey) as (w0 & -> & Hc).
  unfold starting, print, generateContent. cbn [calls console]. rewrite Hc, Hr.
  rewrite safeParseJSON_extract, Hx. unfold lift.
  rewrite (merge_mods_run env lexicon resultData (extract_container _ _ _ Hx)), Hm.
  assert (E : map_result (apply_mods env mods) lexicon = Ok lexicon).
  { induction Hun as [|x l Hx' _ IH]; [reflexivity |]. cbn [map_result].
    rewrite (MergeClaims.apply_mods_unmatched env mods x Hx'). cbn [bind_result].
    now rewrite IH. }
  rewrite E. eexists. reflexivity.
Qed.

Lemma processCommandAI_counts_unmatched_records_witness :
  exists w',
    processCommandAI (env_saying (Json.dq "{'modifications':[{'id':'zz','word':'Q'}]}"))
      foo_bar "rename" constraints0 empty_world
    = (w', Ok {| ok := true; modifiedCount := 1; newLexicon := Some foo_bar;
                 note := None |}).
Proof.
  apply (processCommandAI_counts_unmatched_records _ foo_bar "rename" constraints0
           empty_world (Json.dq "{'modifications':[{'id':'zz','word':'Q'}]}")
           (VObj [("modifications", VArr [VObj [("id", VStr "zz"); ("word", VStr "Q")]])])
           [VObj [("id", VStr "zz"); ("word", VStr "Q")]]).
  - discriminate.
  - discriminate.
  - reflexivity.
  - reflexivity.
  - reflexivity.
  - repeat constructor.
Defined.

End CommandProps.

(** * The earlier version *)

Module EarlierProps.
Import Str Regex Js Spec Demo Props StrFacts SearchFacts.

Lemma remove_plain (pat : string) (s : string) :
  ~ occurs "`" s -> Earlier.remove_from (String "`" pat) 0 s = s.
Proof.
  induction s as [|c s IH]; intros Hs; [reflexivity |].
  cbn [Earlier.remove_from].
  assert (Hc : c <> "`"%char) by (intros ->; apply Hs; now left).
  cbn [String.prefix]. destruct (ascii_dec "`" c) as [E|_]; [congruence |].
  rewrite IH; [reflexivity |]. intros H. apply Hs. now right.
Qed.

Lemma remove_after_plain (pat a b : string) :
  ~ occurs "`" a ->
  Earlier.remove_from (String "`" pat) 0 (a +:+ b)
  = a +:+ Earlier.remove_from (String "`" pat) 0 b.
Proof.
  induction a as [|c a IH]; intros Ha; [reflexivity |].
  cbn [String.append Earlier.remove_from].
  assert (Hc : c <> "`"%char) by (intros ->; apply Ha; now left).
  cbn [String.prefix]. destruct (ascii_dec "`" c) as [E|_]; [congruence |].
  rewrite IH; [reflexivity |]. intros H. apply Ha. now right.
Qed.

Lemma remove_skipped (pat x b : string) :
  Earlier.remove_from pat (String.length x) (x +:+ b) = Earlier.remove_from pat 0 b.
Proof.
  induction x as [|c x IH]; [reflexivity |].
  cbn [String.length String.append Earlier.remove_from].
  destruct (x +:+ b) eqn:E; exact IH.
Qed.

Lemma remove_match (pat b : string) :
  Earlier.remove_from (String "`" pat) 0 (String "`" pat +:+ b)
  = Earlier.remove_from (String "`" pat) 0 b.
Proof.
  cbn [String.append Earlier.remove_from].
  assert (E : String.prefix (String "`" pat) (String "`" (pat +:+ b)) = true).
  { apply prefix_iff. now exists b. }
  rewrite E.
  replace (String.length (String "`" pat) - 1)%nat with (String.length pat)
    by (cbn [String.length]; lia).
  apply remove_skipped.
Qed.

Lemma no_tick_app (a b : string) :
  ~ occurs "`" a -> ~ occurs "`" b -> ~ occurs "`" (a +:+ b).
Proof. intros Ha Hb H. apply occurs_app in H as [H|H]; auto. Qed.

Lemma keep_closing_marker (post : string) :
  ~ occurs "`" post -> String.prefix "json" post = false ->
  Earlier.remove_all "```json" ("```" +:+ post) = "```" +:+ post.
Proof.
  intros Hp Hj. unfold Earlier.remove_all.
  assert (Hhead : forall p, String.prefix (String "`" p) post = false).
  { intros p. destruct post as [|c post']; [reflexivity |]. cbn [String.prefix].
    destruct (ascii_dec "`" c) as [<-|_]; [| reflexivity]. elim Hp. now left. }
  cbn [String.append Earlier.remove_from].
  assert (E1 : String.prefix "```json" (String "`" (String "`" (String "`" post))) = false).
  { cbn [String.prefix]. repeat (destruct (ascii_dec _ _); [| congruence]). exact Hj. }
  rewrite E1.
  assert (E2 : String.prefix "```json" (String "`" (String "`" post)) = false).
  { cbn [String.prefix]. repeat (destruct (ascii_dec _ _); [| congruence]).
    apply Hhead. }
  rewrite E2.
  assert (E3 : String.prefix "```json" (String "`" post) = false).
  { cbn [String.prefix]. repeat (destruct (ascii_dec _ _); [| congruence]).
    apply Hhead. }
  rewrite E3. now rewrite (remove_plain "``json" post Hp).
Qed.

Lemma cleaned_plain (text : string) :
  ~ occurs "`" text -> Earlier.cleaned text = trim text.
Proof.
  intros H. unfold Earlier.cleaned, Earlier.remove_all.
  now rewrite (remove_plain "``json" text H), (remove_plain "``" text H).
Qed.

Lemma cleaned_fenced (pre body post : string) :
  ~ occurs "`" pre -> ~ occurs "`" body -> ~ occurs "`" post ->
  String.prefix "json" post = false ->
  Earlier.cleaned (pre +:+ "```json" +:+ body +:+ "```" +:+ post)
  = trim (pre +:+ body +:+ post).
Proof.
  intros Hpre Hbody Hpost Hj. unfold Earlier.cleaned.
  assert (E1 : Earlier.remove_all "```json" (pre +:+ "```json" +:+ body +:+ "```" +:+ post)
               = pre +:+ body +:+ "```" +:+ post).
  { unfold Earlier.remove_all.
    rewrite (remove_after_plain "``json" pre _ Hpre).
    rewrite (remove_match "``json" (body +:+ "```" +:+ post)).
    rewrite (remove_after_plain "``json" body _ Hbody).
    pose proof (keep_closing_marker post Hpost Hj) as Hk.
    unfold Earlier.remove_all in Hk. now rewrite Hk. }
  rewrite E1. unfold Earlier.remove_all.
  rewrite (remove_after_plain "``" pre _ Hpre).
  rewrite (remove_after_plain "``" body _ Hbody).
  rewrite (remove_match "``" post).
  now rewrite (remove_plain "``" post Hpost).
Qed.

Lemma earlier_safeParseJSON_run (env : Env) (text : string) (w : World) :
  Earlier.safeParseJSON env text w =
    match Json.parse (Earlier.cleaned text) with
    | Some v => (w, Ok v)
    | None => (logged text w,
               Throw (SyntaxError (syntax_error_text env (Earlier.cleaned text))))
    end.
Proof.
  unfold Earlier.safeParseJSON, try_catch, lift, JSON_parse, bind, print, throw.
  now destruct (Json.parse (Earlier.cleaned text)).
Qed.

(** X21: the earlier safeParseJSON only strips the fence markers. A
    text with no backquote is parsed as it is once trimmed, so every
    valid bare JSON text is returned, scalars and arrays of objects
    included; in a text with one fenced block the two markers are
    taken out and the prose around the block stays, so what is parsed
    is the block together with what surrounds it. A failure logs the
    raw text and throws the SyntaxError. *)
Theorem earlier_safeParseJSON_strips_markers_only
    (env : Env) (w : World) :
  (forall text,
      ~ occurs "`" text ->
      Earlier.safeParseJSON env text w =
        match Json.parse (trim text) with
        | Some v => (w, Ok v)
        | None => (logged text w, Throw (SyntaxError (syntax_error_text env (trim text))))
        end)
  /\ (forall pre body post,
        ~ occurs "`" pre -> ~ occurs "`" body -> ~ occurs "`" post ->
        String.prefix "json" post = false ->
        let text := pre +:+ "```json" +:+ body +:+ "```" +:+ post in
        Earlier.safeParseJSON env text w =
          match Json.parse (trim (pre +:+ body +:+ post)) with
          | Some v => (w, Ok v)
          | None => (logged text w,
                     Throw (SyntaxError (syntax_error_text env (trim (pre +:+ body +:+ post)))))
          end).
Proof.
  split.
  - intros text H. now rewrite earlier_safeParseJSON_run, (cleaned_plain text H).
  - intros pre body post H1 H2 H3 H4 text. subst text.
    now rewrite earlier_safeParseJSON_run, (cleaned_fenced pre body post H1 H2 H3 H4).
Qed.

Lemma earlier_safeParseJSON_strips_markers_only_witness :
  Earlier.safeParseJSON (env_saying prose) "5" empty_world = (empty_world, Ok (VNum 5 0))
  /\ Earlier.safeParseJSON (env_saying prose) (Json.dq "[{'id':'w1'},{'id':'w2'}]") empty_world
     = (empty_world, Ok (VArr [VObj [("id", VStr "w1")]; VObj [("id", VStr "w2")]])).
Proof.
  destruct (earlier_safeParseJSON_strips_markers_only (env_saying prose) empty_world)
    as [H _].
  split.
  - rewrite (H "5"); [reflexivity |]. apply ParserClaims.not_occurs_by_index. reflexivity.
  - rewrite (H (Json.dq "[{'id':'w1'},{'id':'w2'}]")); [reflexivity |].
    apply ParserClaims.not_occurs_by_index. reflexivity.
Defined.

(** X22: the earlier generateWords never rejects and always sends its
    one prompt, with the key of the environment even when that key is
    empty. It returns the parsed answer as it is, which need not be an
    array, and the empty array on every failure, so a failure looks
    like an answer with no words. It asks for at most fifty words. *)
Theorem earlier_generateWords_never_rejects
    (env : Env) (count : Z) (constraints vibe : string)
    (projectRules : option ProjectConstraints) (w : World) :
  let p := Earlier.generate_prompt (Z.min count 50) vibe projectRules in
  exists w' v,
    Earlier.generateWords env count constraints vibe projectRules w = (w', Ok v)
    /\ calls w' = calls w ++ [p]
    /\ v = match remote env (Earlier.env_key env) (calls w) p with
           | Ok text => match Json.parse (Earlier.cleaned text) with
                        | Some parsed => parsed
                        | None => VArr []
                        end
           | Throw _ => VArr []
           end.
Proof.
  intros p. unfold Earlier.generateWords, try_catch, bind, generateContent.
  fold p. destruct (remote env _ (calls w) p) as [text|e].
  - rewrite earlier_safeParseJSON_run.
    destruct (Json.parse (Earlier.cleaned text));
      unfold print, ret, logged; eexists _, _; split; [reflexivity | | reflexivity |]; auto.
  - unfold print, ret. eexists _, _. split; [reflexivity |]. auto.
Qed.

(** X23: the earlier generatePhonology always sends its one prompt and
    returns the parsed answer as it is, with no normalisation; every
    failure, of the remote call or of the parse, is thrown as the same
    Error, Failed to generate phonology, and the cause is only
    logged. *)
Theorem earlier_generatePhonology_throws_one_error
    (env : Env) (description : string) (w : World) :
  let p := Earlier.phonology_prompt description in
  exists w' r,
    Earlier.generatePhonology env description w = (w', r)
    /\ calls w' = calls w ++ [p]
    /\ r = match remote env (Earlier.env_key env) (calls w) p with
           | Ok text => match Json.parse (Earlier.cleaned text) with
                        | Some parsed => Ok parsed
                        | None => Throw (Error "Failed to generate phonology.")
                        end
           | Throw _ => Throw (Error "Failed to generate phonology.")
           end.
Proof.
  intros p. unfold Earlier.generatePhonology, try_catch, bind, generateContent.
  fold p. destruct (remote env _ (calls w) p) as [text|e].
  - rewrite earlier_safeParseJSON_run.
    destruct (Json.parse (Earlier.cleaned text));
      unfold print, throw, logged; eexists _, _; split; [reflexivity | | reflexivity |]; auto.
  - unfold print, throw. eexists _, _. split; [reflexivity |]. auto.
Qed.

End EarlierProps.
